(** * EMO2 backbone (mmdet/models/backbones/emov2.py): a shallow embedding

    The development follows the source file top to bottom:

    - Python-level helpers (exceptions, integer division, list indexing);
    - rank-4 tensors as nested lists with an explicit shape, and the
      einops / torch operations the attention operators use;
    - the three windowed attention operators [EW_MHSA_Remote],
      [EW_MHSA_Close] and [EW_MHSA_Hybrid];
    - the inverted residual block [iiRMB] and the model [EMO2] at the
      level of configurations and tensor shapes;
    - checkpoint loading ([EMO2._init_weights]) over name-to-tensor maps;
    - stage freezing and the train-mode toggle over a module tree.

    Scalars are kept abstract (class [Scalar]): every statement about
    tensor values holds for any carrier and any interpretation of the
    arithmetic, so no property of real or floating-point arithmetic is
    used. *)

From stdpp Require Import base list gmap strings.
From Stdlib Require Import ZArith QArith.

Local Open Scope nat_scope.

(** ** Python-level helpers *)

Inductive exn : Set :=
  | ZeroDivisionError
  | EinopsError
  | RuntimeError
  | IndexError
  | KeyError
  | AttributeError
  | AssertionError.

Inductive result (A : Type) : Type :=
  | Ok (a : A)
  | Raise (e : exn).
Arguments Ok {A} a.
Arguments Raise {A} e.

#[global] Instance result_ret : MRet result := fun A a => Ok a.
#[global] Instance result_bind : MBind result := fun A B f r =>
  match r with
  | Ok a => f a
  | Raise e => Raise e
  end.
#[global] Instance result_fmap : FMap result := fun A B f r =>
  match r with
  | Ok a => Ok (f a)
  | Raise e => Raise e
  end.

Definition is_ok {A} (r : result A) : bool :=
  match r with
  | Ok _ => true
  | Raise _ => false
  end.

(** [a % b] on Python ints: floor remainder, [ZeroDivisionError] on [b = 0]. *)
Definition py_mod (a b : Z) : result Z :=
  if decide (b = 0%Z) then Raise ZeroDivisionError else Ok (a `mod` b)%Z.

(** [a // b] on Python ints: floor quotient, [ZeroDivisionError] on [b = 0]. *)
Definition py_floordiv (a b : Z) : result Z :=
  if decide (b = 0%Z) then Raise ZeroDivisionError else Ok (a `div` b)%Z.

(** [l[i]] on a Python list: negative indices count from the end. *)
Definition py_getitem {A} (l : list A) (i : Z) : result A :=
  let n := Z.of_nat (length l) in
  let j := if decide (i < 0)%Z then (i + n)%Z else i in
  if decide (0 ≤ j < n)%Z then
    match l !! Z.to_nat j with
    | Some a => Ok a
    | None => Raise IndexError
    end
  else Raise IndexError.

(** ** Tensors *)

(** The scalar operations the attention operators use. *)
Class Scalar (T : Type) : Type := {
  t_zero : T;
  t_add : T → T → T;
  t_mul : T → T → T;
  t_div : T → T → T;
  t_exp : T → T;
}.

(** Integers as a carrier to run the definitions on concrete inputs
    (quotients in thousandths, a polynomial for the exponential). *)
#[global] Instance Z_scalar : Scalar Z := {|
  t_zero := 0%Z;
  t_add := Z.add;
  t_mul := Z.mul;
  t_div := fun a b => ((1000 * a) `div` b)%Z;
  t_exp := fun z => (z * z + 1)%Z;
|}.

Definition tab {A} (n : nat) (f : nat → A) : list A := f <$> seq 0 n.

(** A rank-4 tensor: [shape] is what [x.shape] returns, [data] the entries
    indexed outermost axis first. *)
Record tensor (T : Type) : Type := Tensor {
  shape : nat * nat * nat * nat;
  data : list (list (list (list T)));
}.
Arguments Tensor {T} shape data.
Arguments shape {T} _.
Arguments data {T} _.

Definition rows_ok {T} (H W : nat) (z : list (list T)) : bool :=
  bool_decide (length z = H) && forallb (fun r => bool_decide (length r = W)) z.

Definition chans_ok {T} (C H W : nat) (y : list (list (list T))) : bool :=
  bool_decide (length y = C) && forallb (rows_ok H W) y.

(** The nested lists have the lengths the shape announces. *)
Definition well_formed {T} (x : tensor T) : bool :=
  let '(B, C, H, W) := shape x in
  bool_decide (length (data x) = B) && forallb (chans_ok C H W) (data x).

Definition build {T} (B C H W : nat) (f : nat → nat → nat → nat → T) : tensor T :=
  Tensor (B, C, H, W)
    (tab B (fun b => tab C (fun c => tab H (fun h => tab W (fun w => f b c h w))))).

(** [x[b, c, h, w]]; the pad value outside the stored entries. *)
Definition get `{Scalar T} (x : tensor T) (b c h w : nat) : T :=
  match data x !! b with
  | Some y =>
    match y !! c with
    | Some z =>
      match z !! h with
      | Some r => default t_zero (r !! w)
      | None => t_zero
      end
    | None => t_zero
    end
  | None => t_zero
  end.

(** [F.pad(x, (0, pad_r, 0, pad_b, 0, 0))]: zeros on the right and bottom. *)
Definition F_pad `{Scalar T} (x : tensor T) (pad_r pad_b : nat) : tensor T :=
  let '(B, C, H, W) := shape x in
  build B C (H + pad_b) (W + pad_r)
    (fun b c h w => if (h <? H) && (w <? W) then get x b c h w else t_zero).

(** [x[:, :, :H, :W]]. *)
Definition crop `{Scalar T} (x : tensor T) (H W : nat) : tensor T :=
  let '(B, C, Hx, Wx) := shape x in
  build B C (H `min` Hx) (W `min` Wx) (fun b c h w => get x b c h w).

(** [x + y] for tensors of one shape (the only use in the operators). *)
Definition tensor_add `{Scalar T} (x y : tensor T) : tensor T :=
  let '(B, C, H, W) := shape x in
  build B C H W (fun b c h w => t_add (get x b c h w) (get y b c h w)).

(** einops: the length of the one unnamed factor of a composite axis of
    length [len] whose named factors multiply to [known]. *)
Definition einops_infer (len known : nat) : result nat :=
  if decide (known = 0) then Raise ZeroDivisionError
  else if decide (len `mod` known = 0) then Ok (len `div` known)
  else Raise EinopsError.

(** ['b c (h1 n1) (w1 n2) -> (b n1 n2) c h1 w1'] *)
Definition rearrange_tile_remote `{Scalar T} (n1 n2 : nat) (x : tensor T)
  : result (tensor T) :=
  let '(b, c, Hp, Wp) := shape x in
  h1 ← einops_infer Hp n1;
  w1 ← einops_infer Wp n2;
  Ok (build (b * n1 * n2) c h1 w1 (fun bb c i j =>
        get x (bb `div` (n1 * n2)) c
              (i * n1 + (bb `div` n2) `mod` n1) (j * n2 + bb `mod` n2))).

(** ['b c (n1 h1) (n2 w1) -> (b n1 n2) c h1 w1'] *)
Definition rearrange_tile_close `{Scalar T} (n1 n2 : nat) (x : tensor T)
  : result (tensor T) :=
  let '(b, c, Hp, Wp) := shape x in
  h1 ← einops_infer Hp n1;
  w1 ← einops_infer Wp n2;
  Ok (build (b * n1 * n2) c h1 w1 (fun bb c i j =>
        get x (bb `div` (n1 * n2)) c
              (((bb `div` n2) `mod` n1) * h1 + i) ((bb `mod` n2) * w1 + j))).

(** ['(b n1 n2) c h1 w1 -> b c (h1 n1) (w1 n2)'] *)
Definition rearrange_untile_remote `{Scalar T} (n1 n2 : nat) (y : tensor T)
  : result (tensor T) :=
  let '(bn, c, h1, w1) := shape y in
  b ← einops_infer bn (n1 * n2);
  Ok (build b c (h1 * n1) (w1 * n2) (fun b c p q =>
        get y ((b * n1 + p `mod` n1) * n2 + q `mod` n2) c
              (p `div` n1) (q `div` n2))).

(** ['(b n1 n2) c h1 w1 -> b c (n1 h1) (n2 w1)'] *)
Definition rearrange_untile_close `{Scalar T} (n1 n2 : nat) (y : tensor T)
  : result (tensor T) :=
  let '(bn, c, h1, w1) := shape y in
  b ← einops_infer bn (n1 * n2);
  Ok (build b c (n1 * h1) (n2 * w1) (fun b c p q =>
        get y ((b * n1 + p `div` h1) * n2 + q `div` w1) c
              (p `mod` h1) (q `mod` w1))).

(** ** Attention arithmetic *)

Definition t_sum `{Scalar T} (l : list T) : T := foldr t_add t_zero l.

(** [softmax] of one row: [exp(x_j) / sum_j' exp(x_j')]. *)
Definition softmax_row `{Scalar T} (l : list T) : list T :=
  let e := t_exp <$> l in
  (fun x => t_div x (t_sum e)) <$> e.

(** [(q @ k.transpose(-2, -1)) * scale] for [q], [k] of shape
    [(b, heads, n, d)]. *)
Definition matmul_qkT_scaled `{Scalar T} (q k : tensor T) (scale : T) : tensor T :=
  let '(b, heads, n, d) := shape q in
  build b heads n n (fun b hd i j =>
    t_mul (t_sum (tab d (fun e => t_mul (get q b hd i e) (get k b hd j e)))) scale).

(** [a.softmax(dim=-1)] *)
Definition softmax_last `{Scalar T} (a : tensor T) : tensor T :=
  let '(b, heads, n, m) := shape a in
  build b heads n m (fun b hd i j =>
    default t_zero (softmax_row (tab m (fun j' => get a b hd i j')) !! j)).

(** [nn.Dropout] when inactive (rate 0, or evaluation mode). *)
Definition attn_drop {T} (a : tensor T) : tensor T := a.

(** [a @ v] for [a] of shape [(b, heads, n, m)] and [v] of shape
    [(b, heads, m, d)]. *)
Definition matmul `{Scalar T} (a v : tensor T) : tensor T :=
  let '(b, heads, n, m) := shape a in
  let '(_, _, _, d) := shape v in
  build b heads n d (fun b hd i e =>
    t_sum (tab m (fun j => t_mul (get a b hd i j) (get v b hd j e)))).

(** ['b (qk heads dim_head) h w -> qk b heads (h w) dim_head'] with
    [qk=2]; the result is the pair [(qk[0], qk[1])]. *)
Definition rearrange_qk_heads `{Scalar T} (heads dim_head : nat) (qk : tensor T)
  : result (tensor T * tensor T) :=
  let '(b, c, h, w) := shape qk in
  if decide (c = 2 * heads * dim_head) then
    let part (s : nat) :=
      build b heads (h * w) dim_head (fun b hd t d =>
        get qk b ((s * heads + hd) * dim_head + d) (t `div` w) (t `mod` w)) in
    Ok (part 0, part 1)
  else Raise EinopsError.

(** ['b (heads dim_head) h w -> b heads (h w) dim_head'] *)
Definition rearrange_to_heads `{Scalar T} (heads : nat) (x : tensor T)
  : result (tensor T) :=
  let '(b, c, h, w) := shape x in
  dim_head ← einops_infer c heads;
  Ok (build b heads (h * w) dim_head (fun b hd t d =>
        get x b (hd * dim_head + d) (t `div` w) (t `mod` w))).

(** ['b heads (h w) dim_head -> b (heads dim_head) h w'] with [heads],
    [h] and [w] given. *)
Definition rearrange_from_heads `{Scalar T} (heads h w : nat) (x : tensor T)
  : result (tensor T) :=
  let '(b, hd, n, dim_head) := shape x in
  if decide (hd = heads ∧ n = h * w) then
    Ok (build b (heads * dim_head) h w (fun b c i j =>
          get x b (c `div` dim_head) (i * w + j) (c `mod` dim_head)))
  else Raise EinopsError.

(** Modelled from the spec: [ConvNormAct] of [emov2_basic_modules] (that
    module is not part of the sources at hand), as the attention
    operators instantiate it: kernel size 1, stride 1, no normalisation.
    Such a layer maps the channel vector of every pixel on its own
    (weights, bias, grouping and the elementwise activation are all inside
    [conv_pixel]) and rejects an input whose channel count is not
    [conv_dim_in]. *)
Record ConvNormAct_1x1 (T : Type) : Type := {
  conv_dim_in : nat;
  conv_dim_out : nat;
  conv_pixel : list T → list T;
}.
Arguments conv_dim_in {T} _.
Arguments conv_dim_out {T} _.
Arguments conv_pixel {T} _.

(** Modelled from the spec: [ConvNormAct.forward] for such a layer; the
    output pixel is [conv_pixel] of the input pixel, read at [conv_dim_out]
    channels. *)
Definition ConvNormAct_1x1_forward `{Scalar T} (cv : ConvNormAct_1x1 T)
    (x : tensor T) : result (tensor T) :=
  let '(B, C, H, W) := shape x in
  if decide (C = conv_dim_in cv) then
    Ok (build B (conv_dim_out cv) H W (fun b o h w =>
          default t_zero (conv_pixel cv (tab C (fun c => get x b c h w)) !! o)))
  else Raise RuntimeError.

(** ** The windowed attention operators *)

(** The attributes the three classes [EW_MHSA_Remote], [EW_MHSA_Close]
    and [EW_MHSA_Hybrid] set in [__init__]; their constructors are
    textually the same, so one record serves the three [forward]
    methods, and two operators on one record share their weights. *)
Record EW_MHSA (T : Type) : Type := {
  dim_head : nat;
  window_size : Z;
  num_head : nat;
  scale : T;
  attn_pre : bool;
  qk : ConvNormAct_1x1 T;
  v : ConvNormAct_1x1 T;
}.
Arguments dim_head {T} _.
Arguments window_size {T} _.
Arguments num_head {T} _.
Arguments scale {T} _.
Arguments attn_pre {T} _.
Arguments qk {T} _.
Arguments v {T} _.

(** [__init__]: [scale] stands for [dim_head ** -0.5], and the two pixel
    maps for the learned weights of [self.qk] and [self.v]. *)
Definition EW_MHSA_init {T} (dim_in dim_mid dim_head : nat) (window_size : Z)
    (attn_pre : bool) (scale : T) (qk_pixel v_pixel : list T → list T)
  : result (EW_MHSA T) :=
  num_head ← py_floordiv (Z.of_nat dim_in) (Z.of_nat dim_head);
  Ok {| dim_head := dim_head;
        window_size := window_size;
        num_head := Z.to_nat num_head;
        scale := scale;
        attn_pre := attn_pre;
        qk := {| conv_dim_in := dim_in; conv_dim_out := dim_in * 2;
                 conv_pixel := qk_pixel |};
        v := {| conv_dim_in := dim_in; conv_dim_out := dim_mid;
                conv_pixel := v_pixel |} |}.

(** The local variables of the "padding" paragraph of [forward]. *)
Record padding : Set := {
  window_size_W : Z;
  window_size_H : Z;
  pad_l : Z;
  pad_t : Z;
  pad_r : Z;
  pad_b : Z;
  n1 : Z;
  n2 : Z;
}.

Definition window_padding (window_size : Z) (H W : nat) : result padding :=
  let '(wW, wH) :=
    if decide (window_size ≤ 0)%Z then (Z.of_nat W, Z.of_nat H)
    else (window_size, window_size) in
  r ← py_mod (Z.of_nat W) wW;
  pad_r ← py_mod (wW - r) wW;
  r ← py_mod (Z.of_nat H) wH;
  pad_b ← py_mod (wH - r) wH;
  n1 ← py_floordiv (Z.of_nat H + pad_b) wH;
  n2 ← py_floordiv (Z.of_nat W + pad_r) wW;
  Ok {| window_size_W := wW; window_size_H := wH;
        pad_l := 0; pad_t := 0; pad_r := pad_r; pad_b := pad_b;
        n1 := n1; n2 := n2 |}.

(** The values of that paragraph along one axis of extent [n], in closed
    form: the window extent, the padding and the number of windows. *)
Definition window_of (window_size : Z) (n : nat) : Z :=
  if decide (window_size ≤ 0)%Z then Z.of_nat n else window_size.

Definition pad_of (window_size : Z) (n : nat) : Z :=
  ((window_of window_size n - Z.of_nat n `mod` window_of window_size n)
     `mod` window_of window_size n)%Z.

Definition count_of (window_size : Z) (n : nat) : Z :=
  ((Z.of_nat n + pad_of window_size n) `div` window_of window_size n)%Z.

(** [F.pad(x, (pad_l, pad_r, pad_t, pad_b, 0, 0))] with the values above. *)
Definition pad_input `{Scalar T} (p : padding) (x : tensor T) : tensor T :=
  F_pad x (Z.to_nat (pad_r p)) (Z.to_nat (pad_b p)).

(** The "unpadding" paragraph. *)
Definition unpad `{Scalar T} (p : padding) (H W : nat) (x : tensor T) : tensor T :=
  if bool_decide (pad_r p > 0)%Z || bool_decide (pad_b p > 0)%Z
  then crop x H W else x.

(** From the projected [qk] tile to the attention map: the paragraph the
    three [forward] methods repeat (source lines 72-77, 132-137 and, once
    per branch, 198-206). *)
Definition attention_map `{Scalar T} (m : EW_MHSA T) (qk : tensor T)
  : result (tensor T) :=
  '(q, k) ← rearrange_qk_heads (num_head m) (dim_head m) qk;
  let attn_map := matmul_qkT_scaled q k (scale m) in
  let attn_map := softmax_last attn_map in
  Ok (attn_drop attn_map).

(** Split into heads, apply the attention map, merge the heads: the three
    lines both branches of [if self.attn_pre] repeat, on [x] or on [v]
    (source lines 79-82 and 86-88, and their copies in the other two
    classes). *)
Definition attend `{Scalar T} (m : EW_MHSA T) (h w : nat)
    (attn_map x : tensor T) : result (tensor T) :=
  x ← rearrange_to_heads (num_head m) x;
  let x_spa := matmul attn_map x in
  rearrange_from_heads (num_head m) h w x_spa.

Definition EW_MHSA_Remote_forward `{Scalar T} (m : EW_MHSA T) (x : tensor T)
  : result (tensor T) :=
  let '(B, C, H, W) := shape x in
  p ← window_padding (window_size m) H W;
  let x := pad_input p x in
  let n1 := Z.to_nat (n1 p) in
  let n2 := Z.to_nat (n2 p) in
  x ← rearrange_tile_remote n1 n2 x;
  let '(b, c, h, w) := shape x in
  qk ← ConvNormAct_1x1_forward (qk m) x;
  attn_map ← attention_map m qk;
  x_spa ←
    (if attn_pre m then
       x_spa ← attend m h w attn_map x;
       ConvNormAct_1x1_forward (v m) x_spa
     else
       v ← ConvNormAct_1x1_forward (v m) x;
       attend m h w attn_map v);
  x ← rearrange_untile_remote n1 n2 x_spa;
  Ok (unpad p H W x).

Definition EW_MHSA_Close_forward `{Scalar T} (m : EW_MHSA T) (x : tensor T)
  : result (tensor T) :=
  let '(B, C, H, W) := shape x in
  p ← window_padding (window_size m) H W;
  let x := pad_input p x in
  let n1 := Z.to_nat (n1 p) in
  let n2 := Z.to_nat (n2 p) in
  x ← rearrange_tile_close n1 n2 x;
  let '(b, c, h, w) := shape x in
  qk ← ConvNormAct_1x1_forward (qk m) x;
  attn_map ← attention_map m qk;
  x_spa ←
    (if attn_pre m then
       x_spa ← attend m h w attn_map x;
       ConvNormAct_1x1_forward (v m) x_spa
     else
       v ← ConvNormAct_1x1_forward (v m) x;
       attend m h w attn_map v);
  x ← rearrange_untile_close n1 n2 x_spa;
  Ok (unpad p H W x).

(** The close branch of [EW_MHSA_Hybrid.forward] under [attn_pre]
    (source lines 214-217): the attended close tiles are merged with the
    remote pattern. *)
Definition Hybrid_pre_close_branch `{Scalar T} (m : EW_MHSA T) (n1 n2 h w : nat)
    (attn_map_close x_close : tensor T) : result (tensor T) :=
  x_spa_close ← attend m h w attn_map_close x_close;
  rearrange_untile_remote n1 n2 x_spa_close.

Definition EW_MHSA_Hybrid_forward `{Scalar T} (m : EW_MHSA T) (x : tensor T)
  : result (tensor T) :=
  let '(B, C, H, W) := shape x in
  p ← window_padding (window_size m) H W;
  let x := pad_input p x in
  let n1 := Z.to_nat (n1 p) in
  let n2 := Z.to_nat (n2 p) in
  x_remote ← rearrange_tile_remote n1 n2 x;
  x_close ← rearrange_tile_close n1 n2 x;
  qk ← ConvNormAct_1x1_forward (qk m) x;
  qk_remote ← rearrange_tile_remote n1 n2 qk;
  qk_close ← rearrange_tile_close n1 n2 qk;
  let '(b, c, h, w) := shape x_remote in
  attn_map_remote ← attention_map m qk_remote;
  attn_map_close ← attention_map m qk_close;
  x_spa ←
    (if attn_pre m then
       x_spa_remote ← attend m h w attn_map_remote x_remote;
       x_spa_remote ← rearrange_untile_remote n1 n2 x_spa_remote;
       x_spa_close ← Hybrid_pre_close_branch m n1 n2 h w attn_map_close x_close;
       let x_spa := tensor_add x_spa_remote x_spa_close in
       ConvNormAct_1x1_forward (v m) x_spa
     else
       v ← ConvNormAct_1x1_forward (v m) x;
       v_remote ← rearrange_tile_remote n1 n2 v;
       v_close ← rearrange_tile_close n1 n2 v;
       x_spa_remote ← attend m h w attn_map_remote v_remote;
       x_spa_remote ← rearrange_untile_remote n1 n2 x_spa_remote;
       x_spa_close ← attend m h w attn_map_close v_close;
       x_spa_close ← rearrange_untile_close n1 n2 x_spa_close;
       Ok (tensor_add x_spa_remote x_spa_close));
  Ok (unpad p H W x_spa).

(** Attention over all positions of the input as a single window: no
    padding, no tiling. For comparison with the operators when the
    configured window size is not positive. *)
Definition EW_MHSA_global_forward `{Scalar T} (m : EW_MHSA T) (x : tensor T)
  : result (tensor T) :=
  let '(B, C, H, W) := shape x in
  qk ← ConvNormAct_1x1_forward (qk m) x;
  attn_map ← attention_map m qk;
  if attn_pre m then
    x_spa ← attend m H W attn_map x;
    ConvNormAct_1x1_forward (v m) x_spa
  else
    v ← ConvNormAct_1x1_forward (v m) x;
    attend m H W attn_map v.

(** The same for the hybrid operator, whose two branches then coincide. *)
Definition EW_MHSA_Hybrid_global_forward `{Scalar T} (m : EW_MHSA T) (x : tensor T)
  : result (tensor T) :=
  let '(B, C, H, W) := shape x in
  qk ← ConvNormAct_1x1_forward (qk m) x;
  attn_map ← attention_map m qk;
  if attn_pre m then
    x_spa ← attend m H W attn_map x;
    ConvNormAct_1x1_forward (v m) (tensor_add x_spa x_spa)
  else
    v ← ConvNormAct_1x1_forward (v m) x;
    x_spa ← attend m H W attn_map v;
    Ok (tensor_add x_spa x_spa).

(** ** Layers, blocks and the model at the level of shapes *)

Inductive norm_kind : Set := BatchNorm2d | LayerNorm2d | NormIdentity.
Inductive act_kind : Set := SiLU | GELU | ReLU | ActIdentity.

(** Modelled from the spec: [get_norm] of [emov2_basic_modules] (not
    part of the sources at hand). The factory resolves the tags
    [bn_2d], [ln_2d] and [none]; an unresolvable tag is a fatal
    configuration error. *)
Definition get_norm (norm_layer : string) : result norm_kind :=
  if decide (norm_layer = "bn_2d") then Ok BatchNorm2d
  else if decide (norm_layer = "ln_2d") then Ok LayerNorm2d
  else if decide (norm_layer = "none") then Ok NormIdentity
  else Raise KeyError.

(** Modelled from the spec: [get_act] of [emov2_basic_modules] (not part
    of the sources at hand), resolving [silu], [gelu], [relu] and
    [none]. *)
Definition get_act (act_layer : string) : result act_kind :=
  if decide (act_layer = "silu") then Ok SiLU
  else if decide (act_layer = "gelu") then Ok GELU
  else if decide (act_layer = "relu") then Ok ReLU
  else if decide (act_layer = "none") then Ok ActIdentity
  else Raise KeyError.

Definition shape4 : Set := nat * nat * nat * nat.

(** Modelled from the spec: a [ConvNormAct] of [emov2_basic_modules] (not
    part of the sources at hand) as its constructor leaves it: the
    arguments, and the two tags resolved. *)
Record ConvNormAct : Set := {
  cna_dim_in : nat;
  cna_dim_out : nat;
  cna_kernel_size : Z;
  cna_stride : nat;
  cna_groups : nat;
  cna_norm : norm_kind;
  cna_act : act_kind;
}.

(** Modelled from the spec: the constructor of [ConvNormAct]; it resolves
    the two tags through the factory, and an unresolvable tag is fatal. *)
Definition ConvNormAct_init (dim_in dim_out : nat) (kernel_size : Z)
    (stride groups : nat) (norm_layer act_layer : string) : result ConvNormAct :=
  norm ← get_norm norm_layer;
  act ← get_act act_layer;
  Ok {| cna_dim_in := dim_in; cna_dim_out := dim_out;
        cna_kernel_size := kernel_size; cna_stride := stride;
        cna_groups := groups; cna_norm := norm; cna_act := act |}.

(** What [__init__] of the attention classes fixes, without the
    weights: the attributes, and the channel counts of the two
    projections. *)
Record EW_MHSA_cfg : Set := {
  a_dim_head : nat;
  a_window_size : Z;
  a_num_head : nat;
  a_attn_pre : bool;
  a_qk : nat * nat;
  a_v : nat * nat;
}.

Definition EW_MHSA_cfg_init (dim_in dim_mid : nat) (act_layer : string)
    (dim_head : nat) (window_size : Z) (attn_pre : bool) : result EW_MHSA_cfg :=
  num_head ← py_floordiv (Z.of_nat dim_in) (Z.of_nat dim_head);
  qk ← ConvNormAct_init dim_in (dim_in * 2) 1 1 1 "none" "none";
  v ← ConvNormAct_init dim_in dim_mid 1 1 1 "none" act_layer;
  Ok {| a_dim_head := dim_head; a_window_size := window_size;
        a_num_head := Z.to_nat num_head; a_attn_pre := attn_pre;
        a_qk := (cna_dim_in qk, cna_dim_out qk);
        a_v := (cna_dim_in v, cna_dim_out v) |}.

Definition cfg_of {T} (m : EW_MHSA T) : EW_MHSA_cfg :=
  {| a_dim_head := dim_head m; a_window_size := window_size m;
     a_num_head := num_head m; a_attn_pre := attn_pre m;
     a_qk := (conv_dim_in (qk m), conv_dim_out (qk m));
     a_v := (conv_dim_in (v m), conv_dim_out (v m)) |}.

(** The shape each tensor operation returns, and when it raises. *)

Definition pad_shape (p : padding) (s : shape4) : shape4 :=
  let '(B, C, H, W) := s in (B, C, H + Z.to_nat (pad_b p), W + Z.to_nat (pad_r p)).

Definition unpad_shape (p : padding) (H W : nat) (s : shape4) : shape4 :=
  let '(B, C, Hx, Wx) := s in
  if bool_decide (pad_r p > 0)%Z || bool_decide (pad_b p > 0)%Z
  then (B, C, H `min` Hx, W `min` Wx) else s.

Definition tile_shape (n1 n2 : nat) (s : shape4) : result shape4 :=
  let '(b, c, Hp, Wp) := s in
  h1 ← einops_infer Hp n1;
  w1 ← einops_infer Wp n2;
  Ok (b * n1 * n2, c, h1, w1).

Definition untile_remote_shape (n1 n2 : nat) (s : shape4) : result shape4 :=
  let '(bn, c, h1, w1) := s in
  b ← einops_infer bn (n1 * n2);
  Ok (b, c, h1 * n1, w1 * n2).

Definition untile_close_shape (n1 n2 : nat) (s : shape4) : result shape4 :=
  let '(bn, c, h1, w1) := s in
  b ← einops_infer bn (n1 * n2);
  Ok (b, c, n1 * h1, n2 * w1).

Definition conv_1x1_shape (dims : nat * nat) (s : shape4) : result shape4 :=
  let '(B, C, H, W) := s in
  if decide (C = dims.1) then Ok (B, dims.2, H, W) else Raise RuntimeError.

Definition attention_map_shape (a : EW_MHSA_cfg) (qk : shape4) : result shape4 :=
  let '(b, c, h, w) := qk in
  if decide (c = 2 * a_num_head a * a_dim_head a)
  then Ok (b, a_num_head a, h * w, h * w) else Raise EinopsError.

Definition attend_shape (a : EW_MHSA_cfg) (h w : nat) (attn_map x : shape4)
  : result shape4 :=
  let '(_, c, _, _) := x in
  dim_head ← einops_infer c (a_num_head a);
  let '(b, hd, n, _) := attn_map in
  if decide (hd = a_num_head a ∧ n = h * w)
  then Ok (b, a_num_head a * dim_head, h, w) else Raise EinopsError.

(** The attention operators on shapes, line by line as the [forward]
    methods above, with the checks that make them raise. *)

Definition EW_MHSA_Remote_forward_shape (a : EW_MHSA_cfg) (x : shape4)
  : result shape4 :=
  let '(B, C, H, W) := x in
  p ← window_padding (a_window_size a) H W;
  let x := pad_shape p x in
  let n1 := Z.to_nat (n1 p) in
  let n2 := Z.to_nat (n2 p) in
  x ← tile_shape n1 n2 x;
  let '(b, c, h, w) := x in
  qk ← conv_1x1_shape (a_qk a) x;
  attn_map ← attention_map_shape a qk;
  x_spa ←
    (if a_attn_pre a then
       x_spa ← attend_shape a h w attn_map x;
       conv_1x1_shape (a_v a) x_spa
     else
       v ← conv_1x1_shape (a_v a) x;
       attend_shape a h w attn_map v);
  x ← untile_remote_shape n1 n2 x_spa;
  Ok (unpad_shape p H W x).

Definition EW_MHSA_Close_forward_shape (a : EW_MHSA_cfg) (x : shape4)
  : result shape4 :=
  let '(B, C, H, W) := x in
  p ← window_padding (a_window_size a) H W;
  let x := pad_shape p x in
  let n1 := Z.to_nat (n1 p) in
  let n2 := Z.to_nat (n2 p) in
  x ← tile_shape n1 n2 x;
  let '(b, c, h, w) := x in
  qk ← conv_1x1_shape (a_qk a) x;
  attn_map ← attention_map_shape a qk;
  x_spa ←
    (if a_attn_pre a then
       x_spa ← attend_shape a h w attn_map x;
       conv_1x1_shape (a_v a) x_spa
     else
       v ← conv_1x1_shape (a_v a) x;
       attend_shape a h w attn_map v);
  x ← untile_close_shape n1 n2 x_spa;
  Ok (unpad_shape p H W x).

Definition EW_MHSA_Hybrid_forward_shape (a : EW_MHSA_cfg) (x : shape4)
  : result shape4 :=
  let '(B, C, H, W) := x in
  p ← window_padding (a_window_size a) H W;
  let x := pad_shape p x in
  let n1 := Z.to_nat (n1 p) in
  let n2 := Z.to_nat (n2 p) in
  x_remote ← tile_shape n1 n2 x;
  x_close ← tile_shape n1 n2 x;
  qk ← conv_1x1_shape (a_qk a) x;
  qk_remote ← tile_shape n1 n2 qk;
  qk_close ← tile_shape n1 n2 qk;
  let '(b, c, h, w) := x_remote in
  attn_map_remote ← attention_map_shape a qk_remote;
  attn_map_close ← attention_map_shape a qk_close;
  x_spa ←
    (if a_attn_pre a then
       x_spa_remote ← attend_shape a h w attn_map_remote x_remote;
       x_spa_remote ← untile_remote_shape n1 n2 x_spa_remote;
       x_spa_close ← attend_shape a h w attn_map_close x_close;
       x_spa_close ← untile_remote_shape n1 n2 x_spa_close;
       let x_spa := x_spa_remote in
       conv_1x1_shape (a_v a) x_spa
     else
       v ← conv_1x1_shape (a_v a) x;
       v_remote ← tile_shape n1 n2 v;
       v_close ← tile_shape n1 n2 v;
       x_spa_remote ← attend_shape a h w attn_map_remote v_remote;
       x_spa_remote ← untile_remote_shape n1 n2 x_spa_remote;
       x_spa_close ← attend_shape a h w attn_map_close v_close;
       x_spa_close ← untile_close_shape n1 n2 x_spa_close;
       Ok x_spa_remote);
  Ok (unpad_shape p H W x_spa).

(** The channel counts under which an attention operator accepts an input
    of [C] channels. *)
Definition channels_fit (a : EW_MHSA_cfg) (C : nat) : Prop :=
  (a_qk a).1 = C ∧ (a_qk a).2 = 2 * a_num_head a * a_dim_head a
  ∧ (a_v a).1 = C ∧ 0 < a_num_head a
  ∧ (if a_attn_pre a then C else (a_v a).2) `mod` a_num_head a = 0.

(** Broadcasting of two shapes in an elementwise [+]. *)
Definition broadcast_dim (a b : nat) : result nat :=
  if decide (a = b) then Ok a
  else if decide (a = 1) then Ok b
  else if decide (b = 1) then Ok a
  else Raise RuntimeError.

Definition broadcast (s t : shape4) : result shape4 :=
  let '(a1, a2, a3, a4) := s in
  let '(b1, b2, b3, b4) := t in
  d1 ← broadcast_dim a1 b1;
  d2 ← broadcast_dim a2 b2;
  d3 ← broadcast_dim a3 b3;
  d4 ← broadcast_dim a4 b4;
  Ok (d1, d2, d3, d4).

(** [sum(xs)] on a non-empty list of tensors: [0 + xs[0] + xs[1] + ...]. *)
Fixpoint sum_shapes (acc : shape4) (xs : list shape4) : result shape4 :=
  match xs with
  | [] => Ok acc
  | x :: xs => acc ← broadcast acc x; sum_shapes acc xs
  end.

Fixpoint mapM_result {A B} (f : A → result B) (l : list A) : result (list B) :=
  match l with
  | [] => Ok []
  | a :: l => b ← f a; bs ← mapM_result f l; Ok (b :: bs)
  end.

Fixpoint foldM_result {A B} (f : B → A → result B) (l : list A) (b : B) : result B :=
  match l with
  | [] => Ok b
  | a :: l => b ← f b a; foldM_result f l b
  end.

(** [int(dim_in * exp_ratio)], the ratio read as an exact fraction. *)
Definition int_mul (dim_in : nat) (exp_ratio : Q) : nat :=
  Z.to_nat (Z.quot (Z.of_nat dim_in * Qnum exp_ratio) (Zpos (Qden exp_ratio))).

Inductive eop : Set :=
  | Eop_Conv (net : ConvNormAct)
  | Eop_Remote (a : EW_MHSA_cfg)
  | Eop_Close (a : EW_MHSA_cfg)
  | Eop_Hybrid (a : EW_MHSA_cfg).

Record iiRMB : Set := {
  norm : norm_kind;
  has_skip : bool;
  hybrid_eops : list Z;
  eops : list eop;
  conv_local : option ConvNormAct;
  proj : ConvNormAct;
}.

(** The arguments of [iiRMB.__init__] that decide structure and shapes.
    The dropout rates, [qkv_bias] and [ls_value] do not; [v_group] only
    groups the weights of the value projection. *)
Record iiRMB_args : Set := {
  arg_dim_in : nat;
  arg_dim_out : nat;
  arg_norm_in : bool;
  arg_has_skip : bool;
  arg_exp_ratio : Q;
  arg_norm_layer : string;
  arg_act_layer : string;
  arg_dw_ks : Z;
  arg_stride : nat;
  arg_dim_head : nat;
  arg_window_size : Z;
  arg_hybrid_eops : list Z;
  arg_conv_ks : Z;
  arg_conv_groups : nat;
  arg_attn_pre : bool;
}.

(** The defaults of the signature of [iiRMB.__init__]. *)
Definition iiRMB_default_args (dim_in dim_out : nat) (hybrid_eops : list Z)
  : iiRMB_args :=
  {| arg_dim_in := dim_in; arg_dim_out := dim_out; arg_norm_in := true;
     arg_has_skip := true; arg_exp_ratio := 1%Q; arg_norm_layer := "bn_2d";
     arg_act_layer := "relu"; arg_dw_ks := 3; arg_stride := 1;
     arg_dim_head := 64; arg_window_size := 7;
     arg_hybrid_eops := hybrid_eops; arg_conv_ks := 1; arg_conv_groups := 1;
     arg_attn_pre := false |}.

(** The same arguments with another tag list. *)
Definition with_hybrid_eops (a : iiRMB_args) (tags : list Z) : iiRMB_args :=
  {| arg_dim_in := arg_dim_in a; arg_dim_out := arg_dim_out a;
     arg_norm_in := arg_norm_in a; arg_has_skip := arg_has_skip a;
     arg_exp_ratio := arg_exp_ratio a; arg_norm_layer := arg_norm_layer a;
     arg_act_layer := arg_act_layer a; arg_dw_ks := arg_dw_ks a;
     arg_stride := arg_stride a; arg_dim_head := arg_dim_head a;
     arg_window_size := arg_window_size a; arg_hybrid_eops := tags;
     arg_conv_ks := arg_conv_ks a; arg_conv_groups := arg_conv_groups a;
     arg_attn_pre := arg_attn_pre a |}.

(** The known operator tags. *)
Definition known_tag (eop_idx : Z) : bool :=
  bool_decide (eop_idx = 0 ∨ eop_idx = 1 ∨ eop_idx = 2 ∨ eop_idx = 3)%Z.

(** The body of the loop [for eop_idx in self.hybrid_eops]: the operator
    for one tag, or [None] for a tag that is none of 0, 1, 2, 3. *)
Definition make_eop (a : iiRMB_args) (dim_mid : nat) (eop_idx : Z)
  : result (option eop) :=
  let attn :=
    EW_MHSA_cfg_init (arg_dim_in a) dim_mid (arg_act_layer a) (arg_dim_head a)
      (arg_window_size a) (arg_attn_pre a) in
  if decide (eop_idx = 0)%Z then
    net ← ConvNormAct_init (arg_dim_in a) dim_mid (arg_conv_ks a) 1
             (arg_conv_groups a) "none" (arg_act_layer a);
    Ok (Some (Eop_Conv net))
  else if decide (eop_idx = 1)%Z then m ← attn; Ok (Some (Eop_Remote m))
  else if decide (eop_idx = 2)%Z then m ← attn; Ok (Some (Eop_Close m))
  else if decide (eop_idx = 3)%Z then m ← attn; Ok (Some (Eop_Hybrid m))
  else Ok None.

(** The loop itself: [if eop: eops.append(eop)]. *)
Fixpoint make_eops (a : iiRMB_args) (dim_mid : nat) (tags : list Z)
  : result (list eop) :=
  match tags with
  | [] => Ok []
  | eop_idx :: tags =>
    eop ← make_eop a dim_mid eop_idx;
    rest ← make_eops a dim_mid tags;
    Ok (match eop with Some e => e :: rest | None => rest end)
  end.

Definition iiRMB_init (a : iiRMB_args) : result iiRMB :=
  norm ← (if arg_norm_in a then get_norm (arg_norm_layer a) else Ok NormIdentity);
  let dim_mid := int_mul (arg_dim_in a) (arg_exp_ratio a) in
  let has_skip :=
    (bool_decide (arg_dim_in a = arg_dim_out a) && bool_decide (arg_stride a = 1))
    && arg_has_skip a in
  eops ← make_eops a dim_mid (arg_hybrid_eops a);
  conv_local ←
    (if decide (arg_dw_ks a > 0)%Z then
       c ← ConvNormAct_init dim_mid dim_mid (arg_dw_ks a) (arg_stride a) dim_mid
             "bn_2d" "silu";
       Ok (Some c)
     else Ok None);
  proj ← ConvNormAct_init dim_mid (arg_dim_out a) 1 1 1 "none" "none";
  Ok {| norm := norm; has_skip := has_skip; hybrid_eops := arg_hybrid_eops a;
        eops := eops; conv_local := conv_local; proj := proj |}.

(** A block without its stored tag list. *)
Definition block_structure (blk : iiRMB)
  : norm_kind * bool * list eop * option ConvNormAct * ConvNormAct :=
  (norm blk, has_skip blk, eops blk, conv_local blk, proj blk).

(** The kernel sizes for which the spec's spatial rule is assumed: the
    odd ones (the model uses 1, 3 and 5). *)
Definition odd_kernel (k : Z) : Prop := (0 < k)%Z ∧ Z.odd k = true.

(** The spatial rule the spec gives for [ConvNormAct] (at an odd kernel,
    stride 1 keeps the size and stride 2 halves an even size), completed
    by [cs] where the spec is silent. *)
Definition spec_conv_out_size (cs : Z → nat → nat → nat) (k : Z) (s n : nat) : nat :=
  if decide (odd_kernel k) then
    if decide (s = 1) then n
    else if decide (s = 2 ∧ Nat.even n = true) then n `div` 2
    else cs k s n
  else cs k s n.

Section Shapes.

(** Modelled from the spec: the spatial size a [ConvNormAct] (not part of
    the sources at hand) produces from kernel size, stride and input
    size. It is left open here; the statements that need it assume only
    what the spec says of it, and only at odd kernel sizes: stride 1
    keeps the size, stride 2 halves an even size. *)
Variable conv_out_size : Z → nat → nat → nat.

(** Modelled from the spec: the shape [ConvNormAct.forward] returns:
    [dim_out] channels, each spatial size by the rule above; an input of
    another channel count than [dim_in] is rejected. *)
Definition ConvNormAct_forward_shape (c : ConvNormAct) (s : shape4) : result shape4 :=
  let '(B, C, H, W) := s in
  if decide (C = cna_dim_in c) then
    Ok (B, cna_dim_out c,
        conv_out_size (cna_kernel_size c) (cna_stride c) H,
        conv_out_size (cna_kernel_size c) (cna_stride c) W)
  else Raise RuntimeError.

Definition eop_forward_shape (e : eop) (s : shape4) : result shape4 :=
  match e with
  | Eop_Conv net => ConvNormAct_forward_shape net s
  | Eop_Remote a => EW_MHSA_Remote_forward_shape a s
  | Eop_Close a => EW_MHSA_Close_forward_shape a s
  | Eop_Hybrid a => EW_MHSA_Hybrid_forward_shape a s
  end.

(** [iiRMB.forward] on shapes. The normalisation, the dropouts, the layer
    scale and the drop path keep the shape; in [sum(xs)] the list [xs] has
    the length of [eops], more than 1. *)
Definition iiRMB_forward_shape (blk : iiRMB) (x : shape4) : result shape4 :=
  let shortcut := x in
  xs ← mapM_result (fun eop => eop_forward_shape eop x) (eops blk);
  x ←
    (if bool_decide (1 < length (eops blk)) then
       match xs with
       | [] => Raise IndexError
       | x0 :: xs => sum_shapes x0 xs
       end
     else py_getitem xs 0);
  x_l ←
    match conv_local blk with
    | Some c => ConvNormAct_forward_shape c x
    | None => Ok x
    end;
  x ← (if has_skip blk then broadcast x x_l else Ok x_l);
  x ← ConvNormAct_forward_shape (proj blk) x;
  if has_skip blk then broadcast shortcut x else Ok x.

End Shapes.

(** [get_stem] *)
Definition get_stem (dim_in dim_mid : nat) : result (list ConvNormAct) :=
  c1 ← ConvNormAct_init dim_in dim_mid 3 2 1 "bn_2d" "silu";
  c2 ← ConvNormAct_init dim_mid dim_mid 3 1 dim_mid "bn_2d" "silu";
  c3 ← ConvNormAct_init dim_mid dim_mid 1 1 1 "none" "none";
  Ok [c1; c2; c3].

(** The arguments of [EMO2.__init__] that decide structure and shapes. *)
Record EMO2_args : Set := {
  e_dim_in : nat;
  e_num_classes : Z;
  e_img_size : nat;
  e_depths : list nat;
  e_embed_dims : list nat;
  e_exp_ratios : list Q;
  e_norm_layers : list string;
  e_act_layers : list string;
  e_dw_kss : list Z;
  e_dim_heads : list nat;
  e_window_sizes : list Z;
  e_hybrid_eopss : list (list Z);
  e_conv_kss : list Z;
  e_conv_groupss : list nat;
  e_attn_pre : bool;
  e_out_indices : list Z;
}.

(** The defaults of the signature, [out_indices] left to the caller. *)
Definition EMO2_default_args (out_indices : list Z) : EMO2_args :=
  {| e_dim_in := 3; e_num_classes := 1000; e_img_size := 224;
     e_depths := [1; 2; 4; 2];
     e_embed_dims := [64; 128; 256; 512];
     e_exp_ratios := [4%Q; 4%Q; 4%Q; 4%Q];
     e_norm_layers := ["bn_2d"; "bn_2d"; "ln_2d"; "ln_2d"];
     e_act_layers := ["silu"; "silu"; "gelu"; "gelu"];
     e_dw_kss := [3; 3; 5; 5]%Z;
     e_dim_heads := [32; 32; 32; 32];
     e_window_sizes := [7; 7; 7; 7]%Z;
     e_hybrid_eopss := [[0]; [0]; [1]; [1]]%Z;
     e_conv_kss := [1; 1; 1; 1]%Z;
     e_conv_groupss := [1; 1; 1; 1];
     e_attn_pre := false;
     e_out_indices := out_indices |}.

Definition idx {A} (l : list A) (i : nat) : result A := py_getitem l (Z.of_nat i).

(** The arguments of the [j]-th block of stage [i + 1]: the [if j == 0]
    statement, then the argument list of the call [iiRMB(...)]. *)
Definition block_args (a : EMO2_args) (i j : nat) (emb_dim_pre : nat)
  : result iiRMB_args :=
  '(stride, has_skip, hybrid_eops, exp_ratio, conv_ks, conv_groups, dw_ks) ←
    (if decide (j = 0) then
       exp_ratio ← idx (e_exp_ratios a) i;
       dw_ks ← idx (e_dw_kss a) i;
       Ok (2, false, [0%Z], (exp_ratio * 2)%Q, 1%Z, 1,
           if decide (dw_ks > 0)%Z then dw_ks else 5%Z)
     else
       hybrid_eops ← idx (e_hybrid_eopss a) i;
       exp_ratio ← idx (e_exp_ratios a) i;
       conv_ks ← idx (e_conv_kss a) i;
       conv_groups ← idx (e_conv_groupss a) i;
       dw_ks ← idx (e_dw_kss a) i;
       Ok (1, true, hybrid_eops, exp_ratio, conv_ks, conv_groups, dw_ks));
  embed_dim ← idx (e_embed_dims a) i;
  norm_layer ← idx (e_norm_layers a) i;
  act_layer ← idx (e_act_layers a) i;
  dim_head ← idx (e_dim_heads a) i;
  window_size ← idx (e_window_sizes a) i;
  Ok {| arg_dim_in := emb_dim_pre; arg_dim_out := embed_dim;
        arg_norm_in := true; arg_has_skip := has_skip;
        arg_exp_ratio := exp_ratio; arg_norm_layer := norm_layer;
        arg_act_layer := act_layer; arg_dw_ks := dw_ks; arg_stride := stride;
        arg_dim_head := dim_head; arg_window_size := window_size;
        arg_hybrid_eops := hybrid_eops; arg_conv_ks := conv_ks;
        arg_conv_groups := conv_groups; arg_attn_pre := e_attn_pre a |}.

(** The inner loop [for j in range(depths[i])]; it returns the layers and
    the running [emb_dim_pre]. *)
Definition build_stage (a : EMO2_args) (i depth emb_dim_pre : nat)
  : result (list iiRMB * nat) :=
  foldM_result (fun '(layers, emb_dim_pre) j =>
           args ← block_args a i j emb_dim_pre;
           blk ← iiRMB_init args;
           embed_dim ← idx (e_embed_dims a) i;
           Ok (layers ++ [blk], embed_dim))
        (seq 0 depth) ([], emb_dim_pre).

Record EMO2 : Set := {
  out_indices : list Z;
  stage0 : list ConvNormAct;
  stages : list (list iiRMB);
}.

(** [EMO2.__init__] up to the stages; [stages m !! i] is the attribute
    [stage{i+1}]. The drop-path rates [dprs] and the unused [fea_size] do
    not enter the structure; the three calls that end the constructor
    ([_init_weights], [_sync_bn], [_freeze_stages]) act on the weights and
    the modes, which the later sections model. *)
Definition EMO2_init (a : EMO2_args) : result EMO2 :=
  if decide (e_num_classes a > 0)%Z then
    d0 ← idx (e_embed_dims a) 0;
    let emb_dim_pre := d0 `div` 2 in
    stage0 ← get_stem (e_dim_in a) emb_dim_pre;
    '(stages, _) ←
      foldM_result (fun '(stages, emb_dim_pre) i =>
               depth ← idx (e_depths a) i;
               '(layers, emb_dim_pre) ← build_stage a i depth emb_dim_pre;
               Ok (stages ++ [layers], emb_dim_pre))
            (seq 0 (length (e_depths a))) ([], emb_dim_pre);
    Ok {| out_indices := e_out_indices a; stage0 := stage0; stages := stages |}
  else Raise AssertionError.

Section Forward.

Variable conv_out_size : Z → nat → nat → nat.

(** [for blk in self.stage_k: x = blk(x)] for a stage of blocks. *)
Definition run_stage (blks : list iiRMB) (x : shape4) : result shape4 :=
  foldM_result (fun x blk => iiRMB_forward_shape conv_out_size blk x) blks x.

(** [self.stage_k]; the attribute is missing when [depths] was short. *)
Definition getattr_stage (m : EMO2) (k : nat) : result (list iiRMB) :=
  match stages m !! (k - 1) with
  | Some blks => Ok blks
  | None => Raise AttributeError
  end.

(** [EMO2.forward] on shapes. *)
Definition EMO2_forward_shape (m : EMO2) (x : shape4) : result (list shape4) :=
  let out := [] in
  x ← foldM_result (fun x blk => ConvNormAct_forward_shape conv_out_size blk x) (stage0 m) x;
  let out := out ++ [x] in
  blks ← getattr_stage m 1;
  x ← run_stage blks x;
  let out := out ++ [x] in
  blks ← getattr_stage m 2;
  x ← run_stage blks x;
  let out := out ++ [x] in
  blks ← getattr_stage m 3;
  x ← run_stage blks x;
  let out := out ++ [x] in
  blks ← getattr_stage m 4;
  x ← run_stage blks x;
  let out := out ++ [x] in
  mapM_result (fun i => py_getitem out i) (out_indices m).

End Forward.

(** ** Checkpoint loading: [EMO2._init_weights] *)

(** What the loader looks at in a tensor of a state dict: its shape, and
    its entries in storage order. *)
Record array : Set := {
  arr_shape : list nat;
  arr_data : list Z;
}.

(** The loop [for k, v in state_dict.items(): if k in self_state_dict.keys():
    self_state_dict.update({k: v})]. *)
Definition update_matching (self_state_dict : gmap string array)
    (items : list (string * array)) : gmap string array :=
  foldl (fun sd '(k, v) =>
           if decide (is_Some (sd !! k)) then <[k := v]> sd else sd)
        self_state_dict items.

(** The entry of [sd] under the name [k], if any, has the shape of the
    parameter [p]. *)
Definition shape_matches (sd : gmap string array) (k : string) (p : array) : bool :=
  match sd !! k with
  | Some t => bool_decide (arr_shape t = arr_shape p)
  | None => true
  end.

(** [torch.nn.Module.load_state_dict(sd, strict=True)] on a module whose
    parameters and buffers are [params]: an entry of the right name and
    shape is copied into its parameter; a missing name, an unexpected
    name or a shape that differs from the parameter's is recorded as an
    error, and any recorded error makes the call raise [RuntimeError]
    (after the copies). *)
Definition load_state_dict (params sd : gmap string array)
  : gmap string array * result unit :=
  let copied :=
    map_imap (fun k p =>
                match sd !! k with
                | Some t => if shape_matches sd k p then Some t else Some p
                | None => Some p
                end) params in
  let sizes_match :=
    bool_decide (map_Forall (fun k p => shape_matches sd k p = true) params) in
  let names_match := bool_decide (dom params = dom sd) in
  (copied, if sizes_match && names_match then Ok () else Raise RuntimeError).

(** [_init_weights]: [pretrained] is the mapping [torch.load] returned, or
    [None]. Without a checkpoint the loop visits parameters, none of which
    is an [nn.Linear] or [nn.LayerNorm] module, and changes nothing. *)
Definition _init_weights (params : gmap string array)
    (pretrained : option (gmap string array))
  : gmap string array * result unit :=
  match pretrained with
  | None => (params, Ok ())
  | Some state_dict =>
    let self_state_dict := params in
    let self_state_dict := update_matching self_state_dict (map_to_list state_dict) in
    load_state_dict params self_state_dict
  end.

(** The policy in the words of the spec, for comparison: keep the
    destination entry unless the source has an identically named,
    identically shaped entry; never fail. *)
Definition merge_policy_spec (params state_dict : gmap string array)
  : gmap string array * result unit :=
  (map_imap (fun k p =>
               match state_dict !! k with
               | Some t => if decide (arr_shape t = arr_shape p) then Some t else Some p
               | None => Some p
               end) params,
   Ok ()).

(** Every source entry whose name is a parameter's has that parameter's
    shape. *)
Definition shapes_agree (params sd : gmap string array) : Prop :=
  ∀ k p t, params !! k = Some p → sd !! k = Some t → arr_shape t = arr_shape p.

(** ** Freezing and the train-mode toggle *)

Inductive layer_kind : Set :=
  | BatchNorm     (* an instance of [_BatchNorm] *)
  | LayerNorm
  | OtherLayer.

Record param : Set := {
  p_name : string;
  requires_grad : bool;
}.

(** An [nn.Module]: its kind, its [training] flag, its own parameters and
    its child modules. *)
#[warnings="-register-all"] Inductive module : Set :=
  | Module (kind : layer_kind) (training : bool) (own : list param)
      (children : list module).

Definition kind (m : module) : layer_kind := let 'Module k _ _ _ := m in k.
Definition training (m : module) : bool := let 'Module _ t _ _ := m in t.
Definition own (m : module) : list param := let 'Module _ _ ps _ := m in ps.
Definition children (m : module) : list module := let 'Module _ _ _ cs := m in cs.

Definition is_norm (k : layer_kind) : bool :=
  match k with
  | BatchNorm | LayerNorm => true
  | OtherLayer => false
  end.

(** [m.modules()]: the module itself, then its descendants. *)
Fixpoint modules (m : module) : list module :=
  let 'Module _ _ _ cs := m in m :: concat (map modules cs).

(** [m.parameters()] *)
Fixpoint parameters (m : module) : list param :=
  let 'Module _ _ ps cs := m in ps ++ concat (map parameters cs).

(** [nn.Module.train(mode)]; [eval()] is [train(False)]. *)
Fixpoint Module_train (mode : bool) (m : module) : module :=
  let 'Module k _ ps cs := m in Module k mode ps (map (Module_train mode) cs).

Definition Module_eval : module → module := Module_train false.

(** [for param in m.parameters(): param.requires_grad = False] *)
Fixpoint freeze_parameters (m : module) : module :=
  let 'Module k t ps cs := m in
  Module k t ((fun p => {| p_name := p_name p; requires_grad := false |}) <$> ps)
    (map freeze_parameters cs).

(** [for m in self.modules(): if isinstance(m, _BatchNorm): m.eval()] *)
Fixpoint eval_batchnorms (m : module) : module :=
  let 'Module k t ps cs := m in
  match k with
  | BatchNorm => Module_eval m
  | _ => Module k t ps (map eval_batchnorms cs)
  end.

(** The part of an [EMO2] object the mode methods read and write;
    [stage_modules !! i] is the attribute [stage{i}]. *)
Record EMO2_modes : Set := {
  self_training : bool;
  stage_modules : list module;
  frozen_stages : Z;
  norm_eval : bool;
}.

Definition with_stages (s : EMO2_modes) (sts : list module) : EMO2_modes :=
  {| self_training := self_training s; stage_modules := sts;
     frozen_stages := frozen_stages s; norm_eval := norm_eval s |}.

(** The loop of [_freeze_stages] over the indices still to visit; the
    state reached is returned also when [getattr] raises. *)
Fixpoint freeze_loop (todo : list nat) (s : EMO2_modes) : EMO2_modes * result unit :=
  match todo with
  | [] => (s, Ok ())
  | i :: todo =>
    match stage_modules s !! i with
    | None => (s, Raise AttributeError)
    | Some m =>
      let m := Module_eval m in
      let m := freeze_parameters m in
      freeze_loop todo (with_stages s (<[i := m]> (stage_modules s)))
    end
  end.

(** [range(0, self.frozen_stages + 1)] *)
Definition frozen_range (s : EMO2_modes) : list nat :=
  seq 0 (Z.to_nat (frozen_stages s + 1)).

Definition _freeze_stages (s : EMO2_modes) : EMO2_modes * result unit :=
  freeze_loop (frozen_range s) s.

(** [super(EMO2, self).train(mode)] *)
Definition super_train (mode : bool) (s : EMO2_modes) : EMO2_modes :=
  {| self_training := mode;
     stage_modules := Module_train mode <$> stage_modules s;
     frozen_stages := frozen_stages s; norm_eval := norm_eval s |}.

(** [EMO2.train(mode)] *)
Definition train (mode : bool) (s : EMO2_modes) : EMO2_modes * result unit :=
  let s := super_train mode s in
  let '(s, r) := _freeze_stages s in
  match r with
  | Raise e => (s, Raise e)
  | Ok _ =>
    if mode && norm_eval s
    then (with_stages s (eval_batchnorms <$> stage_modules s), Ok ())
    else (s, Ok ())
  end.

(** A run of calls [train(mode)], stopping at the first that raises. *)
Fixpoint train_all (modes : list bool) (s : EMO2_modes) : EMO2_modes * result unit :=
  match modes with
  | [] => (s, Ok ())
  | mode :: modes =>
    let '(s, r) := train mode s in
    match r with
    | Raise e => (s, Raise e)
    | Ok _ => train_all modes s
    end
  end.

(** Every parameter of the module has gradient tracking disabled. *)
Definition params_frozen (m : module) : Prop :=
  ∀ p, p ∈ parameters m → requires_grad p = false.

(** Every normalisation layer of the module is in evaluation mode. *)
Definition norms_in_eval (m : module) : Prop :=
  ∀ x, x ∈ modules m → is_norm (kind x) = true → training x = false.

(** Stages [0 .. frozen_stages] exist and are frozen. *)
Definition stages_frozen (s : EMO2_modes) : Prop :=
  ∀ i, (Z.of_nat i ≤ frozen_stages s)%Z →
    ∃ m, stage_modules s !! i = Some m ∧ params_frozen m ∧ norms_in_eval m.

(** Every module of the subtree is in evaluation mode. *)
Definition all_eval (m : module) : Prop := ∀ x, x ∈ modules m → training x = false.

(** A stage as [_freeze_stages] leaves it. *)
Definition frozen (m : module) : Prop := params_frozen m ∧ all_eval m.

(** Stages [0 .. frozen_stages] exist and are as [_freeze_stages] leaves
    them. *)
Definition stages_all_frozen (s : EMO2_modes) : Prop :=
  ∀ i, (Z.of_nat i ≤ frozen_stages s)%Z →
    ∃ m, stage_modules s !! i = Some m ∧ frozen m.

(** The frozen range lies within the stages the object has:
    [getattr(self, f'stage{i}')] finds every stage it asks for. *)
Definition stages_exist (s : EMO2_modes) : Prop :=
  (frozen_stages s + 1 ≤ Z.of_nat (length (stage_modules s)))%Z.

(** ** Concrete inputs *)

(** A two-channel attention module over the integers, one channel per
    head, and small images to run the operators on. *)
Definition demo_qk_pixel (l : list Z) : list Z :=
  match l with
  | [a; b] => [a; b; a + b; a - b + 1]%Z
  | _ => []
  end.

Definition demo_v_pixel (l : list Z) : list Z :=
  match l with
  | [a; b] => [a + 1; b * 2]%Z
  | _ => []
  end.

Definition demo_attn (attn_pre : bool) (window_size : Z) : EW_MHSA Z :=
  {| dim_head := 1; window_size := window_size; num_head := 2; scale := 3%Z;
     attn_pre := attn_pre;
     qk := {| conv_dim_in := 2; conv_dim_out := 4; conv_pixel := demo_qk_pixel |};
     v := {| conv_dim_in := 2; conv_dim_out := 2; conv_pixel := demo_v_pixel |} |}.

Definition demo_image (H W : nat) : tensor Z :=
  build 1 2 H W (fun b c h w => Z.of_nat (c * 100 + h * 10 + w)).

Definition demo_hybrid_output : tensor Z :=
  Eval vm_compute in
    match EW_MHSA_Hybrid_forward (demo_attn false 2) (demo_image 3 5) with
    | Ok y => y
    | Raise _ => demo_image 0 0
    end.

(** The simplest spatial rule that meets the spec: divide by the stride. *)
Definition demo_conv_out_size (k : Z) (s n : nat) : nat := n `div` s.



(** A model of three stages, the first two to be frozen. *)
Definition demo_stage (name : string) : module :=
  Module OtherLayer true []
    [Module OtherLayer true [{| p_name := name; requires_grad := true |}] [];
     Module BatchNorm true [{| p_name := "bn.weight"; requires_grad := true |}] [];
     Module LayerNorm true [] []].

Definition demo_modes : EMO2_modes :=
  {| self_training := true;
     stage_modules := [demo_stage "a"; demo_stage "b"; demo_stage "c"];
     frozen_stages := 1; norm_eval := true |}.


(** A stack of four 2 x 3 windows of one channel. *)
Definition demo_windows : tensor Z :=
  build 4 1 2 3 (fun b c h w => Z.of_nat (b * 100 + h * 10 + w)).

(** ** Names for what [iiRMB.__init__] computes from its arguments *)

(** The tag an operator of a block was built from. *)
Definition eop_tag (e : eop) : Z :=
  match e with
  | Eop_Conv _ => 0
  | Eop_Remote _ => 1
  | Eop_Close _ => 2
  | Eop_Hybrid _ => 3
  end.

(** [dim_mid = int(dim_in * exp_ratio)] *)
Definition dim_mid_of (a : iiRMB_args) : nat := int_mul (arg_dim_in a) (arg_exp_ratio a).

(** The attributes of the attention operators [iiRMB.__init__] builds for
    the tags 1, 2 and 3 (source lines 258-265): all three calls pass
    [dim_in], [dim_mid] and the block's own [dim_head], [window_size] and
    [attn_pre]. *)
Definition attention_cfg_of (a : iiRMB_args) : EW_MHSA_cfg :=
  {| a_dim_head := arg_dim_head a; a_window_size := arg_window_size a;
     a_num_head := arg_dim_in a `div` arg_dim_head a; a_attn_pre := arg_attn_pre a;
     a_qk := (arg_dim_in a, arg_dim_in a * 2);
     a_v := (arg_dim_in a, dim_mid_of a) |}.



(** ** Names for statements about the whole model *)

(** The same model asked for other outputs. *)
Definition with_out_indices (m : EMO2) (l : list Z) : EMO2 :=
  {| out_indices := l; stage0 := stage0 m; stages := stages m |}.


(** The default configuration cut down to three stages. *)
Definition demo_three_stage_args : EMO2_args :=
  {| e_dim_in := 3; e_num_classes := 1000; e_img_size := 224;
     e_depths := [1; 2; 4];
     e_embed_dims := [64; 128; 256];
     e_exp_ratios := [4%Q; 4%Q; 4%Q];
     e_norm_layers := ["bn_2d"; "bn_2d"; "ln_2d"];
     e_act_layers := ["silu"; "silu"; "gelu"];
     e_dw_kss := [3; 3; 5]%Z;
     e_dim_heads := [32; 32; 32];
     e_window_sizes := [7; 7; 7]%Z;
     e_hybrid_eopss := [[0]; [0]; [1]]%Z;
     e_conv_kss := [1; 1; 1]%Z;
     e_conv_groupss := [1; 1; 1];
     e_attn_pre := false;
     e_out_indices := [1; 2; 3]%Z |}.

(** ** Names for statements about the train-mode toggle *)

(** What one call [train(mode)] makes of stage [i]: a stage in the
    frozen range is put in evaluation mode with its parameters frozen; any
    other stage takes the mode, and with [mode and norm_eval] its
    [_BatchNorm] modules are put back in evaluation mode. *)
Definition stage_after_train (mode : bool) (s : EMO2_modes) (i : nat) (m : module)
  : module :=
  if decide (Z.of_nat i ≤ frozen_stages s)%Z then freeze_parameters (Module_eval m)
  else if mode && norm_eval s then eval_batchnorms (Module_train mode m)
  else Module_train mode m.

#[global] Instance layer_kind_eq_dec : EqDecision layer_kind.
Proof. solve_decision. Defined.

(** No [_BatchNorm] module of the subtree has child modules. *)
Definition batchnorms_are_leaves (m : module) : Prop :=
  ∀ x, x ∈ modules m → kind x = BatchNorm → children x = [].

(** Two stages, and a frozen range that asks for a third. *)
Definition demo_modes_missing_stage : EMO2_modes :=
  {| self_training := false;
     stage_modules := [demo_stage "a"; demo_stage "b"];
     frozen_stages := 2; norm_eval := true |}.

(** ** The drop-path rates of the constructor *)

(** A slice [l[lo:hi]] with non-negative bounds. *)
Definition py_slice {A} (l : list A) (lo hi : nat) : list A :=
  take (hi - lo) (drop lo l).

(** [dpr = dprs[sum(depths[:i]):sum(depths[:i + 1])]], for [dprs] the
    list of the values of [torch.linspace(0, drop_path, sum(depths))]. *)
Definition dpr {A} (dprs : list A) (depths : list nat) (i : nat) : list A :=
  py_slice dprs (sum_list (take i depths)) (sum_list (take (i + 1) depths)).
(** * Lemmas *)

(** ** Nested lists and tensors *)

Lemma length_tab {A} n (f : nat → A) : length (tab n f) = n.
Proof. unfold tab. by rewrite length_fmap, length_seq. Qed.

Lemma lookup_tab {A} n (f : nat → A) i : i < n → tab n f !! i = Some (f i).
Proof.
  intros Hi. unfold tab. rewrite list_lookup_fmap, lookup_seq_lt by done. done.
Qed.

Lemma lookup_tab_ge {A} n (f : nat → A) i : n ≤ i → tab n f !! i = None.
Proof.
  intros Hi. unfold tab. rewrite list_lookup_fmap, lookup_seq_ge by done. done.
Qed.

Lemma tab_ext {A} n (f g : nat → A) :
  (∀ i, i < n → f i = g i) → tab n f = tab n g.
Proof.
  intros Hfg. apply list_eq. intros i.
  destruct (decide (i < n)) as [Hi|Hi].
  - rewrite !lookup_tab by done. f_equal. auto.
  - rewrite !lookup_tab_ge by lia. done.
Qed.

Lemma tab_lookup_id {A} (l : list A) (d : A) :
  tab (length l) (fun i => default d (l !! i)) = l.
Proof.
  apply list_eq. intros i.
  destruct (decide (i < length l)) as [Hi|Hi].
  - rewrite lookup_tab by done.
    destruct (lookup_lt_is_Some_2 l i Hi) as [a ->]. done.
  - rewrite lookup_tab_ge by lia. symmetry. apply lookup_ge_None_2. lia.
Qed.

Section TensorFacts.
Context `{Scalar T}.

Lemma get_build B C Hh W (f : nat → nat → nat → nat → T) b c h w :
  b < B → c < C → h < Hh → w < W → get (build B C Hh W f) b c h w = f b c h w.
Proof.
  intros. unfold get, build. simpl.
  rewrite lookup_tab by done. rewrite lookup_tab by done.
  rewrite lookup_tab by done. rewrite lookup_tab by done. done.
Qed.

Lemma build_ext B C Hh W (f g : nat → nat → nat → nat → T) :
  (∀ b c h w, b < B → c < C → h < Hh → w < W → f b c h w = g b c h w) →
  build B C Hh W f = build B C Hh W g.
Proof.
  intros Hfg. unfold build. f_equal.
  apply tab_ext; intros b Hb. apply tab_ext; intros c Hc.
  apply tab_ext; intros h Hh'. apply tab_ext; intros w Hw. auto.
Qed.

Lemma well_formed_build (x : tensor T) B C Hh W :
  shape x = (B, C, Hh, W) → well_formed x = true → x = build B C Hh W (get x).
Proof.
  destruct x as [s d]. simpl. intros -> Hwf. unfold well_formed in Hwf. simpl in Hwf.
  apply andb_prop in Hwf as [HB Hall]. apply bool_decide_eq_true in HB.
  unfold build. f_equal. subst B.
  rewrite forallb_forall in Hall.
  apply list_eq. intros b. destruct (decide (b < length d)) as [Hb|Hb].
  2:{ rewrite lookup_tab_ge by lia. apply lookup_ge_None_2. lia. }
  rewrite lookup_tab by done.
  destruct (lookup_lt_is_Some_2 d b Hb) as [y Hy]. rewrite Hy. f_equal.
  assert (Hyin : In y d). { apply list_elem_of_In. eapply list_elem_of_lookup_2; eauto. }
  apply Hall in Hyin. unfold chans_ok in Hyin.
  apply andb_prop in Hyin as [HC Hally]. apply bool_decide_eq_true in HC. subst C.
  rewrite forallb_forall in Hally.
  apply list_eq. intros c. destruct (decide (c < length y)) as [Hc|Hc].
  2:{ rewrite lookup_tab_ge by lia. apply lookup_ge_None_2. lia. }
  rewrite lookup_tab by done.
  destruct (lookup_lt_is_Some_2 y c Hc) as [z Hz]. rewrite Hz. f_equal.
  assert (Hzin : In z y). { apply list_elem_of_In. eapply list_elem_of_lookup_2; eauto. }
  apply Hally in Hzin. unfold rows_ok in Hzin.
  apply andb_prop in Hzin as [HH Hallz]. apply bool_decide_eq_true in HH. subst Hh.
  rewrite forallb_forall in Hallz.
  apply list_eq. intros h. destruct (decide (h < length z)) as [Hh|Hh].
  2:{ rewrite lookup_tab_ge by lia. apply lookup_ge_None_2. lia. }
  rewrite lookup_tab by done.
  destruct (lookup_lt_is_Some_2 z h Hh) as [r Hr]. rewrite Hr. f_equal.
  assert (Hrin : In r z). { apply list_elem_of_In. eapply list_elem_of_lookup_2; eauto. }
  apply Hallz in Hrin. apply bool_decide_eq_true in Hrin. subst W.
  unfold get. simpl. 
  rewrite <- (tab_lookup_id r t_zero) at 1.
  apply tab_ext. intros w Hw. rewrite Hy, Hz, Hr. done.
Qed.

Lemma shape_build B C Hh W (f : nat → nat → nat → nat → T) :
  shape (build B C Hh W f) = (B, C, Hh, W).
Proof. done. Qed.

Lemma well_formed_built B C Hh W (f : nat → nat → nat → nat → T) :
  well_formed (build B C Hh W f) = true.
Proof.
  unfold well_formed, build. simpl.
  rewrite length_tab, bool_decide_eq_true_2 by done. simpl.
  apply forallb_forall. intros y Hy. apply list_elem_of_In in Hy.
  apply list_elem_of_lookup in Hy as [b Hb].
  apply lookup_lt_Some in Hb as Hlt. rewrite length_tab in Hlt.
  rewrite lookup_tab in Hb by done. injection Hb as <-.
  unfold chans_ok. rewrite length_tab, bool_decide_eq_true_2 by done. simpl.
  apply forallb_forall. intros z Hz. apply list_elem_of_In in Hz.
  apply list_elem_of_lookup in Hz as [c Hc].
  apply lookup_lt_Some in Hc as Hlt'. rewrite length_tab in Hlt'.
  rewrite lookup_tab in Hc by done. injection Hc as <-.
  unfold rows_ok. rewrite length_tab, bool_decide_eq_true_2 by done. simpl.
  apply forallb_forall. intros r Hr. apply list_elem_of_In in Hr.
  apply list_elem_of_lookup in Hr as [h Hh'].
  apply lookup_lt_Some in Hh' as Hlt''. rewrite length_tab in Hlt''.
  rewrite lookup_tab in Hh' by done. injection Hh' as <-.
  rewrite length_tab. by apply bool_decide_eq_true_2.
Qed.

End TensorFacts.

(** Index arithmetic of the composite axes. *)

Lemma div_mod_compose a n k : k < n → (a * n + k) `div` n = a ∧ (a * n + k) `mod` n = k.
Proof.
  intros Hk. split.
  - symmetry. apply (Nat.div_unique _ _ _ k); lia.
  - symmetry. apply (Nat.mod_unique _ _ a k); lia.
Qed.

Lemma div_compose a n k : k < n → (a * n + k) `div` n = a.
Proof. intros. by apply div_mod_compose. Qed.

Lemma mod_compose a n k : k < n → (a * n + k) `mod` n = k.
Proof. intros. by apply div_mod_compose. Qed.

Lemma decompose p n : 0 < n → p `div` n * n + p `mod` n = p.
Proof. intros Hn. pose proof (Nat.div_mod p n). lia. Qed.

Lemma div_lt_bound p a n : p < a * n → p `div` n < a.
Proof.
  intros Hp. destruct (decide (n = 0)) as [->|Hn]; [lia|].
  apply Nat.Div0.div_lt_upper_bound. lia.
Qed.

Lemma mod_lt_bound p n : 0 < n → p `mod` n < n.
Proof. intros. apply Nat.mod_upper_bound. lia. Qed.

Lemma compose_lt a k m n : a < m → k < n → a * n + k < m * n.
Proof. nia. Qed.

Lemma batch_div b n1 n2 i1 i2 :
  i1 < n1 → i2 < n2 → ((b * n1 + i1) * n2 + i2) `div` (n1 * n2) = b.
Proof.
  intros H1 H2. symmetry. apply (Nat.div_unique _ _ _ (i1 * n2 + i2)); nia.
Qed.

Lemma batch_mid b n1 n2 i1 i2 :
  i1 < n1 → i2 < n2 → (((b * n1 + i1) * n2 + i2) `div` n2) `mod` n1 = i1.
Proof.
  intros H1 H2. rewrite div_compose by done. by apply mod_compose.
Qed.

Lemma mul_div_exact a n : 0 < n → a `mod` n = 0 → a `div` n * n = a.
Proof. intros Hn Hm. pose proof (Nat.div_mod a n). lia. Qed.

(** Facts about [einops_infer]. *)

Lemma einops_infer_ok len known :
  0 < known → len `mod` known = 0 → einops_infer len known = Ok (len `div` known).
Proof.
  intros Hk Hm. unfold einops_infer.
  destruct (decide (known = 0)); [lia|]. by destruct (decide (len `mod` known = 0)).
Qed.

Lemma einops_infer_inv len known q :
  einops_infer len known = Ok q →
  0 < known ∧ len `mod` known = 0 ∧ q = len `div` known ∧ q * known = len.
Proof.
  unfold einops_infer. destruct (decide (known = 0)); [done|].
  destruct (decide (len `mod` known = 0)) as [Hm|]; [|done].
  intros [= <-]. repeat split; try lia. apply mul_div_exact; [lia|done].
Qed.

Lemma einops_infer_mul b n : 0 < n → einops_infer (b * n) n = Ok b.
Proof.
  intros Hn. rewrite einops_infer_ok; [|done|by apply Nat.Div0.mod_mul].
  by rewrite Nat.div_mul by lia.
Qed.

Lemma bind_Ok {A B} (a : A) (f : A → result B) : Ok a ≫= f = f a.
Proof. done. Qed.

Lemma result_bind_assoc {A B C} (r : result A) (f : A → result B) (g : B → result C) :
  (r ≫= f) ≫= g = r ≫= (fun a => f a ≫= g).
Proof. by destruct r. Qed.

Lemma bind_inv {A B} (r : result A) (f : A → result B) b :
  r ≫= f = Ok b → ∃ a, r = Ok a ∧ f a = Ok b.
Proof. destruct r; [eauto|done]. Qed.

Section Roundtrip.
Context `{Scalar T}.

Lemma tile_untile_remote (x : tensor T) n1 n2 B C Hh W :
  shape x = (B, C, Hh, W) → well_formed x = true →
  0 < n1 → 0 < n2 → Hh `mod` n1 = 0 → W `mod` n2 = 0 →
  rearrange_tile_remote n1 n2 x ≫= rearrange_untile_remote n1 n2 = Ok x.
Proof.
  intros Hs Hwf Hn1 Hn2 Hm1 Hm2.
  unfold rearrange_tile_remote. rewrite Hs.
  rewrite !einops_infer_ok, !bind_Ok by done.
  unfold rearrange_untile_remote. rewrite shape_build.
  rewrite <- Nat.mul_assoc, einops_infer_mul, bind_Ok by lia.
  rewrite !mul_div_exact by done.
  f_equal. etrans; [|symmetry; apply (well_formed_build x B C Hh W Hs Hwf)].
  apply build_ext. intros b c p q Hb Hc Hp Hq.
  rewrite get_build.
  - rewrite batch_div, batch_mid, mod_compose by (by apply mod_lt_bound).
    by rewrite !decompose.
  - rewrite Nat.mul_assoc. apply compose_lt; [|by apply mod_lt_bound].
    apply compose_lt; [done|by apply mod_lt_bound].
  - done.
  - apply div_lt_bound. by rewrite mul_div_exact.
  - apply div_lt_bound. by rewrite mul_div_exact.
Qed.

Lemma tile_untile_close (x : tensor T) n1 n2 B C Hh W :
  shape x = (B, C, Hh, W) → well_formed x = true →
  0 < n1 → 0 < n2 → Hh `mod` n1 = 0 → W `mod` n2 = 0 → 0 < Hh → 0 < W →
  rearrange_tile_close n1 n2 x ≫= rearrange_untile_close n1 n2 = Ok x.
Proof.
  intros Hs Hwf Hn1 Hn2 Hm1 Hm2 HH HW.
  pose proof (mul_div_exact Hh n1 Hn1 Hm1) as E1.
  pose proof (mul_div_exact W n2 Hn2 Hm2) as E2.
  assert (0 < Hh `div` n1) as Hh1 by (destruct (Hh `div` n1); lia).
  assert (0 < W `div` n2) as Hw1 by (destruct (W `div` n2); lia).
  unfold rearrange_tile_close. rewrite Hs.
  rewrite !einops_infer_ok, !bind_Ok by done.
  unfold rearrange_untile_close. rewrite shape_build.
  rewrite <- Nat.mul_assoc, einops_infer_mul, bind_Ok by lia.
  rewrite (Nat.mul_comm n1), (Nat.mul_comm n2), E1, E2.
  f_equal. etrans; [|symmetry; apply (well_formed_build x B C Hh W Hs Hwf)].
  apply build_ext. intros b c p q Hb Hc Hp Hq.
  assert (p `div` (Hh `div` n1) < n1) by (apply div_lt_bound; lia).
  assert (q `div` (W `div` n2) < n2) by (apply div_lt_bound; lia).
  rewrite get_build.
  - rewrite batch_div, batch_mid, mod_compose by done.
    by rewrite !decompose.
  - rewrite Nat.mul_assoc. apply compose_lt; [|done]. by apply compose_lt.
  - done.
  - by apply mod_lt_bound.
  - by apply mod_lt_bound.
Qed.

End Roundtrip.

(** Each tensor operation against its shape. *)

Section OpShapes.
Context `{Scalar T}.

Lemma shape_pad_input p (x : tensor T) : shape (pad_input p x) = pad_shape p (shape x).
Proof.
  unfold pad_input, F_pad, pad_shape. by destruct (shape x) as [[[B C] Hh] W].
Qed.

Lemma shape_unpad p Hh W (x : tensor T) :
  shape (unpad p Hh W x) = unpad_shape p Hh W (shape x).
Proof.
  unfold unpad, unpad_shape, crop. destruct (shape x) as [[[B C] Hx] Wx] eqn:E.
  by destruct (_ || _).
Qed.

Lemma shape_tile_remote n1 n2 (x : tensor T) :
  shape <$> rearrange_tile_remote n1 n2 x = tile_shape n1 n2 (shape x).
Proof.
  unfold rearrange_tile_remote, tile_shape. destruct (shape x) as [[[b c] Hp] Wp].
  destruct (einops_infer Hp n1); [|done]. by destruct (einops_infer Wp n2).
Qed.

Lemma shape_tile_close n1 n2 (x : tensor T) :
  shape <$> rearrange_tile_close n1 n2 x = tile_shape n1 n2 (shape x).
Proof.
  unfold rearrange_tile_close, tile_shape. destruct (shape x) as [[[b c] Hp] Wp].
  destruct (einops_infer Hp n1); [|done]. by destruct (einops_infer Wp n2).
Qed.

Lemma shape_untile_remote n1 n2 (y : tensor T) :
  shape <$> rearrange_untile_remote n1 n2 y = untile_remote_shape n1 n2 (shape y).
Proof.
  unfold rearrange_untile_remote, untile_remote_shape.
  destruct (shape y) as [[[bn c] h1] w1]. by destruct (einops_infer bn (n1 * n2)).
Qed.

Lemma shape_untile_close n1 n2 (y : tensor T) :
  shape <$> rearrange_untile_close n1 n2 y = untile_close_shape n1 n2 (shape y).
Proof.
  unfold rearrange_untile_close, untile_close_shape.
  destruct (shape y) as [[[bn c] h1] w1]. by destruct (einops_infer bn (n1 * n2)).
Qed.

Lemma shape_conv (cv : ConvNormAct_1x1 T) (x : tensor T) :
  shape <$> ConvNormAct_1x1_forward cv x
  = conv_1x1_shape (conv_dim_in cv, conv_dim_out cv) (shape x).
Proof.
  unfold ConvNormAct_1x1_forward, conv_1x1_shape.
  destruct (shape x) as [[[B C] Hh] W]. simpl. by destruct (decide (C = conv_dim_in cv)).
Qed.

Lemma shape_attention_map (m : EW_MHSA T) (qk : tensor T) :
  shape <$> attention_map m qk = attention_map_shape (cfg_of m) (shape qk).
Proof.
  unfold attention_map, attention_map_shape, rearrange_qk_heads.
  destruct (shape qk) as [[[b c] h] w] eqn:E. cbn [cfg_of a_num_head a_dim_head].
  by destruct (decide (c = 2 * num_head m * dim_head m)).
Qed.

Lemma shape_attend (m : EW_MHSA T) h w (attn_map x : tensor T) :
  shape <$> attend m h w attn_map x
  = attend_shape (cfg_of m) h w (shape attn_map) (shape x).
Proof.
  unfold attend, attend_shape, rearrange_to_heads, rearrange_from_heads, matmul.
  destruct (shape x) as [[[b c] hx] wx]. simpl.
  destruct (einops_infer c (num_head m)) as [dv|]; [|done]. simpl.
  destruct (shape attn_map) as [[[ba hd] n] n']. simpl.
  by destruct (decide (hd = num_head m ∧ n = h * w)).
Qed.

End OpShapes.

(** Stepping a computation and its shape together. *)
Lemma fmap_Ok_inv {A B} (f : A → B) (r : result A) b :
  f <$> r = Ok b → ∃ a, r = Ok a ∧ f a = b.
Proof. destruct r; [|done]. intros [= <-]. eauto. Qed.

Lemma shape_bind {A S S' : Type} (sh : A → S') {T'} (r : result T') (rs : result S)
    (st : T' → S) (f : T' → result A) (g : S → result S') :
  st <$> r = rs → (∀ a, r = Ok a → sh <$> f a = g (st a)) →
  sh <$> (r ≫= f) = rs ≫= g.
Proof. intros <- Hf. destruct r as [a|e]; [|done]. simpl. by apply Hf. Qed.

Section Link.
Context `{Scalar T}.

Lemma shape_branch (m : EW_MHSA T) h w (attn_map x : tensor T) :
  shape <$> (if attn_pre m then
               x_spa ← attend m h w attn_map x;
               ConvNormAct_1x1_forward (v m) x_spa
             else
               v ← ConvNormAct_1x1_forward (v m) x;
               attend m h w attn_map v)
  = (if a_attn_pre (cfg_of m) then
       x_spa ← attend_shape (cfg_of m) h w (shape attn_map) (shape x);
       conv_1x1_shape (a_v (cfg_of m)) x_spa
     else
       v ← conv_1x1_shape (a_v (cfg_of m)) (shape x);
       attend_shape (cfg_of m) h w (shape attn_map) v).
Proof.
  simpl. destruct (attn_pre m).
  - eapply shape_bind; [apply shape_attend|]. intros a _. apply shape_conv.
  - eapply shape_bind; [apply shape_conv|]. intros a _. apply shape_attend.
Qed.

Lemma Remote_forward_shape (m : EW_MHSA T) (x : tensor T) :
  shape <$> EW_MHSA_Remote_forward m x
  = EW_MHSA_Remote_forward_shape (cfg_of m) (shape x).
Proof.
  unfold EW_MHSA_Remote_forward, EW_MHSA_Remote_forward_shape.
  destruct (shape x) as [[[B C] Hh] W] eqn:Hs. simpl a_window_size.
  eapply (shape_bind _ _ _ id); [by destruct (window_padding _ _ _)|].
  intros p _. unfold id.
  eapply shape_bind; [rewrite shape_tile_remote, shape_pad_input, Hs; done|].
  intros t _. destruct (shape t) as [[[b c] h] w] eqn:Ht.
  eapply shape_bind; [rewrite shape_conv, Ht; done|]. intros qk0 _.
  eapply shape_bind; [apply shape_attention_map|]. intros am _.
  eapply shape_bind; [rewrite shape_branch, Ht; done|]. intros xs _.
  eapply shape_bind; [apply shape_untile_remote|]. intros y _.
  simpl. by rewrite shape_unpad.
Qed.

Lemma Close_forward_shape (m : EW_MHSA T) (x : tensor T) :
  shape <$> EW_MHSA_Close_forward m x
  = EW_MHSA_Close_forward_shape (cfg_of m) (shape x).
Proof.
  unfold EW_MHSA_Close_forward, EW_MHSA_Close_forward_shape.
  destruct (shape x) as [[[B C] Hh] W] eqn:Hs. simpl a_window_size.
  eapply (shape_bind _ _ _ id); [by destruct (window_padding _ _ _)|].
  intros p _. unfold id.
  eapply shape_bind; [rewrite shape_tile_close, shape_pad_input, Hs; done|].
  intros t _. destruct (shape t) as [[[b c] h] w] eqn:Ht.
  eapply shape_bind; [rewrite shape_conv, Ht; done|]. intros qk0 _.
  eapply shape_bind; [apply shape_attention_map|]. intros am _.
  eapply shape_bind; [rewrite shape_branch, Ht; done|]. intros xs _.
  eapply shape_bind; [apply shape_untile_close|]. intros y _.
  simpl. by rewrite shape_unpad.
Qed.

End Link.

(** The padding paragraph. *)

Lemma window_of_pos ws n : 0 < n → (0 < window_of ws n)%Z.
Proof. unfold window_of. destruct (decide (ws ≤ 0)%Z); lia. Qed.

Lemma pad_amount_spec (w h : Z) :
  (0 < w)%Z → (0 ≤ h)%Z →
  (0 ≤ (w - h `mod` w) `mod` w < w)%Z ∧ ((h + (w - h `mod` w) `mod` w) `mod` w = 0)%Z.
Proof.
  intros Hw Hh. split; [apply Z.mod_pos_bound; lia|].
  pose proof (Z.mod_pos_bound h w Hw) as Hr.
  pose proof (Z.div_mod h w ltac:(lia)) as Hd.
  destruct (decide (h `mod` w = 0)%Z) as [E|E].
  - rewrite E, Z.sub_0_r, Z.mod_same, Z.add_0_r by lia. done.
  - rewrite (Z.mod_small (w - h `mod` w) w) by lia.
    replace (h + (w - h `mod` w))%Z with ((h `div` w + 1) * w)%Z by lia.
    apply Z.mod_mul. lia.
Qed.

Lemma window_padding_eq ws Hh W :
  0 < Hh → 0 < W →
  window_padding ws Hh W
  = Ok {| window_size_W := window_of ws W; window_size_H := window_of ws Hh;
          pad_l := 0; pad_t := 0;
          pad_r := pad_of ws W; pad_b := pad_of ws Hh;
          n1 := count_of ws Hh; n2 := count_of ws W |}.
Proof.
  intros HH HW. pose proof (window_of_pos ws Hh HH). pose proof (window_of_pos ws W HW).
  unfold window_padding, count_of, pad_of, window_of in *.
  destruct (decide (ws ≤ 0)%Z); unfold py_mod, py_floordiv;
    repeat (destruct (decide (_ = 0%Z)); [lia|]; simpl); done.
Qed.

Lemma window_padding_zero_div ws Hh W :
  (ws ≤ 0)%Z → Hh = 0 ∨ W = 0 → window_padding ws Hh W = Raise ZeroDivisionError.
Proof.
  intros Hws H0. unfold window_padding. destruct (decide (ws ≤ 0)%Z); [|lia].
  unfold py_mod, py_floordiv.
  destruct (decide (Z.of_nat W = 0%Z)); [done|]. simpl.
  destruct (decide (Z.of_nat W = 0%Z)); [done|]. simpl.
  destruct (decide (Z.of_nat Hh = 0%Z)); [done|]. lia.
Qed.

(** The padded extent is a whole number of windows. *)
Lemma padded_extent ws n :
  0 < n →
  ∃ w pad k : nat,
    window_of ws n = Z.of_nat w ∧ pad_of ws n = Z.of_nat pad
    ∧ count_of ws n = Z.of_nat k
    ∧ 0 < w ∧ 0 < k ∧ pad < w ∧ n + pad = w * k.
Proof.
  intros Hn. pose proof (window_of_pos ws n Hn) as Hw.
  destruct (pad_amount_spec (window_of ws n) (Z.of_nat n) Hw ltac:(lia)) as [Hp Hm].
  fold (pad_of ws n) in Hp, Hm.
  assert (Hk : (Z.of_nat n + pad_of ws n = window_of ws n * count_of ws n)%Z).
  { unfold count_of. pose proof (Z.div_mod (Z.of_nat n + pad_of ws n) (window_of ws n)). lia. }
  exists (Z.to_nat (window_of ws n)), (Z.to_nat (pad_of ws n)), (Z.to_nat (count_of ws n)).
  assert (0 < count_of ws n)%Z by nia.
  repeat split; try lia; nia.
Qed.

Lemma pad_of_multiple ws n :
  (0 < ws)%Z → (Z.of_nat n `mod` ws = 0)%Z → pad_of ws n = 0%Z.
Proof.
  intros Hws Hm. unfold pad_of, window_of. destruct (decide (ws ≤ 0)%Z); [lia|].
  rewrite Hm, Z.sub_0_r. apply Z.mod_same. lia.
Qed.

Lemma pad_of_nonpos ws n : (ws ≤ 0)%Z → 0 < n → pad_of ws n = 0%Z ∧ count_of ws n = 1%Z.
Proof.
  intros Hws Hn. unfold count_of, pad_of, window_of. destruct (decide (ws ≤ 0)%Z); [|lia].
  rewrite Z.mod_same, Z.sub_0_r, Z.mod_same, Z.add_0_r by lia.
  split; [done|]. apply Z.div_same. lia.
Qed.

(** The three shape functions agree and succeed on fitting channels. *)

Lemma untile_close_remote_shape n1 n2 s :
  untile_close_shape n1 n2 s = untile_remote_shape n1 n2 s.
Proof.
  unfold untile_close_shape, untile_remote_shape. destruct s as [[[bn c] h1] w1].
  by rewrite (Nat.mul_comm n1 h1), (Nat.mul_comm n2 w1).
Qed.

Lemma Close_Remote_shape a s :
  EW_MHSA_Close_forward_shape a s = EW_MHSA_Remote_forward_shape a s.
Proof.
  unfold EW_MHSA_Close_forward_shape, EW_MHSA_Remote_forward_shape.
  destruct s as [[[B C] Hh] W]. destruct (window_padding _ _ _) as [p|]; [|done].
  rewrite !bind_Ok. destruct (tile_shape _ _ (pad_shape _ _)) as [[[[b c] h] w]|]; [|done].
  rewrite !bind_Ok. destruct (conv_1x1_shape (a_qk a) _) as [qk0|]; [|done].
  rewrite !bind_Ok. destruct (attention_map_shape _ _) as [am|]; [|done].
  rewrite !bind_Ok. destruct (if a_attn_pre a then _ else _); [|done].
  rewrite !bind_Ok. by rewrite untile_close_remote_shape.
Qed.

Lemma einops_infer_pos len known q : einops_infer len known = Ok q → 0 < known.
Proof. intros Hq. by apply einops_infer_inv in Hq as [? _]. Qed.

Lemma tile_shape_inv n1 n2 b c Hp Wp s :
  tile_shape n1 n2 (b, c, Hp, Wp) = Ok s →
  ∃ h1 w1, einops_infer Hp n1 = Ok h1 ∧ einops_infer Wp n2 = Ok w1
           ∧ s = (b * n1 * n2, c, h1, w1).
Proof.
  unfold tile_shape. destruct (einops_infer Hp n1) as [h1|]; [|done].
  destruct (einops_infer Wp n2) as [w1|]; [|done]. intros [= <-]. eauto.
Qed.

Lemma tile_shape_eq n1 n2 b c Hp Wp h1 w1 :
  einops_infer Hp n1 = Ok h1 → einops_infer Wp n2 = Ok w1 →
  tile_shape n1 n2 (b, c, Hp, Wp) = Ok (b * n1 * n2, c, h1, w1).
Proof. unfold tile_shape. by intros -> ->. Qed.

Lemma Hybrid_Remote_shape a s :
  EW_MHSA_Hybrid_forward_shape a s = EW_MHSA_Remote_forward_shape a s.
Proof.
  unfold EW_MHSA_Hybrid_forward_shape, EW_MHSA_Remote_forward_shape.
  destruct s as [[[B C] Hh] W]. destruct (window_padding _ _ _) as [p|]; [|done].
  rewrite !bind_Ok. unfold pad_shape.
  destruct (tile_shape _ _ (B, C, _, _)) as [t|] eqn:Et; [|done].
  apply tile_shape_inv in Et as (h1 & w1 & E1 & E2 & ->). rewrite !bind_Ok.
  apply einops_infer_pos in E1 as P1. apply einops_infer_pos in E2 as P2.
  assert (Hinf : einops_infer (B * Z.to_nat (n1 p) * Z.to_nat (n2 p))
                   (Z.to_nat (n1 p) * Z.to_nat (n2 p)) = Ok B).
  { rewrite <- Nat.mul_assoc. apply einops_infer_mul. lia. }
  unfold conv_1x1_shape. cbv beta iota.
  destruct (decide (C = (a_qk a).1)); [|done]. rewrite !bind_Ok.
  rewrite (tile_shape_eq _ _ _ _ _ _ _ _ E1 E2), !bind_Ok.
  unfold attention_map_shape.
  destruct (decide ((a_qk a).2 = _)); [|done]. rewrite !bind_Ok.
  unfold attend_shape, untile_remote_shape, untile_close_shape.
  destruct (a_attn_pre a).
  - destruct (einops_infer C _) as [dv|]; [|done]. rewrite !bind_Ok.
    destruct (decide (_ ∧ _)) as [_|[]]; [|done]. rewrite !bind_Ok.
    repeat first [rewrite Hinf | rewrite bind_Ok].
    destruct (decide (_ = (a_v a).1)); [|done].
    by repeat first [rewrite Hinf | rewrite bind_Ok | progress cbv beta iota].
  - destruct (decide (C = (a_v a).1)); [|done]. rewrite !bind_Ok.
    rewrite (tile_shape_eq _ _ _ _ _ _ _ _ E1 E2), !bind_Ok.
    destruct (einops_infer (a_v a).2 _) as [dv|]; [|done]. rewrite !bind_Ok.
    destruct (decide (_ ∧ _)) as [_|[]]; [|done]. rewrite !bind_Ok.
    by repeat first [rewrite Hinf | rewrite bind_Ok | progress cbv beta iota].
Qed.

Lemma conv_1x1_shape_ok d B C Hh W :
  d.1 = C → conv_1x1_shape d (B, C, Hh, W) = Ok (B, d.2, Hh, W).
Proof. intros <-. unfold conv_1x1_shape. by rewrite decide_True. Qed.

Lemma attention_map_shape_ok a b c h w :
  c = 2 * a_num_head a * a_dim_head a →
  attention_map_shape a (b, c, h, w) = Ok (b, a_num_head a, h * w, h * w).
Proof. intros ->. unfold attention_map_shape. by rewrite decide_True. Qed.

Lemma attend_shape_ok a h w b c bx hx wx :
  0 < a_num_head a → c `mod` a_num_head a = 0 →
  attend_shape a h w (b, a_num_head a, h * w, h * w) (bx, c, hx, wx)
  = Ok (b, c, h, w).
Proof.
  intros Hhd Hm. unfold attend_shape.
  rewrite einops_infer_ok, bind_Ok, decide_True by done.
  by rewrite Nat.mul_comm, mul_div_exact.
Qed.

Lemma Remote_shape_ok a B C Hh W :
  channels_fit a C → 0 < Hh → 0 < W →
  EW_MHSA_Remote_forward_shape a (B, C, Hh, W) = Ok (B, (a_v a).2, Hh, W).
Proof.
  intros (Hq1 & Hq2 & Hv1 & Hhd & Hdiv) HH HW.
  unfold EW_MHSA_Remote_forward_shape.
  rewrite window_padding_eq, bind_Ok by done. cbn [n1 n2 pad_r pad_b pad_shape].
  destruct (padded_extent (a_window_size a) Hh HH)
    as (wh & pb & k1 & -> & Epb & -> & Hwh & Hk1 & Hpb & Eh).
  destruct (padded_extent (a_window_size a) W HW)
    as (ww & pr & k2 & -> & Epr & -> & Hww & Hk2 & Hpr & Ew).
  unfold unpad_shape, pad_shape. cbn [pad_r pad_b]. rewrite Epb, Epr, !Nat2Z.id.
  unfold tile_shape. rewrite Eh, Ew.
  rewrite !einops_infer_mul, !bind_Ok by done. cbv beta iota.
  rewrite (conv_1x1_shape_ok (a_qk a)), bind_Ok by done.
  rewrite attention_map_shape_ok, bind_Ok by done.
  assert (Hx : (if a_attn_pre a
                then x_spa ← attend_shape a wh ww (B * k1 * k2, a_num_head a, wh * ww, wh * ww)
                               (B * k1 * k2, C, wh, ww);
                     conv_1x1_shape (a_v a) x_spa
                else v ← conv_1x1_shape (a_v a) (B * k1 * k2, C, wh, ww);
                     attend_shape a wh ww (B * k1 * k2, a_num_head a, wh * ww, wh * ww) v)
               = Ok (B * k1 * k2, (a_v a).2, wh, ww)).
  { destruct (a_attn_pre a).
    - rewrite attend_shape_ok, bind_Ok by done. by apply conv_1x1_shape_ok.
    - rewrite conv_1x1_shape_ok, bind_Ok by done. by apply attend_shape_ok. }
  rewrite Hx, bind_Ok. unfold untile_remote_shape.
  rewrite <- Nat.mul_assoc, einops_infer_mul, !bind_Ok by lia.
  f_equal. destruct (bool_decide _ || bool_decide _) eqn:Epad.
  - f_equal; [f_equal|]; nia.
  - apply orb_false_elim in Epad as [Hr Hb].
    apply bool_decide_eq_false in Hr, Hb. f_equal; [f_equal|]; nia.
Qed.

Section HybridLink.
Context `{Scalar T}.

Lemma shape_tensor_add (x y : tensor T) : shape (tensor_add x y) = shape x.
Proof. unfold tensor_add. by destruct (shape x) as [[[B C] Hh] W]. Qed.

Lemma Hybrid_forward_shape (m : EW_MHSA T) (x : tensor T) :
  shape <$> EW_MHSA_Hybrid_forward m x
  = EW_MHSA_Hybrid_forward_shape (cfg_of m) (shape x).
Proof.
  unfold EW_MHSA_Hybrid_forward, EW_MHSA_Hybrid_forward_shape.
  destruct (shape x) as [[[B C] Hh] W] eqn:Hs. simpl a_window_size.
  eapply (shape_bind _ _ _ id); [by destruct (window_padding _ _ _)|].
  intros p _. unfold id.
  eapply shape_bind; [rewrite shape_tile_remote, shape_pad_input, Hs; done|].
  intros x_remote _.
  eapply shape_bind; [rewrite shape_tile_close, shape_pad_input, Hs; done|].
  intros x_close _.
  eapply shape_bind; [rewrite shape_conv, shape_pad_input, Hs; done|].
  intros qk0 _.
  eapply shape_bind; [apply shape_tile_remote|]. intros qk_remote _.
  eapply shape_bind; [apply shape_tile_close|]. intros qk_close _.
  destruct (shape x_remote) as [[[b c] h] w] eqn:Hr.
  eapply shape_bind; [apply shape_attention_map|]. intros amr _.
  eapply shape_bind; [apply shape_attention_map|]. intros amc _.
  eapply shape_bind; [|intros y _; simpl; by rewrite shape_unpad].
  cbn [cfg_of a_attn_pre a_v]. destruct (attn_pre m).
  - eapply shape_bind; [rewrite shape_attend, Hr; done|]. intros xr _.
    eapply shape_bind; [apply shape_untile_remote|]. intros xr' _.
    unfold Hybrid_pre_close_branch. rewrite result_bind_assoc.
    eapply shape_bind; [apply shape_attend|]. intros xc _.
    eapply shape_bind; [apply shape_untile_remote|].
    intros xc' _. rewrite shape_conv, shape_tensor_add. done.
  - eapply shape_bind; [rewrite shape_conv, shape_pad_input, Hs; done|]. intros v0 _.
    eapply shape_bind; [apply shape_tile_remote|]. intros v_remote _.
    eapply shape_bind; [apply shape_tile_close|]. intros v_close _.
    eapply shape_bind; [apply shape_attend|]. intros xr _.
    eapply shape_bind; [apply shape_untile_remote|]. intros xr' _.
    eapply shape_bind; [apply shape_attend|]. intros xc _.
    eapply shape_bind; [apply shape_untile_close|]. intros xc' _.
    simpl. by rewrite shape_tensor_add.
Qed.

(** On fitting channels every variant returns a tensor of the input's
    batch and spatial extent. *)
Lemma variants_return (m : EW_MHSA T) (x : tensor T) B C Hh W :
  shape x = (B, C, Hh, W) → channels_fit (cfg_of m) C → 0 < Hh → 0 < W →
  (∃ y, EW_MHSA_Remote_forward m x = Ok y ∧ shape y = (B, conv_dim_out (v m), Hh, W))
  ∧ (∃ y, EW_MHSA_Close_forward m x = Ok y ∧ shape y = (B, conv_dim_out (v m), Hh, W))
  ∧ (∃ y, EW_MHSA_Hybrid_forward m x = Ok y ∧ shape y = (B, conv_dim_out (v m), Hh, W)).
Proof.
  intros Hs Hfit HH HW.
  pose proof (Remote_shape_ok _ B C Hh W Hfit HH HW) as Hok. cbn [cfg_of a_v snd] in Hok.
  repeat split; apply fmap_Ok_inv.
  - by rewrite Remote_forward_shape, Hs.
  - by rewrite Close_forward_shape, Close_Remote_shape, Hs.
  - by rewrite Hybrid_forward_shape, Hybrid_Remote_shape, Hs.
Qed.

End HybridLink.

(** A pointwise projection commutes with both tilings. *)

Section ConvTile.
Context `{Scalar T}.

Lemma tile_remote_inv n1 n2 (x t : tensor T) B C Hp Wp :
  shape x = (B, C, Hp, Wp) → rearrange_tile_remote n1 n2 x = Ok t →
  ∃ h1 w1, einops_infer Hp n1 = Ok h1 ∧ einops_infer Wp n2 = Ok w1
    ∧ t = build (B * n1 * n2) C h1 w1 (fun bb c i j =>
            get x (bb `div` (n1 * n2)) c
                  (i * n1 + (bb `div` n2) `mod` n1) (j * n2 + bb `mod` n2)).
Proof.
  unfold rearrange_tile_remote. intros ->.
  destruct (einops_infer Hp n1) as [h1|]; [|done].
  destruct (einops_infer Wp n2) as [w1|]; [|done]. intros [= <-]. eauto.
Qed.

Lemma tile_close_inv n1 n2 (x t : tensor T) B C Hp Wp :
  shape x = (B, C, Hp, Wp) → rearrange_tile_close n1 n2 x = Ok t →
  ∃ h1 w1, einops_infer Hp n1 = Ok h1 ∧ einops_infer Wp n2 = Ok w1
    ∧ t = build (B * n1 * n2) C h1 w1 (fun bb c i j =>
            get x (bb `div` (n1 * n2)) c
                  (((bb `div` n2) `mod` n1) * h1 + i) ((bb `mod` n2) * w1 + j)).
Proof.
  unfold rearrange_tile_close. intros ->.
  destruct (einops_infer Hp n1) as [h1|]; [|done].
  destruct (einops_infer Wp n2) as [w1|]; [|done]. intros [= <-]. eauto.
Qed.

Lemma conv_inv (cv : ConvNormAct_1x1 T) (x y : tensor T) B C Hh W :
  shape x = (B, C, Hh, W) → ConvNormAct_1x1_forward cv x = Ok y →
  C = conv_dim_in cv
  ∧ y = build B (conv_dim_out cv) Hh W (fun b o h w =>
          default t_zero (conv_pixel cv (tab C (fun c => get x b c h w)) !! o)).
Proof.
  unfold ConvNormAct_1x1_forward. intros ->.
  destruct (decide (C = conv_dim_in cv)); [|done]. by intros [= <-].
Qed.

Lemma conv_eq (cv : ConvNormAct_1x1 T) (x : tensor T) B C Hh W :
  shape x = (B, C, Hh, W) → C = conv_dim_in cv →
  ConvNormAct_1x1_forward cv x
  = Ok (build B (conv_dim_out cv) Hh W (fun b o h w =>
          default t_zero (conv_pixel cv (tab C (fun c => get x b c h w)) !! o))).
Proof.
  unfold ConvNormAct_1x1_forward. intros -> HC. by rewrite decide_True.
Qed.

Lemma tile_batch_lt bb B n1 n2 : bb < B * n1 * n2 → bb `div` (n1 * n2) < B.
Proof. intros. apply div_lt_bound. lia. Qed.

Lemma conv_tile_remote (cv : ConvNormAct_1x1 T) n1 n2 (x t y : tensor T) :
  rearrange_tile_remote n1 n2 x = Ok t → ConvNormAct_1x1_forward cv x = Ok y →
  ConvNormAct_1x1_forward cv t = rearrange_tile_remote n1 n2 y.
Proof.
  destruct (shape x) as [[[B C] Hp] Wp] eqn:Hs. intros Ht Hy.
  destruct (tile_remote_inv _ _ _ _ _ _ _ _ Hs Ht) as (h1 & w1 & E1 & E2 & ->).
  destruct (conv_inv _ _ _ _ _ _ _ Hs Hy) as (HC & ->).
  apply einops_infer_inv in E1 as E1'. apply einops_infer_inv in E2 as E2'.
  destruct E1' as (P1 & _ & _ & M1). destruct E2' as (P2 & _ & _ & M2).
  rewrite (conv_eq cv _ (B * n1 * n2) C h1 w1) by done.
  unfold rearrange_tile_remote. rewrite shape_build, E1, E2, !bind_Ok. f_equal.
  apply build_ext. intros bb o i j Hbb Ho Hi Hj.
  assert (bb `div` (n1 * n2) < B) by by apply tile_batch_lt.
  assert (i * n1 + (bb `div` n2) `mod` n1 < Hp).
  { rewrite <- M1. apply compose_lt; [done|by apply mod_lt_bound]. }
  assert (j * n2 + bb `mod` n2 < Wp).
  { rewrite <- M2. apply compose_lt; [done|by apply mod_lt_bound]. }
  rewrite get_build by done. do 3 f_equal.
  apply tab_ext. intros c Hc. by rewrite get_build.
Qed.

Lemma conv_tile_close (cv : ConvNormAct_1x1 T) n1 n2 (x t y : tensor T) :
  rearrange_tile_close n1 n2 x = Ok t → ConvNormAct_1x1_forward cv x = Ok y →
  ConvNormAct_1x1_forward cv t = rearrange_tile_close n1 n2 y.
Proof.
  destruct (shape x) as [[[B C] Hp] Wp] eqn:Hs. intros Ht Hy.
  destruct (tile_close_inv _ _ _ _ _ _ _ _ Hs Ht) as (h1 & w1 & E1 & E2 & ->).
  destruct (conv_inv _ _ _ _ _ _ _ Hs Hy) as (HC & ->).
  apply einops_infer_inv in E1 as E1'. apply einops_infer_inv in E2 as E2'.
  destruct E1' as (P1 & _ & _ & M1). destruct E2' as (P2 & _ & _ & M2).
  rewrite (conv_eq cv _ (B * n1 * n2) C h1 w1) by done.
  unfold rearrange_tile_close. rewrite shape_build, E1, E2, !bind_Ok. f_equal.
  apply build_ext. intros bb o i j Hbb Ho Hi Hj.
  assert (bb `div` (n1 * n2) < B) by by apply tile_batch_lt.
  assert ((bb `div` n2) `mod` n1 * h1 + i < Hp).
  { rewrite <- M1, (Nat.mul_comm h1 n1). apply compose_lt; [by apply mod_lt_bound|done]. }
  assert (bb `mod` n2 * w1 + j < Wp).
  { rewrite <- M2, (Nat.mul_comm w1 n2). apply compose_lt; [by apply mod_lt_bound|done]. }
  rewrite get_build by done. do 3 f_equal.
  apply tab_ext. intros c Hc. by rewrite get_build.
Qed.

End ConvTile.

Section HybridSum.
Context `{Scalar T}.

Lemma conv_defined_remote (cv : ConvNormAct_1x1 T) n1 n2 (x t qt : tensor T) :
  rearrange_tile_remote n1 n2 x = Ok t → ConvNormAct_1x1_forward cv t = Ok qt →
  ∃ y, ConvNormAct_1x1_forward cv x = Ok y.
Proof.
  destruct (shape x) as [[[B C] Hp] Wp] eqn:Hs. intros Ht Hq.
  destruct (tile_remote_inv _ _ _ _ _ _ _ _ Hs Ht) as (h1 & w1 & _ & _ & ->).
  destruct (conv_inv _ _ _ _ _ _ _ (shape_build _ _ _ _ _) Hq) as [HC _].
  eexists. by apply (conv_eq cv x B C Hp Wp).
Qed.

Lemma shape_eq_of (op : result (tensor T)) (sh : result shape4) (y : tensor T) :
  shape <$> op = sh → op = Ok y → sh = Ok (shape y).
Proof. by intros <- ->. Qed.

Lemma crop_add (a b : tensor T) Hh W :
  shape a = shape b →
  crop (tensor_add a b) Hh W = tensor_add (crop a Hh W) (crop b Hh W).
Proof.
  intros Hab. unfold crop, tensor_add. rewrite <- Hab.
  destruct (shape a) as [[[B C] Ha] Wa] eqn:Hsa. rewrite !shape_build.
  apply build_ext. intros b0 c h w Hb Hc Hh' Hw.
  rewrite !get_build by (done || lia). done.
Qed.

Lemma unpad_add p Hh W (a b : tensor T) :
  shape a = shape b →
  unpad p Hh W (tensor_add a b) = tensor_add (unpad p Hh W a) (unpad p Hh W b).
Proof.
  intros Hab. unfold unpad. destruct (_ || _); [by apply crop_add|done].
Qed.

Ltac shape_of Hop lem :=
  let Hsh := fresh "S" in
  pose proof (shape_eq_of _ _ _ lem Hop) as Hsh.

(** The two summands of the hybrid operator have one shape. *)
Lemma hybrid_summands_shape (m : EW_MHSA T) n1 n2 h w
    (qk0 v0 qk_remote qk_close amr amc v_remote v_close xr xr' xc xc' : tensor T) :
  rearrange_tile_remote n1 n2 qk0 = Ok qk_remote →
  rearrange_tile_close n1 n2 qk0 = Ok qk_close →
  attention_map m qk_remote = Ok amr → attention_map m qk_close = Ok amc →
  rearrange_tile_remote n1 n2 v0 = Ok v_remote →
  rearrange_tile_close n1 n2 v0 = Ok v_close →
  attend m h w amr v_remote = Ok xr → rearrange_untile_remote n1 n2 xr = Ok xr' →
  attend m h w amc v_close = Ok xc → rearrange_untile_close n1 n2 xc = Ok xc' →
  shape xr' = shape xc'.
Proof.
  intros Hqr Hqc Har Hac Hvr Hvc Hxr Hxr' Hxc Hxc'.
  shape_of Hqr (shape_tile_remote n1 n2 qk0). shape_of Hqc (shape_tile_close n1 n2 qk0).
  assert (shape qk_remote = shape qk_close) as Eqk by congruence.
  shape_of Har (shape_attention_map m qk_remote). shape_of Hac (shape_attention_map m qk_close).
  assert (shape amr = shape amc) as Eam by congruence.
  shape_of Hvr (shape_tile_remote n1 n2 v0). shape_of Hvc (shape_tile_close n1 n2 v0).
  assert (shape v_remote = shape v_close) as Ev by congruence.
  shape_of Hxr (shape_attend m h w amr v_remote). shape_of Hxc (shape_attend m h w amc v_close).
  assert (shape xr = shape xc) as Ex by congruence.
  shape_of Hxr' (shape_untile_remote n1 n2 xr). shape_of Hxc' (shape_untile_close n1 n2 xc).
  rewrite untile_close_remote_shape in *. congruence.
Qed.

Lemma tiles_one_shape n1 n2 (x tr tc : tensor T) :
  rearrange_tile_remote n1 n2 x = Ok tr → rearrange_tile_close n1 n2 x = Ok tc →
  shape tr = shape tc.
Proof.
  intros Hr Hc.
  shape_of Hr (shape_tile_remote n1 n2 x). shape_of Hc (shape_tile_close n1 n2 x).
  congruence.
Qed.


End HybridSum.

(** A single window: tiling and un-tiling with one window per axis. *)

Section OneWindow.
Context `{Scalar T}.

Lemma einops_infer_1 n : einops_infer n 1 = Ok n.
Proof. rewrite <- (Nat.mul_1_r n) at 1. apply einops_infer_mul. lia. Qed.

Lemma F_pad_zero (x : tensor T) : well_formed x = true → F_pad x 0 0 = x.
Proof.
  intros Hwf. unfold F_pad. destruct (shape x) as [[[B C] Hh] W] eqn:Hs.
  rewrite !Nat.add_0_r. etrans; [|symmetry; by apply well_formed_build].
  apply build_ext. intros b c h w Hb Hc Hh' Hw.
  apply Nat.ltb_lt in Hh', Hw. by rewrite Hh', Hw.
Qed.

Lemma tile_remote_one (x : tensor T) :
  well_formed x = true → rearrange_tile_remote 1 1 x = Ok x.
Proof.
  intros Hwf. unfold rearrange_tile_remote. destruct (shape x) as [[[B C] Hh] W] eqn:Hs.
  rewrite !einops_infer_1, !bind_Ok. f_equal.
  etrans; [|symmetry; by apply well_formed_build]. rewrite !Nat.mul_1_r.
  apply build_ext. intros b c h w _ _ _ _.
  by rewrite !Nat.div_1_r, !Nat.mod_1_r, !Nat.mul_1_r, !Nat.add_0_r.
Qed.

Lemma tile_close_one (x : tensor T) :
  well_formed x = true → rearrange_tile_close 1 1 x = Ok x.
Proof.
  intros Hwf. unfold rearrange_tile_close. destruct (shape x) as [[[B C] Hh] W] eqn:Hs.
  rewrite !einops_infer_1, !bind_Ok. f_equal.
  etrans; [|symmetry; by apply well_formed_build]. rewrite !Nat.mul_1_r.
  apply build_ext. intros b c h w _ _ _ _.
  by rewrite !Nat.div_1_r, !Nat.mod_1_r.
Qed.

Lemma untile_remote_one (x : tensor T) :
  well_formed x = true → rearrange_untile_remote 1 1 x = Ok x.
Proof.
  intros Hwf. unfold rearrange_untile_remote.
  destruct (shape x) as [[[B C] Hh] W] eqn:Hs.
  rewrite !einops_infer_1, !bind_Ok. f_equal.
  etrans; [|symmetry; by apply well_formed_build]. rewrite !Nat.mul_1_r.
  apply build_ext. intros b c h w _ _ _ _.
  by rewrite !Nat.div_1_r, !Nat.mod_1_r, !Nat.mul_1_r, !Nat.add_0_r.
Qed.

Lemma untile_close_one (x : tensor T) :
  well_formed x = true → rearrange_untile_close 1 1 x = Ok x.
Proof.
  intros Hwf. unfold rearrange_untile_close.
  destruct (shape x) as [[[B C] Hh] W] eqn:Hs.
  rewrite !einops_infer_1, !bind_Ok. f_equal.
  etrans; [|symmetry; by apply well_formed_build]. rewrite !Nat.mul_1_l.
  apply build_ext. intros b c h w _ _ Hh' Hw.
  rewrite !Nat.mul_1_r.
  rewrite (Nat.div_small h), (Nat.div_small w), (Nat.mod_small h), (Nat.mod_small w) by done.
  by rewrite !Nat.add_0_r.
Qed.

Lemma conv_well_formed (cv : ConvNormAct_1x1 T) (x y : tensor T) :
  ConvNormAct_1x1_forward cv x = Ok y → well_formed y = true.
Proof.
  unfold ConvNormAct_1x1_forward. destruct (shape x) as [[[B C] Hh] W].
  destruct (decide _); [|done]. intros [= <-]. apply well_formed_built.
Qed.

Lemma attend_well_formed (m : EW_MHSA T) h w (am x y : tensor T) :
  attend m h w am x = Ok y → well_formed y = true.
Proof.
  unfold attend. intros Hy. apply bind_inv in Hy as (xh & _ & Hy).
  unfold rearrange_from_heads in Hy.
  destruct (shape (matmul am xh)) as [[[b hd] n] dv].
  destruct (decide _); [|done]. injection Hy as <-. apply well_formed_built.
Qed.

Lemma branch_well_formed (m : EW_MHSA T) h w (am x y : tensor T) :
  (if attn_pre m then
     x_spa ← attend m h w am x; ConvNormAct_1x1_forward (v m) x_spa
   else
     v ← ConvNormAct_1x1_forward (v m) x; attend m h w am v) = Ok y →
  well_formed y = true.
Proof.
  destruct (attn_pre m); intros Hy; apply bind_inv in Hy as (z & _ & Hy).
  - by eapply conv_well_formed.
  - by eapply attend_well_formed.
Qed.

Lemma unpad_none p Hh W (x : tensor T) :
  pad_r p = 0%Z → pad_b p = 0%Z → unpad p Hh W x = x.
Proof. intros Hr Hb. unfold unpad. by rewrite Hr, Hb. Qed.

Lemma pad_input_none p (x : tensor T) :
  pad_r p = 0%Z → pad_b p = 0%Z → well_formed x = true → pad_input p x = x.
Proof. intros Hr Hb Hwf. unfold pad_input. rewrite Hr, Hb. by apply F_pad_zero. Qed.

Lemma window_padding_nonpos ws Hh W :
  (ws ≤ 0)%Z → 0 < Hh → 0 < W →
  window_padding ws Hh W
  = Ok {| window_size_W := Z.of_nat W; window_size_H := Z.of_nat Hh;
          pad_l := 0; pad_t := 0; pad_r := 0; pad_b := 0; n1 := 1; n2 := 1 |}.
Proof.
  intros Hws HH HW. rewrite window_padding_eq by done.
  destruct (pad_of_nonpos ws Hh Hws HH) as [-> ->].
  destruct (pad_of_nonpos ws W Hws HW) as [-> ->].
  unfold window_of. by destruct (decide (ws ≤ 0)%Z).
Qed.

Lemma Remote_global (m : EW_MHSA T) (x : tensor T) B C Hh W :
  (window_size m ≤ 0)%Z → shape x = (B, C, Hh, W) → well_formed x = true →
  0 < Hh → 0 < W → EW_MHSA_Remote_forward m x = EW_MHSA_global_forward m x.
Proof.
  intros Hws Hs Hwf HH HW. unfold EW_MHSA_Remote_forward, EW_MHSA_global_forward.
  rewrite Hs, window_padding_nonpos, bind_Ok by done.
  rewrite pad_input_none by done. cbn [n1 n2]. change (Z.to_nat 1) with 1.
  rewrite tile_remote_one, bind_Ok, Hs by done.
  destruct (ConvNormAct_1x1_forward (qk m) x) as [qk0|]; [|done]. rewrite !bind_Ok.
  destruct (attention_map m qk0) as [am|]; [|done]. rewrite !bind_Ok.
  destruct (if attn_pre m then _ else _) as [y|] eqn:Hy; [|done].
  rewrite bind_Ok, untile_remote_one, bind_Ok by by eapply branch_well_formed.
  by rewrite unpad_none.
Qed.

Lemma Close_global (m : EW_MHSA T) (x : tensor T) B C Hh W :
  (window_size m ≤ 0)%Z → shape x = (B, C, Hh, W) → well_formed x = true →
  0 < Hh → 0 < W → EW_MHSA_Close_forward m x = EW_MHSA_global_forward m x.
Proof.
  intros Hws Hs Hwf HH HW. unfold EW_MHSA_Close_forward, EW_MHSA_global_forward.
  rewrite Hs, window_padding_nonpos, bind_Ok by done.
  rewrite pad_input_none by done. cbn [n1 n2]. change (Z.to_nat 1) with 1.
  rewrite tile_close_one, bind_Ok, Hs by done.
  destruct (ConvNormAct_1x1_forward (qk m) x) as [qk0|]; [|done]. rewrite !bind_Ok.
  destruct (attention_map m qk0) as [am|]; [|done]. rewrite !bind_Ok.
  destruct (if attn_pre m then _ else _) as [y|] eqn:Hy; [|done].
  rewrite bind_Ok, untile_close_one, bind_Ok by by eapply branch_well_formed.
  by rewrite unpad_none.
Qed.

Lemma Hybrid_global (m : EW_MHSA T) (x : tensor T) B C Hh W :
  (window_size m ≤ 0)%Z → shape x = (B, C, Hh, W) → well_formed x = true →
  0 < Hh → 0 < W → EW_MHSA_Hybrid_forward m x = EW_MHSA_Hybrid_global_forward m x.
Proof.
  intros Hws Hs Hwf HH HW. unfold EW_MHSA_Hybrid_forward, EW_MHSA_Hybrid_global_forward.
  rewrite Hs, window_padding_nonpos, bind_Ok by done.
  rewrite pad_input_none by done. cbn [n1 n2]. change (Z.to_nat 1) with 1.
  rewrite tile_remote_one, bind_Ok, tile_close_one, bind_Ok, Hs by done.
  destruct (ConvNormAct_1x1_forward (qk m) x) as [qk0|] eqn:Hqk; [|done]. rewrite !bind_Ok.
  apply conv_well_formed in Hqk.
  rewrite tile_remote_one, bind_Ok, tile_close_one, bind_Ok by done.
  destruct (attention_map m qk0) as [am|]; [|done]. rewrite !bind_Ok.
  unfold Hybrid_pre_close_branch. destruct (attn_pre m).
  - destruct (attend m Hh W am x) as [a|] eqn:Ha; [|done]. rewrite !bind_Ok.
    apply attend_well_formed in Ha.
    rewrite untile_remote_one, !bind_Ok by done.
    destruct (ConvNormAct_1x1_forward (v m) _) as [y|]; [|done].
    by rewrite bind_Ok, unpad_none.
  - destruct (ConvNormAct_1x1_forward (v m) x) as [v0|] eqn:Hv; [|done]. rewrite !bind_Ok.
    apply conv_well_formed in Hv.
    rewrite tile_remote_one, bind_Ok, tile_close_one, bind_Ok by done.
    destruct (attend m Hh W am v0) as [a|] eqn:Ha; [|done]. rewrite !bind_Ok.
    apply attend_well_formed in Ha.
    rewrite untile_remote_one, !bind_Ok, untile_close_one, !bind_Ok by done.
    by rewrite unpad_none.
Qed.

End OneWindow.

(** The close tiling followed by the remote un-tiling. *)

Section CloseRemote.
Context `{Scalar T}.

Lemma tile_close_untile_remote (x : tensor T) n1 n2 h1 w1 B C :
  shape x = (B, C, n1 * h1, n2 * w1) →
  0 < n1 → 0 < n2 → 0 < h1 → 0 < w1 →
  rearrange_tile_close n1 n2 x ≫= rearrange_untile_remote n1 n2
  = Ok (build B C (h1 * n1) (w1 * n2) (fun b c p q =>
          get x b c (p `mod` n1 * h1 + p `div` n1) (q `mod` n2 * w1 + q `div` n2))).
Proof.
  intros Hs Hn1 Hn2 Hh1 Hw1. unfold rearrange_tile_close. rewrite Hs.
  rewrite !(Nat.mul_comm _ h1), !(Nat.mul_comm _ w1).
  rewrite !einops_infer_mul, !bind_Ok by done.
  unfold rearrange_untile_remote. rewrite shape_build.
  rewrite <- Nat.mul_assoc, einops_infer_mul, bind_Ok by lia. f_equal.
  apply build_ext. intros b c p q Hb Hc Hp Hq.
  assert (p `mod` n1 < n1) by by apply mod_lt_bound.
  assert (q `mod` n2 < n2) by by apply mod_lt_bound.
  rewrite get_build.
  - by rewrite batch_div, batch_mid, mod_compose.
  - rewrite Nat.mul_assoc. apply compose_lt; [|done]. by apply compose_lt.
  - done.
  - by apply div_lt_bound.
  - by apply div_lt_bound.
Qed.

Lemma swap_index_id n h p :
  n = 1 ∨ h = 1 → p < h * n → p `mod` n * h + p `div` n = p.
Proof.
  intros [->| ->] Hp.
  - rewrite Nat.mod_1_r, Nat.div_1_r. lia.
  - rewrite Nat.mod_small, Nat.div_small by lia. lia.
Qed.

Lemma close_remote_round_trip (x : tensor T) n1 n2 h1 w1 B C :
  shape x = (B, C, n1 * h1, n2 * w1) → well_formed x = true →
  0 < n1 → 0 < n2 → 0 < h1 → 0 < w1 →
  (n1 = 1 ∨ h1 = 1) ∧ (n2 = 1 ∨ w1 = 1) →
  rearrange_tile_close n1 n2 x ≫= rearrange_untile_remote n1 n2 = Ok x.
Proof.
  intros Hs Hwf Hn1 Hn2 Hh1 Hw1 [Hr Hc].
  rewrite (tile_close_untile_remote x n1 n2 h1 w1 B C) by done. f_equal.
  rewrite (Nat.mul_comm n1 h1), (Nat.mul_comm n2 w1) in Hs.
  etrans; [|symmetry; by apply well_formed_build].
  apply build_ext. intros b c p q _ _ Hp Hq.
  by rewrite !swap_index_id.
Qed.

(** A tensor with one marked row, and one with one marked column. *)
Lemma close_remote_scrambles_rows (a0 b0 : T) n1 n2 h1 w1 B C :
  a0 ≠ b0 → 0 < B → 0 < C → 0 < n2 → 0 < w1 → 1 < n1 → 1 < h1 →
  let x := build B C (n1 * h1) (n2 * w1) (fun b c p q => if decide (p = 1) then a0 else b0) in
  rearrange_tile_close n1 n2 x ≫= rearrange_untile_remote n1 n2 ≠ Ok x.
Proof.
  intros Hab HB HC Hn2 Hw1 Hn1 Hh1 x.
  rewrite (tile_close_untile_remote x n1 n2 h1 w1 B C) by (done || lia).
  intros Heq.
  apply (f_equal (fun r => match r with Ok t => get t 0 0 1 0 | Raise _ => a0 end)) in Heq.
  rewrite (Nat.mul_comm h1 n1), (Nat.mul_comm w1 n2) in Heq.
  unfold x in Heq at 2. rewrite !get_build in Heq by nia.
  rewrite (Nat.mod_small 1 n1), (Nat.div_small 1 n1) in Heq by lia.
  rewrite Nat.Div0.mod_0_l, Nat.Div0.div_0_l in Heq.
  unfold x in Heq. rewrite get_build in Heq by nia.
  rewrite decide_False, decide_True in Heq by lia. done.
Qed.

Lemma close_remote_scrambles_cols (a0 b0 : T) n1 n2 h1 w1 B C :
  a0 ≠ b0 → 0 < B → 0 < C → 0 < n1 → 0 < h1 → 1 < n2 → 1 < w1 →
  let x := build B C (n1 * h1) (n2 * w1) (fun b c p q => if decide (q = 1) then a0 else b0) in
  rearrange_tile_close n1 n2 x ≫= rearrange_untile_remote n1 n2 ≠ Ok x.
Proof.
  intros Hab HB HC Hn1 Hh1 Hn2 Hw1 x.
  rewrite (tile_close_untile_remote x n1 n2 h1 w1 B C) by (done || lia).
  intros Heq.
  apply (f_equal (fun r => match r with Ok t => get t 0 0 0 1 | Raise _ => a0 end)) in Heq.
  rewrite (Nat.mul_comm h1 n1), (Nat.mul_comm w1 n2) in Heq.
  unfold x in Heq at 2. rewrite !get_build in Heq by nia.
  rewrite (Nat.mod_small 1 n2), (Nat.div_small 1 n2) in Heq by lia.
  rewrite Nat.Div0.mod_0_l, Nat.Div0.div_0_l in Heq.
  unfold x in Heq. rewrite get_build in Heq by nia.
  rewrite decide_False, decide_True in Heq by lia. done.
Qed.

End CloseRemote.

(** The block constructor. *)

Lemma iiRMB_init_has_skip a blk :
  iiRMB_init a = Ok blk →
  has_skip blk
  = (bool_decide (arg_dim_in a = arg_dim_out a) && bool_decide (arg_stride a = 1))
    && arg_has_skip a.
Proof.
  unfold iiRMB_init. intros Hb.
  apply bind_inv in Hb as (nm & _ & Hb). apply bind_inv in Hb as (es & _ & Hb).
  apply bind_inv in Hb as (cl & _ & Hb). apply bind_inv in Hb as (pj & _ & Hb).
  by injection Hb as <-.
Qed.

Lemma make_eop_unknown a dim_mid t : known_tag t = false → make_eop a dim_mid t = Ok None.
Proof.
  unfold known_tag. intros Hk. apply bool_decide_eq_false in Hk. unfold make_eop.
  repeat (destruct (decide _); [lia|]). done.
Qed.

Lemma make_eops_filter a dim_mid tags :
  make_eops a dim_mid tags = make_eops a dim_mid (List.filter known_tag tags).
Proof.
  induction tags as [|t tags IH]; [done|]. simpl.
  destruct (known_tag t) eqn:Hk.
  - simpl. by rewrite IH.
  - rewrite make_eop_unknown, bind_Ok, <- IH by done.
    by destruct (make_eops a dim_mid tags).
Qed.

Lemma make_eops_unknown a dim_mid tags :
  List.filter known_tag tags = [] → make_eops a dim_mid tags = Ok [].
Proof. intros Hf. by rewrite make_eops_filter, Hf. Qed.

Lemma make_eops_with a tags dim_mid l :
  make_eops (with_hybrid_eops a tags) dim_mid l = make_eops a dim_mid l.
Proof. induction l as [|t l IH]; [done|]. simpl. by rewrite IH. Qed.


Lemma iiRMB_init_filter a :
  block_structure <$> iiRMB_init a
  = block_structure
      <$> iiRMB_init (with_hybrid_eops a (List.filter known_tag (arg_hybrid_eops a))).
Proof.
  unfold iiRMB_init. cbn [with_hybrid_eops arg_norm_in arg_norm_layer arg_dim_in
    arg_exp_ratio arg_dim_out arg_stride arg_has_skip arg_hybrid_eops arg_dw_ks].
  destruct (if arg_norm_in a then _ else _) as [nm|]; [|done]. rewrite !bind_Ok.
  rewrite make_eops_with, <- make_eops_filter.
  destruct (make_eops a _ _) as [es|]; [|done]. rewrite !bind_Ok.
  destruct (if decide (arg_dw_ks a > 0)%Z then _ else _) as [cl|]; [|done].
  rewrite !bind_Ok. by destruct (ConvNormAct_init _ _ _ _ _ _ _).
Qed.

Lemma iiRMB_init_no_known_tag a :
  List.filter known_tag (arg_hybrid_eops a) = [] →
  (arg_norm_in a = true → is_ok (get_norm (arg_norm_layer a)) = true) →
  ∃ blk, iiRMB_init a = Ok blk ∧ eops blk = [].
Proof.
  intros Hf Hn. unfold iiRMB_init.
  assert (∃ nm, (if arg_norm_in a then get_norm (arg_norm_layer a) else Ok NormIdentity)
                = Ok nm) as [nm ->].
  { destruct (arg_norm_in a); [|eauto]. destruct (get_norm _); [eauto|]. by discriminate Hn. }
  rewrite bind_Ok, make_eops_unknown, bind_Ok by done.
  destruct (decide (arg_dw_ks a > 0)%Z); eexists; split; reflexivity.
Qed.

Lemma iiRMB_forward_no_eops cs blk x :
  eops blk = [] → iiRMB_forward_shape cs blk x = Raise IndexError.
Proof. intros He. unfold iiRMB_forward_shape. by rewrite He. Qed.

(** The shape functions depend on the spatial rule of [ConvNormAct] only
    through its values. *)

Lemma mapM_result_ext {A B} (f g : A → result B) (l : list A) :
  (∀ a, f a = g a) → mapM_result f l = mapM_result g l.
Proof. intros Hfg. induction l as [|a l IH]; [done|]. simpl. by rewrite Hfg, IH. Qed.

Lemma foldM_result_ext {A B} (f g : B → A → result B) (l : list A) (b : B) :
  (∀ b a, f b a = g b a) → foldM_result f l b = foldM_result g l b.
Proof.
  intros Hfg. revert b. induction l as [|a l IH]; intros b; [done|]. simpl.
  rewrite Hfg. destruct (g b a); [|done]. apply IH.
Qed.

Section ShapeExt.
Variables cs cs' : Z → nat → nat → nat.
Hypothesis cs_eq : ∀ k s n, cs k s n = cs' k s n.

Lemma ConvNormAct_forward_shape_ext c s :
  ConvNormAct_forward_shape cs c s = ConvNormAct_forward_shape cs' c s.
Proof. unfold ConvNormAct_forward_shape. destruct s as [[[B C] Hh] W]. by rewrite !cs_eq. Qed.

Lemma eop_forward_shape_ext e s : eop_forward_shape cs e s = eop_forward_shape cs' e s.
Proof. destruct e; [apply ConvNormAct_forward_shape_ext|done..]. Qed.

Lemma iiRMB_forward_shape_ext blk x :
  iiRMB_forward_shape cs blk x = iiRMB_forward_shape cs' blk x.
Proof.
  unfold iiRMB_forward_shape.
  rewrite (mapM_result_ext _ (fun eop => eop_forward_shape cs' eop x))
    by (intros e; apply eop_forward_shape_ext).
  destruct (mapM_result _ _) as [xs|]; [|done]. rewrite !bind_Ok.
  destruct (if bool_decide _ then _ else _) as [x0|]; [|done]. rewrite !bind_Ok.
  destruct (conv_local blk) as [c|].
  - rewrite ConvNormAct_forward_shape_ext.
    destruct (ConvNormAct_forward_shape cs' c x0) as [x_l|]; [|done]. rewrite !bind_Ok.
    destruct (if has_skip blk then _ else _) as [x1|]; [|done]. rewrite !bind_Ok.
    by rewrite ConvNormAct_forward_shape_ext.
  - rewrite !bind_Ok.
    destruct (if has_skip blk then _ else _) as [x1|]; [|done]. rewrite !bind_Ok.
    by rewrite ConvNormAct_forward_shape_ext.
Qed.

Lemma run_stage_ext blks x : run_stage cs blks x = run_stage cs' blks x.
Proof. apply foldM_result_ext. intros b a. apply iiRMB_forward_shape_ext. Qed.

Lemma EMO2_forward_shape_ext m x :
  EMO2_forward_shape cs m x = EMO2_forward_shape cs' m x.
Proof.
  unfold EMO2_forward_shape.
  rewrite (foldM_result_ext _ (fun x blk => ConvNormAct_forward_shape cs' blk x))
    by (intros b a; apply ConvNormAct_forward_shape_ext).
  destruct (foldM_result _ (stage0 m) x) as [x0|]; [|done]. rewrite !bind_Ok.
  destruct (getattr_stage m 1) as [b1|]; [|done]. rewrite !bind_Ok, run_stage_ext.
  destruct (run_stage cs' b1 x0) as [x1|]; [|done]. rewrite !bind_Ok.
  destruct (getattr_stage m 2) as [b2|]; [|done]. rewrite !bind_Ok, run_stage_ext.
  destruct (run_stage cs' b2 x1) as [x2|]; [|done]. rewrite !bind_Ok.
  destruct (getattr_stage m 3) as [b3|]; [|done]. rewrite !bind_Ok, run_stage_ext.
  destruct (run_stage cs' b3 x2) as [x3|]; [|done]. rewrite !bind_Ok.
  destruct (getattr_stage m 4) as [b4|]; [|done]. rewrite !bind_Ok, run_stage_ext.
  by destruct (run_stage cs' b4 x3) as [x4|].
Qed.

End ShapeExt.


Lemma spec_conv_out_size_eq (cs : Z → nat → nat → nat) :
  (∀ k n, odd_kernel k → cs k 1 n = n) →
  (∀ k n, odd_kernel k → cs k 2 (2 * n) = n) →
  ∀ k s n, cs k s n = spec_conv_out_size cs k s n.
Proof.
  intros H1 H2 k s n. unfold spec_conv_out_size.
  destruct (decide (odd_kernel k)) as [Hk|]; [|done].
  destruct (decide (s = 1)) as [->|]; [by apply H1|].
  destruct (decide _) as [[-> He]|]; [|done].
  apply Nat.even_spec in He as [j ->]. rewrite H2 by done.
  by rewrite Nat.mul_comm, Nat.div_mul.
Qed.

(** The default model on a 224 x 224 image. *)
Lemma EMO2_default_shapes (cs : Z → nat → nat → nat) :
  (∀ k n, odd_kernel k → cs k 1 n = n) →
  (∀ k n, odd_kernel k → cs k 2 (2 * n) = n) →
  (m ← EMO2_init (EMO2_default_args [0; 1; 2; 3; 4]%Z);
   EMO2_forward_shape cs m (1, 3, 224, 224))
  = Ok [(1, 32, 112, 112); (1, 64, 56, 56); (1, 128, 28, 28);
        (1, 256, 14, 14); (1, 512, 7, 7)].
Proof.
  intros H1 H2.
  destruct (EMO2_init _) as [m|] eqn:E; [|by vm_compute in E].
  rewrite bind_Ok.
  rewrite (EMO2_forward_shape_ext cs _ (spec_conv_out_size_eq cs H1 H2)).
  vm_compute in E. injection E as <-. vm_compute. reflexivity.
Qed.

(** Checkpoint loading. *)

Lemma update_matching_lookup (items : list (string * array))
    (dst : gmap string array) (k : string) :
  NoDup items.*1 →
  update_matching dst items !! k
  = match dst !! k with
    | Some d => Some (default d ((list_to_map items : gmap string array) !! k))
    | None => None
    end.
Proof.
  unfold update_matching. revert dst.
  induction items as [|[k0 v0] items IH]; intros dst Hnd; simpl.
  - rewrite lookup_empty. by destruct (dst !! k).
  - apply NoDup_cons in Hnd as [Hk0 Hnd]. rewrite IH by done.
    destruct (decide (k = k0)) as [->|Hne].
    + rewrite lookup_insert_eq.
      assert ((list_to_map items : gmap string array) !! k0 = None) as ->.
      { by apply not_elem_of_list_to_map_1. }
      destruct (decide (is_Some (dst !! k0))) as [[d Hd]|Hn].
      * by rewrite lookup_insert_eq, Hd.
      * apply eq_None_not_Some in Hn. by rewrite Hn.
    + rewrite (lookup_insert_ne _ k0 k) by done.
      destruct (decide (is_Some (dst !! k0))); [|done].
      by rewrite lookup_insert_ne.
Qed.

Lemma merged_lookup (params sd : gmap string array) (k : string) :
  update_matching params (map_to_list sd) !! k
  = match params !! k with
    | Some p => Some (default p (sd !! k))
    | None => None
    end.
Proof.
  rewrite update_matching_lookup by apply NoDup_fst_map_to_list.
  by rewrite list_to_map_to_list.
Qed.

Lemma merged_dom (params sd : gmap string array) :
  dom (update_matching params (map_to_list sd)) = dom params.
Proof.
  apply set_eq. intros k. rewrite !elem_of_dom, merged_lookup.
  destruct (params !! k); [|done]. split; eauto.
Qed.

Lemma merged_sizes (params sd : gmap string array) :
  map_Forall (fun k p => shape_matches (update_matching params (map_to_list sd)) k p = true)
    params
  ↔ shapes_agree params sd.
Proof.
  unfold shapes_agree, shape_matches. split.
  - intros Hall k p t Hp Ht. specialize (Hall k p Hp). simpl in Hall.
    rewrite merged_lookup, Hp, Ht in Hall. simpl in Hall.
    by apply bool_decide_eq_true in Hall.
  - intros Hag k p Hp. simpl. rewrite merged_lookup, Hp.
    destruct (sd !! k) as [t|] eqn:Ht; simpl; apply bool_decide_eq_true; eauto.
Qed.

Lemma init_weights_params (params sd : gmap string array) :
  (_init_weights params (Some sd)).1 = (merge_policy_spec params sd).1.
Proof.
  unfold _init_weights, load_state_dict, merge_policy_spec. simpl.
  apply map_eq. intros k. rewrite !map_lookup_imap.
  destruct (params !! k) as [p|] eqn:Hp; [|done]. simpl.
  unfold shape_matches. rewrite merged_lookup, Hp.
  destruct (sd !! k) as [t|]; simpl.
  - destruct (decide (arr_shape t = arr_shape p)) as [E|E].
    + by rewrite bool_decide_eq_true_2.
    + by rewrite bool_decide_eq_false_2.
  - by rewrite bool_decide_eq_true_2.
Qed.

Lemma init_weights_outcome (params sd : gmap string array) :
  ((_init_weights params (Some sd)).2 = Ok () ↔ shapes_agree params sd)
  ∧ ((_init_weights params (Some sd)).2 = Raise RuntimeError ↔ ¬ shapes_agree params sd).
Proof.
  unfold _init_weights, load_state_dict. cbn [snd].
  rewrite merged_dom, (bool_decide_eq_true_2 (dom params = dom params)), andb_true_r by done.
  destruct (bool_decide _) eqn:E.
  - apply bool_decide_eq_true in E. apply merged_sizes in E. split; split; done.
  - apply bool_decide_eq_false in E. rewrite merged_sizes in E. split; split; done.
Qed.

(** Freezing and the train-mode toggle. *)

Lemma module_ind' (P : module → Prop) :
  (∀ k t ps cs, Forall P cs → P (Module k t ps cs)) → ∀ m, P m.
Proof.
  intros Hstep. fix IH 1. intros [k t ps cs]. apply Hstep.
  induction cs as [|c cs IHcs]; constructor; [apply IH|apply IHcs].
Qed.


Lemma elem_of_concat_map {A B} (f : A → list B) (l : list A) (y : B) :
  y ∈ concat (map f l) ↔ ∃ a, a ∈ l ∧ y ∈ f a.
Proof.
  induction l as [|a l IH]; simpl.
  - split; [by intros ?%elem_of_nil|]. by intros (a & ?%elem_of_nil & _).
  - rewrite elem_of_app, IH. split.
    + intros [Hy|(a' & Ha' & Hy)]; [exists a|exists a']; split; try done.
      * apply list_elem_of_here.
      * by apply list_elem_of_further.
    + intros (a' & Ha' & Hy). apply elem_of_cons in Ha' as [->|Ha']; eauto.
Qed.

Lemma elem_of_map {A B} (f : A → B) (l : list A) (y : B) :
  y ∈ map f l ↔ ∃ a, y = f a ∧ a ∈ l.
Proof. apply (list_elem_of_fmap f l y). Qed.

Lemma modules_train mode m x : x ∈ modules (Module_train mode m) → training x = mode.
Proof.
  revert x. induction m as [k t ps cs IH] using module_ind'. intros x. simpl.
  rewrite elem_of_cons, elem_of_concat_map.
  intros [->|(c & Hc & Hx)]; [done|].
  apply elem_of_map in Hc as (c0 & -> & Hc0).
  rewrite Forall_forall in IH. by eapply IH.
Qed.

Lemma parameters_train mode m : parameters (Module_train mode m) = parameters m.
Proof.
  induction m as [k t ps cs IH] using module_ind'. simpl. f_equal. f_equal.
  rewrite map_map. apply map_ext_Forall. done.
Qed.

Lemma all_eval_Module_eval m : all_eval (Module_eval m).
Proof. intros x Hx. by apply modules_train in Hx. Qed.

Lemma modules_freeze m x :
  x ∈ modules (freeze_parameters m) →
  ∃ y, y ∈ modules m ∧ kind x = kind y ∧ training x = training y.
Proof.
  revert x. induction m as [k t ps cs IH] using module_ind'. intros x. simpl.
  rewrite elem_of_cons, elem_of_concat_map.
  intros [->|(c & Hc & Hx)].
  - eexists. split; [apply list_elem_of_here|done].
  - apply elem_of_map in Hc as (c0 & -> & Hc0).
    rewrite Forall_forall in IH. destruct (IH c0 Hc0 x Hx) as (y & Hy & Hky).
    exists y. split; [|done]. apply list_elem_of_further.
    apply elem_of_concat_map. eauto.
Qed.

Lemma parameters_freeze m p : p ∈ parameters (freeze_parameters m) → requires_grad p = false.
Proof.
  revert p. induction m as [k t ps cs IH] using module_ind'. intros p. simpl.
  rewrite elem_of_app, elem_of_concat_map.
  intros [Hp|(c & Hc & Hp)].
  - apply list_elem_of_fmap in Hp as (q & -> & _). done.
  - apply elem_of_map in Hc as (c0 & -> & Hc0).
    rewrite Forall_forall in IH. by eapply IH.
Qed.

Lemma all_eval_freeze m : all_eval m → all_eval (freeze_parameters m).
Proof.
  intros He x Hx. apply modules_freeze in Hx as (y & Hy & _ & ->). by apply He.
Qed.

Lemma parameters_eval_batchnorms m : parameters (eval_batchnorms m) = parameters m.
Proof.
  induction m as [k t ps cs IH] using module_ind'.
  destruct k; simpl; f_equal; f_equal; rewrite map_map; apply map_ext_Forall;
    try done.
  eapply Forall_impl; [done|]. intros c _. apply (parameters_train false c).
Qed.

Lemma all_eval_eval_batchnorms m : all_eval m → all_eval (eval_batchnorms m).
Proof.
  unfold all_eval. induction m as [k t ps cs IH] using module_ind'. intros He x.
  destruct k.
  - intros Hx. by apply (modules_train false) in Hx.
  - simpl. rewrite elem_of_cons, elem_of_concat_map.
    intros [->|(c & Hc & Hx)].
    + apply (He (Module LayerNorm t ps cs)). apply list_elem_of_here.
    + apply elem_of_map in Hc as (c0 & -> & Hc0).
      rewrite Forall_forall in IH. apply (IH c0 Hc0); [|done].
      intros y Hy. apply He. simpl. apply list_elem_of_further.
      apply elem_of_concat_map. eauto.
  - simpl. rewrite elem_of_cons, elem_of_concat_map.
    intros [->|(c & Hc & Hx)].
    + apply (He (Module OtherLayer t ps cs)). apply list_elem_of_here.
    + apply elem_of_map in Hc as (c0 & -> & Hc0).
      rewrite Forall_forall in IH. apply (IH c0 Hc0); [|done].
      intros y Hy. apply He. simpl. apply list_elem_of_further.
      apply elem_of_concat_map. eauto.
Qed.


Lemma frozen_freeze m : frozen (freeze_parameters (Module_eval m)).
Proof.
  split; [intros p; apply parameters_freeze|].
  apply all_eval_freeze, all_eval_Module_eval.
Qed.

Lemma frozen_eval_batchnorms m : frozen m → frozen (eval_batchnorms m).
Proof.
  intros [Hp He]. split; [|by apply all_eval_eval_batchnorms].
  unfold params_frozen. by rewrite parameters_eval_batchnorms.
Qed.

Lemma frozen_norms m : frozen m → params_frozen m ∧ norms_in_eval m.
Proof. intros [Hp He]. split; [done|]. intros x Hx _. by apply He. Qed.


Lemma stages_all_frozen_weaken s : stages_all_frozen s → stages_frozen s.
Proof.
  intros Hs i Hi. destruct (Hs i Hi) as (m & Hm & Hf). exists m.
  split; [done|]. by apply frozen_norms.
Qed.

Lemma freeze_loop_ok todo s :
  (∀ i, i ∈ todo → i < length (stage_modules s)) →
  ∃ sts, freeze_loop todo s = (with_stages s sts, Ok ())
    ∧ length sts = length (stage_modules s)
    ∧ (∀ i, i ∈ todo → ∃ m, sts !! i = Some m ∧ frozen m)
    ∧ (∀ i m, stage_modules s !! i = Some m → frozen m →
         ∃ m', sts !! i = Some m' ∧ frozen m').
Proof.
  revert s. induction todo as [|i todo IH]; intros s Hlt.
  - exists (stage_modules s). destruct s. simpl. repeat split; eauto.
    intros i Hi. by apply elem_of_nil in Hi.
  - simpl. assert (i < length (stage_modules s)) as Hi by (apply Hlt; left).
    destruct (lookup_lt_is_Some_2 _ _ Hi) as [m Hm]. rewrite Hm.
    set (m' := freeze_parameters (Module_eval m)).
    set (s' := with_stages s (<[i:=m']> (stage_modules s))).
    destruct (IH s') as (sts & Hrun & Hlen & Hdone & Hkeep).
    { intros j Hj. simpl. rewrite length_insert. apply Hlt. by right. }
    exists sts. split; [by rewrite Hrun|]. simpl in Hlen. rewrite length_insert in Hlen.
    split; [done|]. split.
    + intros j Hj. apply elem_of_cons in Hj as [->|Hj]; [|by apply Hdone].
      apply (Hkeep i m'); [|apply frozen_freeze].
      simpl. by apply list_lookup_insert_eq.
    + intros j mj Hj Hfj. destruct (decide (j = i)) as [->|Hne].
      * apply (Hkeep i m'); [|apply frozen_freeze].
        simpl. by apply list_lookup_insert_eq.
      * apply (Hkeep j mj); [|done]. simpl. by rewrite list_lookup_insert_ne.
Qed.


Lemma freeze_stages_ok s :
  stages_exist s →
  ∃ sts, _freeze_stages s = (with_stages s sts, Ok ())
    ∧ length sts = length (stage_modules s)
    ∧ stages_all_frozen (with_stages s sts).
Proof.
  intros Hex. unfold _freeze_stages, frozen_range.
  destruct (freeze_loop_ok (seq 0 (Z.to_nat (frozen_stages s + 1))) s)
    as (sts & Hrun & Hlen & Hdone & _).
  { intros i Hi. apply elem_of_seq in Hi. unfold stages_exist in Hex. lia. }
  exists sts. repeat split; [done..|].
  intros i Hi. simpl in *. apply Hdone. apply elem_of_seq. lia.
Qed.

Lemma train_ok mode s :
  stages_exist s →
  ∃ sts, train mode s
         = ({| self_training := mode; stage_modules := sts;
               frozen_stages := frozen_stages s; norm_eval := norm_eval s |}, Ok ())
    ∧ length sts = length (stage_modules s)
    ∧ stages_all_frozen
        {| self_training := mode; stage_modules := sts;
           frozen_stages := frozen_stages s; norm_eval := norm_eval s |}.
Proof.
  intros Hex. unfold train.
  destruct (freeze_stages_ok (super_train mode s)) as (sts & Hrun & Hlen & Hfr).
  { unfold stages_exist, super_train in *. simpl. by rewrite length_fmap. }
  rewrite Hrun. simpl in Hlen. rewrite length_fmap in Hlen.
  destruct (mode && _).
  - exists (eval_batchnorms <$> sts). split; [done|]. rewrite length_fmap.
    split; [done|]. intros i Hi. destruct (Hfr i Hi) as (m & Hm & Hf). simpl in *.
    exists (eval_batchnorms m). rewrite list_lookup_fmap, Hm.
    split; [done|]. by apply frozen_eval_batchnorms.
  - exists sts. done.
Qed.

Lemma train_all_ok modes s :
  stages_exist s → stages_all_frozen s →
  ∃ s', train_all modes s = (s', Ok ())
    ∧ frozen_stages s' = frozen_stages s ∧ norm_eval s' = norm_eval s
    ∧ length (stage_modules s') = length (stage_modules s)
    ∧ stages_all_frozen s'.
Proof.
  revert s. induction modes as [|mode modes IH]; intros s Hex Hfr.
  - exists s. done.
  - simpl. destruct (train_ok mode s Hex) as (sts & -> & Hlen & Hfr').
    match goal with |- context [train_all modes ?s1] => destruct (IH s1) as (s' & Hrun & Hk & Hn & Hl & Hf) end.
    { unfold stages_exist in *. simpl. by rewrite Hlen. }
    { done. }
    exists s'. simpl in *. repeat split; try done. by rewrite Hl.
Qed.

(** The constructor of the attention classes. *)

Section Constructor.
Context {T : Type}.

Lemma EW_MHSA_init_inv dim_in dim_mid dim_head ws pre (sc : T) qkp vp m :
  EW_MHSA_init dim_in dim_mid dim_head ws pre sc qkp vp = Ok m →
  0 < dim_head
  ∧ cfg_of m
    = {| a_dim_head := dim_head; a_window_size := ws;
         a_num_head := dim_in `div` dim_head; a_attn_pre := pre;
         a_qk := (dim_in, dim_in * 2); a_v := (dim_in, dim_mid) |}.
Proof.
  unfold EW_MHSA_init, py_floordiv.
  destruct (decide (Z.of_nat dim_head = 0%Z)); [done|]. rewrite bind_Ok.
  intros [= <-]. split; [lia|]. unfold cfg_of. cbn.
  by rewrite <- Nat2Z.inj_div, Nat2Z.id.
Qed.

(** The shape-level constructor builds the configuration of the module
    the data-level constructor builds. *)
Lemma EW_MHSA_cfg_init_agrees dim_in dim_mid act dim_head ws pre (sc : T) qkp vp m a :
  EW_MHSA_init dim_in dim_mid dim_head ws pre sc qkp vp = Ok m →
  EW_MHSA_cfg_init dim_in dim_mid act dim_head ws pre = Ok a →
  cfg_of m = a.
Proof.
  intros Hm Ha. apply EW_MHSA_init_inv in Hm as [Hd ->].
  unfold EW_MHSA_cfg_init, py_floordiv in Ha.
  destruct (decide (Z.of_nat dim_head = 0%Z)); [done|]. rewrite bind_Ok in Ha.
  apply bind_inv in Ha as (c1 & H1 & Ha). apply bind_inv in Ha as (c2 & H2 & Ha).
  injection Ha as <-.
  unfold ConvNormAct_init in H1, H2.
  apply bind_inv in H1 as (? & _ & H1). apply bind_inv in H1 as (? & _ & H1).
  apply bind_inv in H2 as (? & _ & H2). apply bind_inv in H2 as (? & _ & H2).
  injection H1 as <-. injection H2 as <-. cbn.
  by rewrite <- Nat2Z.inj_div, Nat2Z.id.
Qed.

(** The arguments under which the constructed module accepts inputs of
    [dim_in] channels: the head size divides [dim_in], and the head count
    divides the channels the heads are cut from. *)
Lemma EW_MHSA_init_channels_fit dim_in dim_mid dim_head ws pre (sc : T) qkp vp m :
  EW_MHSA_init dim_in dim_mid dim_head ws pre sc qkp vp = Ok m →
  0 < dim_in → dim_in `mod` dim_head = 0 →
  (if pre then dim_in else dim_mid) `mod` (dim_in `div` dim_head) = 0 →
  channels_fit (cfg_of m) dim_in.
Proof.
  intros Hm Hin Hdiv Hheads. apply EW_MHSA_init_inv in Hm as [Hd ->].
  unfold channels_fit. cbn.
  pose proof (mul_div_exact dim_in dim_head Hd Hdiv) as E.
  repeat split; try done; [lia|]. destruct (dim_in `div` dim_head); lia.
Qed.

End Constructor.

Lemma demo_attn_init pre ws :
  EW_MHSA_init 2 2 1 ws pre 3%Z demo_qk_pixel demo_v_pixel = Ok (demo_attn pre ws).
Proof. reflexivity. Qed.

(** On a 4 x 4 image with window size 2 the close branch of the hybrid
    operator under [attn_pre] is not what the close merge of the same
    attended tiles is. *)
Lemma hybrid_pre_close_branch_on_demo_image :
  (x_close ← rearrange_tile_close 2 2 (demo_image 4 4);
   qk0 ← ConvNormAct_1x1_forward (qk (demo_attn true 2)) x_close;
   attn_map ← attention_map (demo_attn true 2) qk0;
   Hybrid_pre_close_branch (demo_attn true 2) 2 2 2 2 attn_map x_close)
  ≠ (x_close ← rearrange_tile_close 2 2 (demo_image 4 4);
     qk0 ← ConvNormAct_1x1_forward (qk (demo_attn true 2)) x_close;
     attn_map ← attention_map (demo_attn true 2) qk0;
     x_spa_close ← attend (demo_attn true 2) 2 2 attn_map x_close;
     rearrange_untile_close 2 2 x_spa_close).
Proof. vm_compute. discriminate. Qed.

(** * Properties of the specification *)

Section AttentionClaims.
Context `{Scalar T}.

(** C1. With [attn_pre = false] and dropout inactive, the hybrid operator
    and the two standalone operators built on the same weights (one module
    [m] with its shared [qk] and [v] projections) agree on every input
    tensor [x]: the hybrid operator returns a tensor exactly when the
    remote and the close operator both do, and what it returns is the
    elementwise sum of what they return. *)
Theorem hybrid_is_sum_of_remote_and_close (m : EW_MHSA T) (x y : tensor T) :
  attn_pre m = false →
  EW_MHSA_Hybrid_forward m x = Ok y ↔
  ∃ r c, EW_MHSA_Remote_forward m x = Ok r ∧ EW_MHSA_Close_forward m x = Ok c
         ∧ y = tensor_add r c.
Proof.
  intros Hpre. unfold EW_MHSA_Hybrid_forward, EW_MHSA_Remote_forward, EW_MHSA_Close_forward.
  rewrite Hpre. destruct (shape x) as [[[B C] Hh] W] eqn:Hs.
  destruct (window_padding _ _ _) as [p|]; [|split; [done|by intros (?&?&?&?)]].
  rewrite !bind_Ok.
  set (xp := pad_input p x). set (k1 := Z.to_nat (n1 p)). set (k2 := Z.to_nat (n2 p)).
  split.
  - intros Hy.
    apply bind_inv in Hy as (x_remote & Htr & Hy).
    apply bind_inv in Hy as (x_close & Htc & Hy).
    apply bind_inv in Hy as (qk0 & Hqk & Hy).
    apply bind_inv in Hy as (qk_remote & Hqr & Hy).
    apply bind_inv in Hy as (qk_close & Hqc & Hy).
    pose proof (tiles_one_shape _ _ _ _ _ Htr Htc) as Etile.
    destruct (shape x_remote) as [[[b c] h] w] eqn:Hsr.
    apply bind_inv in Hy as (amr & Har & Hy).
    apply bind_inv in Hy as (amc & Hac & Hy).
    apply bind_inv in Hy as (x_spa & Hy & Hret). injection Hret as <-.
    apply bind_inv in Hy as (v0 & Hv & Hy).
    apply bind_inv in Hy as (v_remote & Hvr & Hy).
    apply bind_inv in Hy as (v_close & Hvc & Hy).
    apply bind_inv in Hy as (xr & Hxr & Hy).
    apply bind_inv in Hy as (xr' & Hxr' & Hy).
    apply bind_inv in Hy as (xc & Hxc & Hy).
    apply bind_inv in Hy as (xc' & Hxc' & Hy). injection Hy as <-.
    exists (unpad p Hh W xr'), (unpad p Hh W xc'). split; [|split].
    + rewrite Htr, bind_Ok, Hsr.
      rewrite (conv_tile_remote _ _ _ _ _ _ Htr Hqk), Hqr, bind_Ok, Har, bind_Ok.
      rewrite (conv_tile_remote _ _ _ _ _ _ Htr Hv), Hvr, bind_Ok, Hxr, bind_Ok.
      by rewrite Hxr', bind_Ok.
    + rewrite Htc, bind_Ok, <- Etile.
      rewrite (conv_tile_close _ _ _ _ _ _ Htc Hqk), Hqc, bind_Ok, Hac, bind_Ok.
      rewrite (conv_tile_close _ _ _ _ _ _ Htc Hv), Hvc, bind_Ok, Hxc, bind_Ok.
      by rewrite Hxc', bind_Ok.
    + apply unpad_add.
      by apply (hybrid_summands_shape m k1 k2 h w qk0 v0 qk_remote qk_close amr amc
                  v_remote v_close xr xr' xc xc').
  - intros (r & c0 & Hr & Hc & ->).
    apply bind_inv in Hr as (x_remote & Htr & Hr).
    apply bind_inv in Hc as (x_close & Htc & Hc).
    pose proof (tiles_one_shape _ _ _ _ _ Htr Htc) as Etile.
    rewrite <- Etile in Hc.
    destruct (shape x_remote) as [[[b c] h] w] eqn:Hsr.
    apply bind_inv in Hr as (qk_remote & Hqr & Hr).
    apply bind_inv in Hr as (amr & Har & Hr).
    apply bind_inv in Hr as (xr & Hr & Hr').
    apply bind_inv in Hr as (v_remote & Hvr & Hxr).
    apply bind_inv in Hr' as (xr' & Hxr' & Hret). injection Hret as <-.
    apply bind_inv in Hc as (qk_close & Hqc & Hc).
    apply bind_inv in Hc as (amc & Hac & Hc).
    apply bind_inv in Hc as (xc & Hc & Hc').
    apply bind_inv in Hc as (v_close & Hvc & Hxc).
    apply bind_inv in Hc' as (xc' & Hxc' & Hret). injection Hret as <-.
    destruct (conv_defined_remote _ _ _ _ _ _ Htr Hqr) as [qk0 Hqk].
    destruct (conv_defined_remote _ _ _ _ _ _ Htr Hvr) as [v0 Hv].
    rewrite (conv_tile_remote _ _ _ _ _ _ Htr Hqk) in Hqr.
    rewrite (conv_tile_close _ _ _ _ _ _ Htc Hqk) in Hqc.
    rewrite (conv_tile_remote _ _ _ _ _ _ Htr Hv) in Hvr.
    rewrite (conv_tile_close _ _ _ _ _ _ Htc Hv) in Hvc.
    rewrite Htr, bind_Ok, Htc, bind_Ok, Hqk, bind_Ok, Hqr, bind_Ok, Hqc, bind_Ok, Hsr.
    rewrite Har, bind_Ok, Hac, bind_Ok, Hv, bind_Ok, Hvr, bind_Ok, Hvc, bind_Ok.
    rewrite Hxr, bind_Ok, Hxr', bind_Ok, Hxc, bind_Ok, Hxc', !bind_Ok.
    f_equal. apply unpad_add.
    by apply (hybrid_summands_shape m k1 k2 h w qk0 v0 qk_remote qk_close amr amc
                v_remote v_close xr xr' xc xc').
Qed.

(** C3. When the height and the width of [x] are positive multiples of the
    window size no padding is added, and in both windowing schemes the
    un-tile rearrangement undoes the tile rearrangement: remote tiling
    followed by its inverse, and close tiling followed by its inverse,
    each give [x] back. *)
Theorem untile_inverts_tile (x : tensor T) (ws : Z) (B C Hh W : nat) :
  (0 < ws)%Z → shape x = (B, C, Hh, W) → well_formed x = true →
  0 < Hh → 0 < W →
  (Z.of_nat Hh `mod` ws = 0)%Z → (Z.of_nat W `mod` ws = 0)%Z →
  ∃ p, window_padding ws Hh W = Ok p
    ∧ pad_r p = 0%Z ∧ pad_b p = 0%Z ∧ pad_input p x = x
    ∧ rearrange_tile_remote (Z.to_nat (n1 p)) (Z.to_nat (n2 p)) (pad_input p x)
        ≫= rearrange_untile_remote (Z.to_nat (n1 p)) (Z.to_nat (n2 p)) = Ok x
    ∧ rearrange_tile_close (Z.to_nat (n1 p)) (Z.to_nat (n2 p)) (pad_input p x)
        ≫= rearrange_untile_close (Z.to_nat (n1 p)) (Z.to_nat (n2 p)) = Ok x.
Proof.
  intros Hws Hs Hwf HH HW Hm1 Hm2.
  eexists. split; [by apply window_padding_eq|]. cbn [pad_r pad_b n1 n2].
  pose proof (pad_of_multiple ws Hh Hws Hm1) as Eb.
  pose proof (pad_of_multiple ws W Hws Hm2) as Er.
  destruct (padded_extent ws Hh HH) as (wh & pb & k1 & _ & Epb & Ek1 & _ & Hk1 & _ & Eh).
  destruct (padded_extent ws W HW) as (ww & pr & k2 & _ & Epr & Ek2 & _ & Hk2 & _ & Ew).
  assert (pb = 0) as -> by lia. assert (pr = 0) as -> by lia.
  rewrite Nat.add_0_r in Eh, Ew.
  rewrite Ek1, Ek2, !Nat2Z.id.
  split; [done|]. split; [done|].
  rewrite pad_input_none by done. split; [done|].
  assert (Hh `mod` k1 = 0) by (rewrite Eh; apply Nat.Div0.mod_mul).
  assert (W `mod` k2 = 0) by (rewrite Ew; apply Nat.Div0.mod_mul).
  split; [by eapply tile_untile_remote|by eapply tile_untile_close].
Qed.

(** C4. For a positive window size [w] and an input of spatial extent
    [(H, W)], [H, W > 0], the operators pad by exactly [(w - H % w) % w]
    rows and [(w - W % w) % w] columns of zeros, all of them below and to
    the right (an entry of the input keeps its position, every other entry
    of the padded tensor is zero), and - the channel counts fitting -
    each of the three variants returns a tensor of spatial extent exactly
    [(H, W)]. *)
Theorem padding_amount_and_output_extent (m : EW_MHSA T) (x : tensor T)
    (B C Hh W : nat) :
  (0 < window_size m)%Z → shape x = (B, C, Hh, W) → 0 < Hh → 0 < W →
  channels_fit (cfg_of m) C →
  ∃ p, window_padding (window_size m) Hh W = Ok p
    ∧ pad_b p = ((window_size m - Z.of_nat Hh `mod` window_size m)
                   `mod` window_size m)%Z
    ∧ pad_r p = ((window_size m - Z.of_nat W `mod` window_size m)
                   `mod` window_size m)%Z
    ∧ pad_t p = 0%Z ∧ pad_l p = 0%Z
    ∧ shape (pad_input p x)
      = (B, C, Hh + Z.to_nat (pad_b p), W + Z.to_nat (pad_r p))
    ∧ (∀ b c h w, b < B → c < C →
         h < Hh + Z.to_nat (pad_b p) → w < W + Z.to_nat (pad_r p) →
         get (pad_input p x) b c h w
         = if (h <? Hh) && (w <? W) then get x b c h w else t_zero)
    ∧ (∃ y, EW_MHSA_Remote_forward m x = Ok y
            ∧ shape y = (B, conv_dim_out (v m), Hh, W))
    ∧ (∃ y, EW_MHSA_Close_forward m x = Ok y
            ∧ shape y = (B, conv_dim_out (v m), Hh, W))
    ∧ (∃ y, EW_MHSA_Hybrid_forward m x = Ok y
            ∧ shape y = (B, conv_dim_out (v m), Hh, W)).
Proof.
  intros Hws Hs HH HW Hfit.
  exists {| window_size_W := window_of (window_size m) W;
            window_size_H := window_of (window_size m) Hh;
            pad_l := 0; pad_t := 0;
            pad_r := pad_of (window_size m) W; pad_b := pad_of (window_size m) Hh;
            n1 := count_of (window_size m) Hh; n2 := count_of (window_size m) W |}.
  split; [apply window_padding_eq; assumption|]. cbn [pad_r pad_b pad_t pad_l].
  assert (Hpad : ∀ n, pad_of (window_size m) n
            = ((window_size m - Z.of_nat n `mod` window_size m) `mod` window_size m)%Z).
  { intros n. unfold pad_of, window_of.
    destruct (decide (window_size m ≤ 0)%Z) as [|_]; [lia|reflexivity]. }
  split; [apply Hpad|]. split; [apply Hpad|].
  split; [reflexivity|]. split; [reflexivity|].
  split; [rewrite shape_pad_input, Hs; reflexivity|].
  split; [|exact (variants_return m x B C Hh W Hs Hfit HH HW)].
  intros b c h w Hb Hc Hh' Hw'. unfold pad_input, F_pad. rewrite Hs. cbn [pad_r pad_b].
  apply get_build; assumption.
Qed.

(** C10. When the configured window size is zero or negative and the
    input is not empty ([H, W > 0]), every variant takes the whole input
    as its single window: the window extent is [(H, W)], the padding is
    zero, there is one window along each axis (both tilings return the
    input itself), and the operator is attention over all [H * W]
    positions at once - the attention map has [H * W] rows and columns
    per image and head, and the remote and the close variant coincide
    with global attention (the hybrid variant with the sum of its two
    coinciding branches). *)
Theorem nonpositive_window_is_global (m : EW_MHSA T) (x : tensor T)
    (B C Hh W : nat) :
  (window_size m ≤ 0)%Z → shape x = (B, C, Hh, W) → well_formed x = true →
  0 < Hh → 0 < W →
  ∃ p, window_padding (window_size m) Hh W = Ok p
    ∧ window_size_H p = Z.of_nat Hh ∧ window_size_W p = Z.of_nat W
    ∧ pad_r p = 0%Z ∧ pad_b p = 0%Z ∧ n1 p = 1%Z ∧ n2 p = 1%Z
    ∧ pad_input p x = x
    ∧ rearrange_tile_remote 1 1 x = Ok x ∧ rearrange_tile_close 1 1 x = Ok x
    ∧ (∀ qk0 am, ConvNormAct_1x1_forward (qk m) x = Ok qk0 →
         attention_map m qk0 = Ok am →
         shape am = (B, num_head m, Hh * W, Hh * W))
    ∧ EW_MHSA_Remote_forward m x = EW_MHSA_global_forward m x
    ∧ EW_MHSA_Close_forward m x = EW_MHSA_global_forward m x
    ∧ EW_MHSA_Hybrid_forward m x = EW_MHSA_Hybrid_global_forward m x.
Proof.
  intros Hws Hs Hwf HH HW.
  eexists. split; [by apply window_padding_nonpos|]. cbn [window_size_H window_size_W
    pad_r pad_b n1 n2].
  do 6 (split; [done|]).
  split; [by apply pad_input_none|].
  split; [by apply tile_remote_one|]. split; [by apply tile_close_one|].
  split.
  { intros qk0 am Hqk Ham.
    pose proof (shape_eq_of _ _ _ (shape_conv (qk m) x) Hqk) as Sq. rewrite Hs in Sq.
    pose proof (shape_eq_of _ _ _ (shape_attention_map m qk0) Ham) as Sa.
    unfold conv_1x1_shape in Sq. destruct (decide _); [|done]. injection Sq as Sq.
    rewrite <- Sq in Sa. unfold attention_map_shape in Sa.
    destruct (decide _); [|done]. by injection Sa as <-. }
  split; [by eapply Remote_global|]. split; [by eapply Close_global|].
  by eapply Hybrid_global.
Qed.

(** C9, as the code has it. Under [attn_pre] the hybrid operator merges
    the attended close tiles with the remote pattern
    ['(b n1 n2) c h1 w1 -> b c (h1 n1) (w1 n2)']. Close tiling followed by
    that merge gives every tensor back exactly when, along each axis,
    there is a single window or the window extent is 1; so the pair is
    not a round trip as soon as some axis has more than one window of
    extent more than 1 (whether or not the two numbers differ), while
    the close merge would have been one. *)
Theorem hybrid_pre_close_branch_untiles_remote (m : EW_MHSA T) (a0 b0 : T)
    (n1 n2 h1 w1 B C h w : nat) (attn_map_close x_close : tensor T) :
  a0 ≠ b0 → 0 < B → 0 < C → 0 < n1 → 0 < n2 → 0 < h1 → 0 < w1 →
  Hybrid_pre_close_branch m n1 n2 h w attn_map_close x_close
  = attend m h w attn_map_close x_close ≫= rearrange_untile_remote n1 n2
  ∧ ((∀ x : tensor T, shape x = (B, C, n1 * h1, n2 * w1) → well_formed x = true →
        rearrange_tile_close n1 n2 x ≫= rearrange_untile_remote n1 n2 = Ok x)
     ↔ (n1 = 1 ∨ h1 = 1) ∧ (n2 = 1 ∨ w1 = 1))
  ∧ (∀ x : tensor T, shape x = (B, C, n1 * h1, n2 * w1) → well_formed x = true →
       rearrange_tile_close n1 n2 x ≫= rearrange_untile_close n1 n2 = Ok x).
Proof.
  intros Hab HB HC Hn1 Hn2 Hh1 Hw1. split; [done|]. split.
  - split.
    + intros Hall.
      destruct (decide (n1 = 1 ∨ h1 = 1)) as [Hr|Hr].
      * split; [done|]. destruct (decide (n2 = 1 ∨ w1 = 1)) as [Hc|Hc]; [done|].
        exfalso.
        apply (close_remote_scrambles_cols a0 b0 n1 n2 h1 w1 B C); try (done || lia).
        apply Hall; [done|apply well_formed_built].
      * exfalso.
        apply (close_remote_scrambles_rows a0 b0 n1 n2 h1 w1 B C); try (done || lia).
        apply Hall; [done|apply well_formed_built].
    + intros Hone x Hs Hwf. by eapply close_remote_round_trip.
  - intros x Hs Hwf.
    apply (tile_untile_close x n1 n2 B C (n1 * h1) (n2 * w1)); try (done || nia).
    + apply Nat.Div0.mod_same || (rewrite Nat.mul_comm; apply Nat.Div0.mod_mul).
    + rewrite Nat.mul_comm. apply Nat.Div0.mod_mul.
Qed.

End AttentionClaims.

(** C5. A block constructed from [dim_in], [dim_out], [stride] and the
    flag [has_skip] stores as its skip predicate
    [(dim_in == dim_out and stride == 1) and has_skip]; in particular the
    residual skip is off whenever [dim_in != dim_out] or [stride != 1],
    whatever the flag. The predicate is a field of the constructed block,
    which [forward] only reads. *)
Theorem iiRMB_skip_predicate (a : iiRMB_args) (blk : iiRMB) :
  iiRMB_init a = Ok blk →
  has_skip blk
  = (bool_decide (arg_dim_in a = arg_dim_out a) && bool_decide (arg_stride a = 1))
    && arg_has_skip a
  ∧ (arg_dim_in a ≠ arg_dim_out a ∨ arg_stride a ≠ 1 → has_skip blk = false).
Proof.
  intros Hb. apply iiRMB_init_has_skip in Hb. split; [done|].
  rewrite Hb. intros [Hd|Hs].
  - by rewrite bool_decide_eq_false_2.
  - by rewrite (bool_decide_eq_false_2 (arg_stride a = 1)), andb_false_r.
Qed.

(** C6, as the code has it. A tag outside 0, 1, 2, 3 is not an error at
    construction: the constructor skips it, so it builds - or fails to
    build - exactly the block it builds without the unknown tags. When no
    tag is known (and the normalisation tag resolves) construction
    succeeds with an empty operator list, and it is [forward] that fails,
    with [IndexError] at [xs[0]]. *)
Theorem iiRMB_unknown_tags_are_skipped (a : iiRMB_args) :
  (arg_norm_in a = true → is_ok (get_norm (arg_norm_layer a)) = true) →
  block_structure <$> iiRMB_init a
  = block_structure
      <$> iiRMB_init (with_hybrid_eops a (List.filter known_tag (arg_hybrid_eops a)))
  ∧ (List.filter known_tag (arg_hybrid_eops a) = [] →
     ∃ blk, iiRMB_init a = Ok blk ∧ eops blk = []
       ∧ ∀ cs x, iiRMB_forward_shape cs blk x = Raise IndexError).
Proof.
  intros Hn. split; [apply iiRMB_init_filter|]. intros Hf.
  destruct (iiRMB_init_no_known_tag a Hf Hn) as (blk & Hb & He).
  exists blk. split; [done|]. split; [done|]. intros cs x.
  by apply iiRMB_forward_no_eops.
Qed.

(** C7. For an input of shape (1, 3, 224, 224), the default configuration
    and [out_indices = (0, 1, 2, 3, 4)], [forward] returns five tensors of
    shapes (1, 32, 112, 112), (1, 64, 56, 56), (1, 128, 28, 28),
    (1, 256, 14, 14) and (1, 512, 7, 7), the stem giving the 32 channels;
    and for any [out_indices] it returns the entries of that list in the
    order in which they are requested. This holds for every [ConvNormAct]
    whose spatial rule, at odd kernel sizes, keeps a size at stride 1 and
    halves an even size at stride 2. *)
Theorem EMO2_default_forward_shapes (cs : Z → nat → nat → nat) :
  (∀ k n, odd_kernel k → cs k 1 n = n) →
  (∀ k n, odd_kernel k → cs k 2 (2 * n) = n) →
  (m ← EMO2_init (EMO2_default_args [0; 1; 2; 3; 4]%Z);
   EMO2_forward_shape cs m (1, 3, 224, 224))
  = Ok [(1, 32, 112, 112); (1, 64, 56, 56); (1, 128, 28, 28);
        (1, 256, 14, 14); (1, 512, 7, 7)]
  ∧ ∀ out_indices,
      (m ← EMO2_init (EMO2_default_args out_indices);
       EMO2_forward_shape cs m (1, 3, 224, 224))
      = mapM_result
          (py_getitem [(1, 32, 112, 112); (1, 64, 56, 56); (1, 128, 28, 28);
                       (1, 256, 14, 14); (1, 512, 7, 7)])
          out_indices.
Proof.
  intros H1 H2. split; [by apply EMO2_default_shapes|]. intros out_indices.
  destruct (EMO2_init _) as [m|] eqn:E; [|by vm_compute in E].
  rewrite bind_Ok.
  rewrite (EMO2_forward_shape_ext cs _ (spec_conv_out_size_eq cs H1 H2)).
  vm_compute in E. injection E as <-. vm_compute. reflexivity.
Qed.


(** C8. When the stages 0..k to freeze exist ([frozen_stages = k]),
    [_freeze_stages] returns with every parameter of those stages without
    gradient tracking and every normalisation layer of those stages in
    evaluation mode, and any run of later calls [train(mode)] returns with
    the same holding again, each call re-applying the freeze after the
    global mode switch: a frozen stage never comes back with a trainable
    parameter or a normalisation layer in training mode. *)
Theorem frozen_stages_stay_frozen (s : EMO2_modes) (modes : list bool) :
  stages_exist s →
  ∃ s1, _freeze_stages s = (s1, Ok ())
    ∧ stages_frozen s1
    ∧ ∃ s2, train_all modes s1 = (s2, Ok ())
        ∧ frozen_stages s2 = frozen_stages s
        ∧ stages_frozen s2.
Proof.
  intros Hex. destruct (freeze_stages_ok s Hex) as (sts & Hrun & Hlen & Hfr).
  exists (with_stages s sts). split; [done|].
  split; [by apply stages_all_frozen_weaken|].
  destruct (train_all_ok modes (with_stages s sts)) as (s2 & Hrun2 & Hk & _ & _ & Hfr2).
  { unfold stages_exist in *. simpl. by rewrite Hlen. }
  { done. }
  exists s2. split; [done|]. split; [done|]. by apply stages_all_frozen_weaken.
Qed.

(** ** Concrete runs *)

Lemma hybrid_sum_on_demo_image :
  ∃ r c, EW_MHSA_Remote_forward (demo_attn false 2) (demo_image 3 5) = Ok r
       ∧ EW_MHSA_Close_forward (demo_attn false 2) (demo_image 3 5) = Ok c
       ∧ demo_hybrid_output = tensor_add r c.
Proof.
  apply (hybrid_is_sum_of_remote_and_close (demo_attn false 2) (demo_image 3 5)
           demo_hybrid_output).
  - reflexivity.
  - vm_compute. reflexivity.
Defined.

Lemma round_trip_on_demo_image :
  ∃ p, window_padding 2 4 6 = Ok p
    ∧ pad_r p = 0%Z ∧ pad_b p = 0%Z ∧ pad_input p (demo_image 4 6) = demo_image 4 6
    ∧ rearrange_tile_remote (Z.to_nat (n1 p)) (Z.to_nat (n2 p))
          (pad_input p (demo_image 4 6))
        ≫= rearrange_untile_remote (Z.to_nat (n1 p)) (Z.to_nat (n2 p))
      = Ok (demo_image 4 6)
    ∧ rearrange_tile_close (Z.to_nat (n1 p)) (Z.to_nat (n2 p))
          (pad_input p (demo_image 4 6))
        ≫= rearrange_untile_close (Z.to_nat (n1 p)) (Z.to_nat (n2 p))
      = Ok (demo_image 4 6).
Proof.
  apply (untile_inverts_tile (demo_image 4 6) 2 1 2 4 6);
    first [reflexivity | lia].
Defined.

Lemma padding_on_demo_image :
  ∃ p, window_padding 2 3 5 = Ok p
    ∧ pad_b p = 1%Z ∧ pad_r p = 1%Z
    ∧ ∃ y, EW_MHSA_Hybrid_forward (demo_attn true 2) (demo_image 3 5) = Ok y
         ∧ shape y = (1, 2, 3, 5).
Proof.
  destruct (padding_amount_and_output_extent (demo_attn true 2) (demo_image 3 5) 1 2 3 5)
    as (p & Hp & Hb & Hr & _ & _ & _ & _ & _ & _ & Hy).
  - simpl. lia.
  - reflexivity.
  - lia.
  - lia.
  - unfold channels_fit. simpl. repeat split; lia.
  - exists p. split; [exact Hp|]. split; [exact Hb|]. split; [exact Hr|]. exact Hy.
Defined.

Lemma global_attention_on_demo_image :
  EW_MHSA_Remote_forward (demo_attn false 0) (demo_image 3 5)
  = EW_MHSA_global_forward (demo_attn false 0) (demo_image 3 5)
  ∧ EW_MHSA_Hybrid_forward (demo_attn false (-3)) (demo_image 3 5)
    = EW_MHSA_Hybrid_global_forward (demo_attn false (-3)) (demo_image 3 5).
Proof.
  split.
  - destruct (nonpositive_window_is_global (demo_attn false 0) (demo_image 3 5) 1 2 3 5)
      as (p & _ & _ & _ & _ & _ & _ & _ & _ & _ & _ & _ & Hr & _);
      first [reflexivity | simpl; lia | exact Hr].
  - destruct (nonpositive_window_is_global (demo_attn false (-3)) (demo_image 3 5) 1 2 3 5)
      as (p & _ & _ & _ & _ & _ & _ & _ & _ & _ & _ & _ & _ & _ & Hh);
      first [reflexivity | simpl; lia | exact Hh].
Defined.

Lemma close_remote_not_a_round_trip_3_by_2 :
  ¬ (∀ x : tensor Z, shape x = (1, 1, 3 * 2, 1 * 1) → well_formed x = true →
       rearrange_tile_close 3 1 x ≫= rearrange_untile_remote 3 1 = Ok x).
Proof.
  intros Hall.
  destruct (hybrid_pre_close_branch_untiles_remote (demo_attn true 2) 1%Z 0%Z
              3 1 2 1 1 1 2 1 (demo_image 2 1) (demo_image 2 1))
    as (_ & [Hrt _] & _); try lia.
  destruct (Hrt Hall) as [[?|?] _]; lia.
Defined.

Lemma skip_forced_off_on_channel_change :
  ∃ blk, iiRMB_init (iiRMB_default_args 64 128 [0%Z]) = Ok blk ∧ has_skip blk = false.
Proof.
  eexists. split; [vm_compute; reflexivity|].
  refine (proj2 (iiRMB_skip_predicate (iiRMB_default_args 64 128 [0%Z]) _ _) _).
  - vm_compute. reflexivity.
  - left. simpl. lia.
Defined.

Lemma unknown_tag_alone_builds_an_empty_block :
  ∃ blk, iiRMB_init (iiRMB_default_args 64 64 [7%Z]) = Ok blk ∧ eops blk = []
    ∧ ∀ cs x, iiRMB_forward_shape cs blk x = Raise IndexError.
Proof.
  refine (proj2 (iiRMB_unknown_tags_are_skipped (iiRMB_default_args 64 64 [7%Z]) _) _).
  - intros _. reflexivity.
  - reflexivity.
Defined.

Lemma default_shapes_with_division :
  (m ← EMO2_init (EMO2_default_args [0; 1; 2; 3; 4]%Z);
   EMO2_forward_shape demo_conv_out_size m (1, 3, 224, 224))
  = Ok [(1, 32, 112, 112); (1, 64, 56, 56); (1, 128, 28, 28);
        (1, 256, 14, 14); (1, 512, 7, 7)].
Proof.
  refine (proj1 (EMO2_default_forward_shapes demo_conv_out_size _ _)).
  - intros k n _. unfold demo_conv_out_size. apply Nat.div_1_r.
  - intros k n _. unfold demo_conv_out_size. rewrite Nat.mul_comm. apply Nat.div_mul. lia.
Defined.

Lemma demo_stages_stay_frozen :
  ∃ s1, _freeze_stages demo_modes = (s1, Ok ())
    ∧ stages_frozen s1
    ∧ ∃ s2, train_all [true; false; true] s1 = (s2, Ok ())
        ∧ frozen_stages s2 = frozen_stages demo_modes
        ∧ stages_frozen s2.
Proof.
  apply (frozen_stages_stay_frozen demo_modes [true; false; true]).
  unfold stages_exist. simpl. lia.
Defined.

(** ** Inputs on which the specification and the code differ *)


(** C6 at the tags [[7]] and [[0; 7]]: construction returns a block. *)
Lemma unknown_tag_does_not_fail_construction :
  is_ok (iiRMB_init (iiRMB_default_args 64 64 [7%Z])) = true
  ∧ is_ok (iiRMB_init (iiRMB_default_args 64 64 [0%Z; 7%Z])) = true
  ∧ eops <$> iiRMB_init (iiRMB_default_args 64 64 [0%Z; 7%Z])
    = eops <$> iiRMB_init (iiRMB_default_args 64 64 [0%Z])
  ∧ (blk ← iiRMB_init (iiRMB_default_args 64 64 [0%Z; 7%Z]);
     iiRMB_forward_shape demo_conv_out_size blk (1, 64, 8, 8)) = Ok (1, 64, 8, 8).
Proof. vm_compute. done. Qed.

(** C9 at window size 1 on a 2 x 2 image: two windows along each axis,
    which is more than one and differs from the window size, and yet the
    close tiling followed by the remote merge gives every tensor back. *)
Lemma close_remote_round_trip_at_window_size_1 :
  window_padding 1 2 2
  = Ok {| window_size_W := 1; window_size_H := 1; pad_l := 0; pad_t := 0;
          pad_r := 0; pad_b := 0; n1 := 2; n2 := 2 |}
  ∧ rearrange_tile_close 2 2 (demo_image 2 2) ≫= rearrange_untile_remote 2 2
    = Ok (demo_image 2 2)
  ∧ ∀ x : tensor Z, shape x = (1, 2, 2, 2) → well_formed x = true →
      rearrange_tile_close 2 2 x ≫= rearrange_untile_remote 2 2 = Ok x.
Proof.
  split; [reflexivity|]. split; [reflexivity|]. intros x Hs Hwf.
  apply (close_remote_round_trip x 2 2 1 1 1 2); try (done || lia).
Qed.


(** * Further lemmas *)

(** ** The padding paragraph, for a positive window size *)

Lemma window_padding_pos ws Hh W :
  (0 < ws)%Z →
  window_padding ws Hh W
  = Ok {| window_size_W := ws; window_size_H := ws; pad_l := 0; pad_t := 0;
          pad_r := ((ws - Z.of_nat W `mod` ws) `mod` ws)%Z;
          pad_b := ((ws - Z.of_nat Hh `mod` ws) `mod` ws)%Z;
          n1 := ((Z.of_nat Hh + (ws - Z.of_nat Hh `mod` ws) `mod` ws) `div` ws)%Z;
          n2 := ((Z.of_nat W + (ws - Z.of_nat W `mod` ws) `mod` ws) `div` ws)%Z |}.
Proof.
  intros Hws. unfold window_padding. destruct (decide (ws ≤ 0)%Z); [lia|].
  unfold py_mod, py_floordiv. destruct (decide (ws = 0%Z)); [lia|]. reflexivity.
Qed.

(** The padded extent is the least multiple of the window size that
    holds the extent. *)
Lemma pad_count_least (w h : Z) :
  (0 < w)%Z → (0 ≤ h)%Z →
  (0 ≤ (w - h `mod` w) `mod` w < w)%Z
  ∧ (h + (w - h `mod` w) `mod` w
     = (h + (w - h `mod` w) `mod` w) `div` w * w)%Z
  ∧ ∀ k, (h ≤ k * w)%Z → ((h + (w - h `mod` w) `mod` w) `div` w ≤ k)%Z.
Proof.
  intros Hw Hh. destruct (pad_amount_spec w h Hw Hh) as [Hp Hm].
  set (pad := ((w - h `mod` w) `mod` w)%Z) in *.
  set (n := ((h + pad) `div` w)%Z).
  assert (E : (h + pad = n * w)%Z).
  { pose proof (Z.div_mod (h + pad) w ltac:(lia)) as Hd. fold n in Hd. lia. }
  split; [done|]. split; [done|]. intros k Hk. nia.
Qed.

Lemma window_padding_inv ws Hh W p :
  window_padding ws Hh W = Ok p → (0 < n1 p)%Z → (0 < n2 p)%Z → 0 < Hh ∧ 0 < W.
Proof.
  intros Hp H1 H2. destruct (decide (ws ≤ 0)%Z) as [Hws|Hws].
  - destruct (decide (Hh = 0 ∨ W = 0)) as [H0|H0]; [|lia].
    by rewrite window_padding_zero_div in Hp.
  - rewrite window_padding_pos in Hp by lia. injection Hp as <-. cbn [n1 n2] in *.
    split.
    + destruct Hh; [|lia]. exfalso. change (Z.of_nat 0) with 0%Z in H1.
      rewrite Zmod_0_l, Z.sub_0_r, Z_mod_same_full, Z.add_0_r, Zdiv_0_l in H1. lia.
    + destruct W; [|lia]. exfalso. change (Z.of_nat 0) with 0%Z in H2.
      rewrite Zmod_0_l, Z.sub_0_r, Z_mod_same_full, Z.add_0_r, Zdiv_0_l in H2. lia.
Qed.

(** ** When the attention operators return *)

Lemma conv_1x1_shape_inv d B C Hh W s :
  conv_1x1_shape d (B, C, Hh, W) = Ok s → C = d.1 ∧ s = (B, d.2, Hh, W).
Proof. unfold conv_1x1_shape. destruct (decide (C = d.1)); [|done]. by intros [= <-]. Qed.

Lemma attention_map_shape_inv a b c h w s :
  attention_map_shape a (b, c, h, w) = Ok s →
  c = 2 * a_num_head a * a_dim_head a ∧ s = (b, a_num_head a, h * w, h * w).
Proof.
  unfold attention_map_shape. destruct (decide _); [|done]. by intros [= <-].
Qed.

Lemma attend_shape_inv a h w b hd n n' bx c hx wx s :
  attend_shape a h w (b, hd, n, n') (bx, c, hx, wx) = Ok s →
  0 < a_num_head a ∧ c `mod` a_num_head a = 0 ∧ s = (b, c, h, w).
Proof.
  unfold attend_shape. destruct (einops_infer c (a_num_head a)) as [dv|] eqn:E; [|done].
  rewrite bind_Ok. destruct (decide _); [|done]. intros [= <-].
  apply einops_infer_inv in E as (Hp & Hm & _ & Hq).
  repeat split; try done. do 3 f_equal. lia.
Qed.

(** A returning run of the shape function has an input with two
    non-empty spatial axes and fitting channel counts. *)
Lemma Remote_shape_inv a B C Hh W s :
  EW_MHSA_Remote_forward_shape a (B, C, Hh, W) = Ok s →
  0 < Hh ∧ 0 < W ∧ channels_fit a C.
Proof.
  unfold EW_MHSA_Remote_forward_shape. intros Hs.
  apply bind_inv in Hs as (p & Hp & Hs).
  apply bind_inv in Hs as (t & Ht & Hs).
  unfold pad_shape in Ht.
  apply tile_shape_inv in Ht as (h1 & w1 & E1 & E2 & ->).
  apply einops_infer_pos in E1, E2.
  destruct (window_padding_inv _ _ _ _ Hp) as [HH HW]; [lia..|].
  split; [done|]. split; [done|].
  cbv beta iota in Hs.
  apply bind_inv in Hs as (qk0 & Hqk & Hs).
  apply conv_1x1_shape_inv in Hqk as [Hq1 ->].
  apply bind_inv in Hs as (am & Ham & Hs).
  apply attention_map_shape_inv in Ham as [Hq2 ->].
  apply bind_inv in Hs as (xs & Hx & _).
  unfold channels_fit. destruct (a_attn_pre a).
  - apply bind_inv in Hx as (y & Hy & Hv).
    apply attend_shape_inv in Hy as (Hhd & Hm & ->).
    apply conv_1x1_shape_inv in Hv as [Hv1 _]. done.
  - apply bind_inv in Hx as (y & Hv & Hy).
    apply conv_1x1_shape_inv in Hv as [Hv1 ->].
    apply attend_shape_inv in Hy as (Hhd & Hm & _). done.
Qed.

Lemma Remote_shape_iff a B C Hh W s :
  EW_MHSA_Remote_forward_shape a (B, C, Hh, W) = Ok s
  ↔ (0 < Hh ∧ 0 < W ∧ channels_fit a C) ∧ s = (B, (a_v a).2, Hh, W).
Proof.
  split.
  - intros Hs. pose proof (Remote_shape_inv _ _ _ _ _ _ Hs) as (HH & HW & Hfit).
    split; [done|]. rewrite Remote_shape_ok in Hs by done. by injection Hs.
  - intros [(HH & HW & Hfit) ->]. by apply Remote_shape_ok.
Qed.

Lemma is_ok_true {A} (r : result A) : is_ok r = true ↔ ∃ a, r = Ok a.
Proof. destruct r; simpl; split; first [done | by eauto | by intros [? ?]]. Qed.

Lemma is_ok_fmap {A B} (f : A → B) (r : result A) : is_ok (f <$> r) = is_ok r.
Proof. by destruct r. Qed.

Section AttentionReturns.
Context `{Scalar T}.

Lemma variant_returns_iff (op : result (tensor T)) (a : EW_MHSA_cfg) B C Hh W :
  shape <$> op = EW_MHSA_Remote_forward_shape a (B, C, Hh, W) →
  (is_ok op = true ↔ 0 < Hh ∧ 0 < W ∧ channels_fit a C)
  ∧ ∀ y, op = Ok y → shape y = (B, (a_v a).2, Hh, W).
Proof.
  intros Hsh. split.
  - rewrite <- (is_ok_fmap shape), Hsh, is_ok_true. split.
    + intros [s Hs]. by apply Remote_shape_iff in Hs as [? _].
    + intros Hfit. eexists. by apply Remote_shape_iff.
  - intros y ->. simpl in Hsh. symmetry in Hsh.
    apply Remote_shape_iff in Hsh as [_ Hy]. done.
Qed.

Lemma Remote_returns_iff (m : EW_MHSA T) (x : tensor T) B C Hh W :
  shape x = (B, C, Hh, W) →
  (is_ok (EW_MHSA_Remote_forward m x) = true ↔ 0 < Hh ∧ 0 < W ∧ channels_fit (cfg_of m) C)
  ∧ ∀ y, EW_MHSA_Remote_forward m x = Ok y → shape y = (B, conv_dim_out (v m), Hh, W).
Proof.
  intros Hs. apply (variant_returns_iff _ (cfg_of m)).
  by rewrite Remote_forward_shape, Hs.
Qed.

Lemma Close_returns_iff (m : EW_MHSA T) (x : tensor T) B C Hh W :
  shape x = (B, C, Hh, W) →
  (is_ok (EW_MHSA_Close_forward m x) = true ↔ 0 < Hh ∧ 0 < W ∧ channels_fit (cfg_of m) C)
  ∧ ∀ y, EW_MHSA_Close_forward m x = Ok y → shape y = (B, conv_dim_out (v m), Hh, W).
Proof.
  intros Hs. apply (variant_returns_iff _ (cfg_of m)).
  by rewrite Close_forward_shape, Close_Remote_shape, Hs.
Qed.

Lemma Hybrid_returns_iff (m : EW_MHSA T) (x : tensor T) B C Hh W :
  shape x = (B, C, Hh, W) →
  (is_ok (EW_MHSA_Hybrid_forward m x) = true ↔ 0 < Hh ∧ 0 < W ∧ channels_fit (cfg_of m) C)
  ∧ ∀ y, EW_MHSA_Hybrid_forward m x = Ok y → shape y = (B, conv_dim_out (v m), Hh, W).
Proof.
  intros Hs. apply (variant_returns_iff _ (cfg_of m)).
  by rewrite Hybrid_forward_shape, Hybrid_Remote_shape, Hs.
Qed.

End AttentionReturns.


(** ** Padding against cropping, un-tiling against tiling *)

Lemma batch_index bb n1 n2 :
  0 < n1 → 0 < n2 →
  (bb `div` (n1 * n2) * n1 + (bb `div` n2) `mod` n1) * n2 + bb `mod` n2 = bb.
Proof.
  intros Hn1 Hn2. rewrite (Nat.mul_comm n1 n2), <- Nat.Div0.div_div.
  rewrite decompose by done. by apply decompose.
Qed.

Section PadCrop.
Context `{Scalar T}.

Lemma crop_F_pad (x : tensor T) B C Hh W pr pb :
  shape x = (B, C, Hh, W) → well_formed x = true → crop (F_pad x pr pb) Hh W = x.
Proof.
  intros Hs Hwf. unfold crop, F_pad. rewrite Hs, shape_build.
  rewrite !Nat.min_l by lia.
  etrans; [|symmetry; by apply well_formed_build].
  apply build_ext. intros b c h w Hb Hc Hh' Hw.
  rewrite get_build by lia.
  apply Nat.ltb_lt in Hh', Hw. by rewrite Hh', Hw.
Qed.

Lemma untile_tile_remote (y : tensor T) n1 n2 b c h1 w1 :
  shape y = (b * n1 * n2, c, h1, w1) → well_formed y = true → 0 < n1 → 0 < n2 →
  rearrange_untile_remote n1 n2 y ≫= rearrange_tile_remote n1 n2 = Ok y.
Proof.
  intros Hs Hwf Hn1 Hn2. unfold rearrange_untile_remote. rewrite Hs.
  rewrite <- Nat.mul_assoc, einops_infer_mul, !bind_Ok by lia.
  unfold rearrange_tile_remote. rewrite shape_build.
  rewrite !einops_infer_mul, !bind_Ok by done. f_equal.
  etrans; [|symmetry; apply (well_formed_build y _ _ _ _ Hs Hwf)].
  apply build_ext. intros bb cc i j Hbb Hc Hi Hj.
  assert ((bb `div` n2) `mod` n1 < n1) by by apply mod_lt_bound.
  assert (bb `mod` n2 < n2) by by apply mod_lt_bound.
  rewrite get_build.
  - rewrite !mod_compose, !div_compose by done. by rewrite batch_index.
  - by apply tile_batch_lt.
  - done.
  - by apply compose_lt.
  - by apply compose_lt.
Qed.

Lemma untile_tile_close (y : tensor T) n1 n2 b c h1 w1 :
  shape y = (b * n1 * n2, c, h1, w1) → well_formed y = true → 0 < n1 → 0 < n2 →
  rearrange_untile_close n1 n2 y ≫= rearrange_tile_close n1 n2 = Ok y.
Proof.
  intros Hs Hwf Hn1 Hn2. unfold rearrange_untile_close. rewrite Hs.
  rewrite <- Nat.mul_assoc, einops_infer_mul, !bind_Ok by lia.
  unfold rearrange_tile_close. rewrite shape_build.
  rewrite (Nat.mul_comm n1 h1), (Nat.mul_comm n2 w1).
  rewrite !einops_infer_mul, !bind_Ok by done. f_equal.
  etrans; [|symmetry; apply (well_formed_build y _ _ _ _ Hs Hwf)].
  apply build_ext. intros bb cc i j Hbb Hc Hi Hj.
  assert ((bb `div` n2) `mod` n1 < n1) by by apply mod_lt_bound.
  assert (bb `mod` n2 < n2) by by apply mod_lt_bound.
  rewrite get_build.
  - rewrite !mod_compose, !div_compose by done. by rewrite batch_index.
  - by apply tile_batch_lt.
  - done.
  - rewrite (Nat.mul_comm h1 n1). by apply compose_lt.
  - rewrite (Nat.mul_comm w1 n2). by apply compose_lt.
Qed.

(** ** Tilings that coincide *)

Lemma tile_close_remote_eq (x : tensor T) n1 n2 b c Hp Wp :
  shape x = (b, c, Hp, Wp) →
  (∀ h1, einops_infer Hp n1 = Ok h1 → n1 = 1 ∨ h1 = 1) →
  (∀ w1, einops_infer Wp n2 = Ok w1 → n2 = 1 ∨ w1 = 1) →
  rearrange_tile_close n1 n2 x = rearrange_tile_remote n1 n2 x.
Proof.
  intros Hs H1 H2. unfold rearrange_tile_close, rearrange_tile_remote. rewrite Hs.
  destruct (einops_infer Hp n1) as [h1|] eqn:E1; [|done].
  destruct (einops_infer Wp n2) as [w1|] eqn:E2; [|done]. rewrite !bind_Ok. f_equal.
  apply build_ext. intros bb cc i j Hbb Hc Hi Hj. f_equal.
  - destruct (H1 h1 eq_refl) as [-> | ->]; [rewrite Nat.mod_1_r|]; lia.
  - destruct (H2 w1 eq_refl) as [-> | ->]; [rewrite Nat.mod_1_r|]; lia.
Qed.

Lemma untile_close_remote_eq (y : tensor T) n1 n2 bn c h1 w1 :
  shape y = (bn, c, h1, w1) → n1 = 1 ∨ h1 = 1 → n2 = 1 ∨ w1 = 1 →
  rearrange_untile_close n1 n2 y = rearrange_untile_remote n1 n2 y.
Proof.
  intros Hs H1 H2. unfold rearrange_untile_close, rearrange_untile_remote. rewrite Hs.
  destruct (einops_infer bn (n1 * n2)) as [b|]; [|done]. rewrite !bind_Ok. f_equal.
  rewrite (Nat.mul_comm n1 h1), (Nat.mul_comm n2 w1).
  apply build_ext. intros b0 cc p q _ _ Hp Hq.
  assert (p `div` h1 = p `mod` n1 ∧ p `mod` h1 = p `div` n1) as [-> ->].
  { destruct H1 as [-> | ->].
    - rewrite Nat.mod_1_r, Nat.div_1_r, Nat.div_small, Nat.mod_small by lia. done.
    - rewrite Nat.mod_1_r, Nat.div_1_r, Nat.div_small, Nat.mod_small by lia. done. }
  assert (q `div` w1 = q `mod` n2 ∧ q `mod` w1 = q `div` n2) as [-> ->].
  { destruct H2 as [-> | ->].
    - rewrite Nat.mod_1_r, Nat.div_1_r, Nat.div_small, Nat.mod_small by lia. done.
    - rewrite Nat.mod_1_r, Nat.div_1_r, Nat.div_small, Nat.mod_small by lia. done. }
  done.
Qed.

Lemma branch_shape_hw (m : EW_MHSA T) h w (am t y : tensor T) :
  (if attn_pre m then
     x_spa ← attend m h w am t; ConvNormAct_1x1_forward (v m) x_spa
   else
     v ← ConvNormAct_1x1_forward (v m) t; attend m h w am v) = Ok y →
  ∃ b c, shape y = (b, c, h, w).
Proof.
  intros Hy. pose proof (shape_eq_of _ _ _ (shape_branch m h w am t) Hy) as S.
  destruct (shape am) as [[[ba hd] n] n'], (shape t) as [[[bt ct] ht] wt].
  destruct (a_attn_pre (cfg_of m)).
  - apply bind_inv in S as (s1 & S1 & S2).
    apply attend_shape_inv in S1 as (_ & _ & ->).
    apply conv_1x1_shape_inv in S2 as [_ S2]. eauto.
  - apply bind_inv in S as (s1 & S1 & S2).
    apply conv_1x1_shape_inv in S1 as [_ ->].
    apply attend_shape_inv in S2 as (_ & _ & S2). eauto.
Qed.

End PadCrop.

(** Along an axis whose extent fits one window, or with windows of
    extent 1, there is one window or the window extent is 1. *)
Lemma count_of_zero ws : count_of ws 0 = 0%Z.
Proof.
  unfold count_of, pad_of, window_of. change (Z.of_nat 0) with 0%Z.
  destruct (decide (ws ≤ 0)%Z).
  - by rewrite Zmod_0_l.
  - by rewrite Zmod_0_l, Z.sub_0_r, Z_mod_same_full, Z.add_0_r, Zdiv_0_l.
Qed.

Lemma axis_trivial ws n h1 :
  (ws ≤ 1 ∨ Z.of_nat n ≤ ws)%Z →
  einops_infer (n + Z.to_nat (pad_of ws n)) (Z.to_nat (count_of ws n)) = Ok h1 →
  Z.to_nat (count_of ws n) = 1 ∨ h1 = 1.
Proof.
  intros Hws Hinf. apply einops_infer_inv in Hinf as (Hk & _ & _ & Hq).
  destruct n as [|n'].
  { rewrite count_of_zero in Hk. simpl in Hk. lia. }
  set (n := S n') in *.
  destruct (padded_extent ws n ltac:(lia)) as (w & pad & k & Ew & Ep & Ek & Hw & Hk' & Hp & E).
  rewrite Ep, Ek, !Nat2Z.id in *.
  assert (h1 = w) as -> by nia.
  destruct (decide (ws ≤ 0)%Z) as [Hn|Hn].
  - left. destruct (pad_of_nonpos ws n Hn ltac:(lia)) as [_ E1]. lia.
  - unfold window_of in Ew. destruct (decide (ws ≤ 0)%Z); [lia|].
    destruct (decide (ws = 1)%Z); [right; lia|]. left. nia.
Qed.

Lemma window_padding_fields ws Hh W p :
  window_padding ws Hh W = Ok p →
  pad_r p = pad_of ws W ∧ pad_b p = pad_of ws Hh
  ∧ n1 p = count_of ws Hh ∧ n2 p = count_of ws W.
Proof.
  intros Hp. destruct (decide (ws ≤ 0)%Z) as [Hws|Hws].
  - destruct (decide (Hh = 0 ∨ W = 0)) as [H0|H0].
    { by rewrite window_padding_zero_div in Hp. }
    rewrite window_padding_eq in Hp by lia. by injection Hp as <-.
  - rewrite window_padding_pos in Hp by lia. injection Hp as <-.
    unfold pad_of, count_of, pad_of, window_of. by destruct (decide (ws ≤ 0)%Z).
Qed.


Section Constructor2.
Context {T : Type}.


End Constructor2.

(** * Further properties of the code *)

(** ** The windowed attention operators *)

Section AttentionProperties.
Context `{Scalar T}.

(** Each of the three operators returns a tensor exactly on the inputs
    with two non-empty spatial axes whose channel count fits the two
    projections and the head split ([channels_fit]); on every other input
    it raises. Whatever an operator returns has the batch size and the
    spatial extent of the input and the [dim_mid] channels of the value
    projection, for every window size (positive or not) and both orders of
    the value projection. *)
Theorem attention_returns_iff_channels_fit (m : EW_MHSA T) (x : tensor T)
    (B C Hh W : nat) :
  shape x = (B, C, Hh, W) →
  (is_ok (EW_MHSA_Remote_forward m x) = true
     ↔ 0 < Hh ∧ 0 < W ∧ channels_fit (cfg_of m) C)
  ∧ (is_ok (EW_MHSA_Close_forward m x) = true
     ↔ 0 < Hh ∧ 0 < W ∧ channels_fit (cfg_of m) C)
  ∧ (is_ok (EW_MHSA_Hybrid_forward m x) = true
     ↔ 0 < Hh ∧ 0 < W ∧ channels_fit (cfg_of m) C)
  ∧ ∀ y, EW_MHSA_Remote_forward m x = Ok y ∨ EW_MHSA_Close_forward m x = Ok y
         ∨ EW_MHSA_Hybrid_forward m x = Ok y →
         shape y = (B, conv_dim_out (v m), Hh, W).
Proof.
  intros Hs.
  destruct (Remote_returns_iff m x B C Hh W Hs) as [R1 R2].
  destruct (Close_returns_iff m x B C Hh W Hs) as [C1 C2].
  destruct (Hybrid_returns_iff m x B C Hh W Hs) as [H1 H2].
  split; [exact R1|]. split; [exact C1|]. split; [exact H1|].
  intros y [Hy|[Hy|Hy]]; auto.
Qed.

(** With a window size that is zero or negative the window is the input
    itself, so on an input with an empty spatial axis the first remainder
    of the padding paragraph divides by zero: each operator raises
    [ZeroDivisionError] before any tensor operation. *)
Theorem empty_axis_divides_by_zero (m : EW_MHSA T) (x : tensor T) (B C Hh W : nat) :
  (window_size m ≤ 0)%Z → shape x = (B, C, Hh, W) → Hh = 0 ∨ W = 0 →
  EW_MHSA_Remote_forward m x = Raise ZeroDivisionError
  ∧ EW_MHSA_Close_forward m x = Raise ZeroDivisionError
  ∧ EW_MHSA_Hybrid_forward m x = Raise ZeroDivisionError.
Proof.
  intros Hws Hs H0.
  unfold EW_MHSA_Remote_forward, EW_MHSA_Close_forward, EW_MHSA_Hybrid_forward.
  rewrite Hs, window_padding_zero_div by done. done.
Qed.

(** [F.pad] followed by the crop [x[:, :, :H, :W]] of the "unpadding"
    paragraph gives the input back, whatever the padding amounts. *)
Theorem crop_undoes_pad (p : padding) (x : tensor T) (B C Hh W : nat) :
  shape x = (B, C, Hh, W) → well_formed x = true →
  unpad p Hh W (pad_input p x) = x.
Proof.
  intros Hs Hwf. unfold unpad, pad_input.
  destruct (bool_decide _ || bool_decide _) eqn:E.
  - by eapply crop_F_pad.
  - apply orb_false_elim in E as [Hr Hb]. apply bool_decide_eq_false in Hr, Hb.
    replace (Z.to_nat (pad_r p)) with 0 by lia.
    replace (Z.to_nat (pad_b p)) with 0 by lia. by apply F_pad_zero.
Qed.

(** The tile rearrangement undoes the un-tile rearrangement, in both
    schemes: with the round trip in the other direction, tiling and
    un-tiling are mutually inverse bijections between the images and the
    stacks of windows. *)
Theorem tile_inverts_untile (y : tensor T) (n1 n2 b c h1 w1 : nat) :
  shape y = (b * n1 * n2, c, h1, w1) → well_formed y = true → 0 < n1 → 0 < n2 →
  rearrange_untile_remote n1 n2 y ≫= rearrange_tile_remote n1 n2 = Ok y
  ∧ rearrange_untile_close n1 n2 y ≫= rearrange_tile_close n1 n2 = Ok y.
Proof.
  intros Hs Hwf Hn1 Hn2.
  split; [by eapply untile_tile_remote|by eapply untile_tile_close].
Qed.

(** When the window size is at most 1 (one pixel per window, or the whole
    input as the window) or the input fits into one window, the strided
    and the contiguous tiling are the same rearrangement, and the remote
    and the close operator built on the same weights agree on the input:
    same result, or same exception. *)
Theorem close_is_remote_on_trivial_tilings (m : EW_MHSA T) (x : tensor T)
    (B C Hh W : nat) :
  shape x = (B, C, Hh, W) →
  (window_size m ≤ 1
   ∨ (Z.of_nat Hh ≤ window_size m ∧ Z.of_nat W ≤ window_size m))%Z →
  EW_MHSA_Close_forward m x = EW_MHSA_Remote_forward m x.
Proof.
  intros Hs Hws. unfold EW_MHSA_Close_forward, EW_MHSA_Remote_forward. rewrite Hs.
  destruct (window_padding (window_size m) Hh W) as [p|] eqn:Hp; [|done]. rewrite !bind_Ok.
  destruct (window_padding_fields _ _ _ _ Hp) as (Er & Eb & E1 & E2).
  assert (Hsp : shape (pad_input p x)
                = (B, C, Hh + Z.to_nat (pad_b p), W + Z.to_nat (pad_r p))).
  { by rewrite shape_pad_input, Hs. }
  assert (A1 : ∀ h1, einops_infer (Hh + Z.to_nat (pad_b p)) (Z.to_nat (n1 p)) = Ok h1 →
                 Z.to_nat (n1 p) = 1 ∨ h1 = 1).
  { intros h1. rewrite Eb, E1. apply axis_trivial. lia. }
  assert (A2 : ∀ w1, einops_infer (W + Z.to_nat (pad_r p)) (Z.to_nat (n2 p)) = Ok w1 →
                 Z.to_nat (n2 p) = 1 ∨ w1 = 1).
  { intros w1. rewrite Er, E2. apply axis_trivial. lia. }
  rewrite (tile_close_remote_eq _ _ _ _ _ _ _ Hsp A1 A2).
  destruct (rearrange_tile_remote _ _ _) as [t|] eqn:Ht; [|done]. rewrite !bind_Ok.
  destruct (tile_remote_inv _ _ _ _ _ _ _ _ Hsp Ht) as (h1 & w1 & I1 & I2 & Et).
  assert (St : shape t = (B * Z.to_nat (n1 p) * Z.to_nat (n2 p), C, h1, w1)).
  { by rewrite Et. }
  rewrite St.
  destruct (ConvNormAct_1x1_forward (qk m) t) as [qk0|]; [|done]. rewrite !bind_Ok.
  destruct (attention_map m qk0) as [am|]; [|done]. rewrite !bind_Ok.
  destruct (if attn_pre m then _ else _) as [y|] eqn:Hy; [|done]. rewrite !bind_Ok.
  destruct (branch_shape_hw _ _ _ _ _ _ Hy) as (b' & c' & Sy).
  by rewrite (untile_close_remote_eq y _ _ _ _ _ _ Sy (A1 _ I1) (A2 _ I2)).
Qed.


End AttentionProperties.

(** For a positive window size [w] the padding paragraph never raises,
    pads each axis by less than one window, and makes the padded extent
    the least multiple of [w] that holds the extent: the number of windows
    along an axis of extent [n] is the least [k] with [n <= k * w]. *)
Theorem padding_rounds_up_to_whole_windows (ws : Z) (Hh W : nat) :
  (0 < ws)%Z →
  ∃ p, window_padding ws Hh W = Ok p
    ∧ window_size_H p = ws ∧ window_size_W p = ws
    ∧ (0 ≤ pad_b p < ws)%Z ∧ (0 ≤ pad_r p < ws)%Z
    ∧ (Z.of_nat Hh + pad_b p = n1 p * ws)%Z ∧ (Z.of_nat W + pad_r p = n2 p * ws)%Z
    ∧ (∀ k, (Z.of_nat Hh ≤ k * ws)%Z → (n1 p ≤ k)%Z)
    ∧ (∀ k, (Z.of_nat W ≤ k * ws)%Z → (n2 p ≤ k)%Z).
Proof.
  intros Hws. eexists. split; [by apply window_padding_pos|].
  cbn [window_size_H window_size_W pad_b pad_r n1 n2].
  destruct (pad_count_least ws (Z.of_nat Hh) Hws ltac:(lia)) as (B1 & B2 & B3).
  destruct (pad_count_least ws (Z.of_nat W) Hws ltac:(lia)) as (R1 & R2 & R3).
  split; [reflexivity|]. split; [reflexivity|].
  split; [exact B1|]. split; [exact R1|]. split; [exact B2|]. split; [exact R2|].
  split; [exact B3|exact R3].
Qed.

(** ** Concrete runs of the attention operators *)

Lemma attention_returns_on_demo_image :
  is_ok (EW_MHSA_Remote_forward (demo_attn true 2) (demo_image 3 5)) = true
  ∧ ∀ y, EW_MHSA_Close_forward (demo_attn true 2) (demo_image 3 5) = Ok y →
         shape y = (1, 2, 3, 5).
Proof.
  destruct (attention_returns_iff_channels_fit (demo_attn true 2) (demo_image 3 5)
              1 2 3 5 eq_refl) as (Hr & _ & _ & Hy).
  split.
  - apply Hr. unfold channels_fit. simpl. repeat split; lia.
  - intros y Hc. apply Hy. right. left. exact Hc.
Defined.

Lemma empty_image_divides_by_zero :
  EW_MHSA_Remote_forward (demo_attn false 0) (demo_image 0 5) = Raise ZeroDivisionError
  ∧ EW_MHSA_Close_forward (demo_attn false 0) (demo_image 0 5) = Raise ZeroDivisionError
  ∧ EW_MHSA_Hybrid_forward (demo_attn false 0) (demo_image 0 5) = Raise ZeroDivisionError.
Proof.
  apply (empty_axis_divides_by_zero (demo_attn false 0) (demo_image 0 5) 1 2 0 5).
  - simpl. lia.
  - reflexivity.
  - left. reflexivity.
Defined.

Lemma crop_undoes_pad_on_demo_image :
  unpad {| window_size_W := 2; window_size_H := 2; pad_l := 0; pad_t := 0;
           pad_r := 1; pad_b := 1; n1 := 2; n2 := 3 |} 3 5
    (pad_input {| window_size_W := 2; window_size_H := 2; pad_l := 0; pad_t := 0;
                  pad_r := 1; pad_b := 1; n1 := 2; n2 := 3 |} (demo_image 3 5))
  = demo_image 3 5.
Proof.
  apply (crop_undoes_pad _ (demo_image 3 5) 1 2 3 5); reflexivity.
Defined.

Lemma tile_inverts_untile_on_demo_windows :
  rearrange_untile_remote 2 2 demo_windows ≫= rearrange_tile_remote 2 2 = Ok demo_windows
  ∧ rearrange_untile_close 2 2 demo_windows ≫= rearrange_tile_close 2 2 = Ok demo_windows.
Proof.
  apply (tile_inverts_untile demo_windows 2 2 1 1 2 3); first [reflexivity | lia].
Defined.

Lemma close_is_remote_on_one_window :
  EW_MHSA_Close_forward (demo_attn false 7) (demo_image 3 5)
  = EW_MHSA_Remote_forward (demo_attn false 7) (demo_image 3 5).
Proof.
  apply (close_is_remote_on_trivial_tilings (demo_attn false 7) (demo_image 3 5) 1 2 3 5).
  - reflexivity.
  - right. simpl. lia.
Defined.

Lemma padding_of_10_by_14_at_window_7 :
  ∃ p, window_padding 7 10 14 = Ok p
    ∧ window_size_H p = 7%Z ∧ window_size_W p = 7%Z
    ∧ (0 ≤ pad_b p < 7)%Z ∧ (0 ≤ pad_r p < 7)%Z
    ∧ (Z.of_nat 10 + pad_b p = n1 p * 7)%Z ∧ (Z.of_nat 14 + pad_r p = n2 p * 7)%Z
    ∧ (∀ k, (Z.of_nat 10 ≤ k * 7)%Z → (n1 p ≤ k)%Z)
    ∧ (∀ k, (Z.of_nat 14 ≤ k * 7)%Z → (n2 p ≤ k)%Z).
Proof. apply (padding_rounds_up_to_whole_windows 7 10 14). lia. Defined.


(** ** The inverted residual block *)

Lemma ConvNormAct_init_inv dim_in dim_out k s g nl al c :
  ConvNormAct_init dim_in dim_out k s g nl al = Ok c →
  cna_dim_in c = dim_in ∧ cna_dim_out c = dim_out ∧ cna_kernel_size c = k
  ∧ cna_stride c = s ∧ cna_groups c = g.
Proof.
  unfold ConvNormAct_init. intros Hc.
  apply bind_inv in Hc as (n & _ & Hc). apply bind_inv in Hc as (ac & _ & Hc).
  by injection Hc as <-.
Qed.

Lemma EW_MHSA_cfg_init_inv dim_in dim_mid act dh ws pre c :
  EW_MHSA_cfg_init dim_in dim_mid act dh ws pre = Ok c →
  0 < dh
  ∧ c = {| a_dim_head := dh; a_window_size := ws; a_num_head := dim_in `div` dh;
           a_attn_pre := pre; a_qk := (dim_in, dim_in * 2); a_v := (dim_in, dim_mid) |}.
Proof.
  unfold EW_MHSA_cfg_init, py_floordiv. intros Hc.
  destruct (decide (Z.of_nat dh = 0%Z)); [done|]. rewrite bind_Ok in Hc.
  apply bind_inv in Hc as (c1 & H1 & Hc). apply bind_inv in Hc as (c2 & H2 & Hc).
  injection Hc as <-.
  apply ConvNormAct_init_inv in H1 as (-> & -> & _).
  apply ConvNormAct_init_inv in H2 as (-> & -> & _).
  split; [lia|]. by rewrite <- Nat2Z.inj_div, Nat2Z.id.
Qed.

Lemma make_eop_inv a t e :
  make_eop a (dim_mid_of a) t = Ok (Some e) →
  known_tag t = true ∧ eop_tag e = t
  ∧ match e with
    | Eop_Conv net =>
      cna_dim_in net = arg_dim_in a ∧ cna_dim_out net = dim_mid_of a
      ∧ cna_kernel_size net = arg_conv_ks a ∧ cna_stride net = 1
    | Eop_Remote c | Eop_Close c | Eop_Hybrid c =>
      0 < arg_dim_head a ∧ c = attention_cfg_of a
    end.
Proof.
  unfold make_eop, known_tag. intros He.
  destruct (decide (t = 0)%Z) as [->|].
  { apply bind_inv in He as (net & Hn & He). injection He as <-.
    apply ConvNormAct_init_inv in Hn as (? & ? & ? & ? & _). done. }
  destruct (decide (t = 1)%Z) as [->|].
  { apply bind_inv in He as (c & Hc & He). injection He as <-.
    by apply EW_MHSA_cfg_init_inv in Hc as [? ->]. }
  destruct (decide (t = 2)%Z) as [->|].
  { apply bind_inv in He as (c & Hc & He). injection He as <-.
    by apply EW_MHSA_cfg_init_inv in Hc as [? ->]. }
  destruct (decide (t = 3)%Z) as [->|]; [|done].
  apply bind_inv in He as (c & Hc & He). injection He as <-.
  by apply EW_MHSA_cfg_init_inv in Hc as [? ->].
Qed.

Lemma make_eop_None a dm t : make_eop a dm t = Ok None → known_tag t = false.
Proof.
  unfold make_eop, known_tag. intros He.
  destruct (decide (t = 0)%Z).
  { by apply bind_inv in He as (? & _ & ?). }
  destruct (decide (t = 1)%Z).
  { by apply bind_inv in He as (? & _ & ?). }
  destruct (decide (t = 2)%Z).
  { by apply bind_inv in He as (? & _ & ?). }
  destruct (decide (t = 3)%Z).
  { by apply bind_inv in He as (? & _ & ?). }
  apply bool_decide_eq_false. lia.
Qed.

Lemma make_eops_inv a tags es :
  make_eops a (dim_mid_of a) tags = Ok es →
  eop_tag <$> es = List.filter known_tag tags
  ∧ Forall (fun e => make_eop a (dim_mid_of a) (eop_tag e) = Ok (Some e)) es.
Proof.
  revert es. induction tags as [|t tags IH]; intros es Hes; simpl in Hes.
  { by injection Hes as <-. }
  apply bind_inv in Hes as (o & Ho & Hes). apply bind_inv in Hes as (rest & Hr & Hes).
  injection Hes as <-. destruct (IH rest Hr) as [IH1 IH2]. cbn [List.filter].
  destruct o as [e|].
  - destruct (make_eop_inv _ _ _ Ho) as (Hk & Ht & _).
    rewrite fmap_cons, Hk, IH1, Ht. split; [done|].
    constructor; [by rewrite Ht|done].
  - by rewrite (make_eop_None _ _ _ Ho).
Qed.











Lemma iiRMB_init_inv a blk :
  iiRMB_init a = Ok blk →
  ∃ nm es cl pj,
    make_eops a (dim_mid_of a) (arg_hybrid_eops a) = Ok es
    ∧ (if decide (arg_dw_ks a > 0)%Z
       then ∃ c, cl = Some c ∧ cna_dim_in c = dim_mid_of a ∧ cna_dim_out c = dim_mid_of a
                 ∧ cna_kernel_size c = arg_dw_ks a ∧ cna_stride c = arg_stride a
       else cl = None)
    ∧ cna_dim_in pj = dim_mid_of a ∧ cna_dim_out pj = arg_dim_out a
    ∧ cna_kernel_size pj = 1%Z ∧ cna_stride pj = 1
    ∧ blk = {| norm := nm;
               has_skip := (bool_decide (arg_dim_in a = arg_dim_out a)
                            && bool_decide (arg_stride a = 1)) && arg_has_skip a;
               hybrid_eops := arg_hybrid_eops a; eops := es;
               conv_local := cl; proj := pj |}.
Proof.
  unfold iiRMB_init. fold (dim_mid_of a). intros Hb.
  apply bind_inv in Hb as (nm & _ & Hb). apply bind_inv in Hb as (es & Hes & Hb).
  apply bind_inv in Hb as (cl & Hcl & Hb). apply bind_inv in Hb as (pj & Hpj & Hb).
  injection Hb as <-. exists nm, es, cl, pj. split; [done|].
  apply ConvNormAct_init_inv in Hpj as (? & ? & ? & ? & _).
  split; [|done]. destruct (decide (arg_dw_ks a > 0)%Z).
  - apply bind_inv in Hcl as (c & Hc & Hcl). injection Hcl as <-.
    apply ConvNormAct_init_inv in Hc as (? & ? & ? & ? & _). by exists c.
  - by injection Hcl as <-.
Qed.






(** ** Concrete runs of the block *)



(** ** The constructor of the model *)

Lemma py_getitem_nat {A} (l : list A) (i : nat) :
  py_getitem l (Z.of_nat i)
  = match l !! i with Some x => Ok x | None => Raise IndexError end.
Proof.
  unfold py_getitem. cbv zeta. rewrite (decide_False (P := (Z.of_nat i < 0)%Z)) by lia.
  rewrite Nat2Z.id. destruct (decide (0 ≤ Z.of_nat i < Z.of_nat (length l))%Z) as [Hi|Hi].
  - done.
  - rewrite lookup_ge_None_2 by lia. done.
Qed.

Lemma idx_Ok {A} (l : list A) (i : nat) x : idx l i = Ok x ↔ l !! i = Some x.
Proof.
  unfold idx. rewrite py_getitem_nat. destruct (l !! i); split; congruence.
Qed.

Lemma block_args_inv a i j pre args :
  block_args a i j pre = Ok args →
  arg_dim_in args = pre ∧ e_embed_dims a !! i = Some (arg_dim_out args)
  ∧ (j = 0 →
     arg_stride args = 2 ∧ arg_has_skip args = false ∧ arg_hybrid_eops args = [0%Z]
     ∧ arg_conv_ks args = 1%Z ∧ arg_conv_groups args = 1
     ∧ ∃ dw, e_dw_kss a !! i = Some dw
         ∧ arg_dw_ks args = (if decide (dw > 0)%Z then dw else 5%Z))
  ∧ (j ≠ 0 →
     arg_stride args = 1 ∧ arg_has_skip args = true
     ∧ e_hybrid_eopss a !! i = Some (arg_hybrid_eops args)
     ∧ e_conv_kss a !! i = Some (arg_conv_ks args)
     ∧ e_conv_groupss a !! i = Some (arg_conv_groups args)
     ∧ e_dw_kss a !! i = Some (arg_dw_ks args)).
Proof.
  unfold block_args. intros Ha.
  apply bind_inv in Ha as ([[[[[[st hs] he] er] ck] cg] dw] & Hfirst & Ha).
  apply bind_inv in Ha as (ed & Hed%idx_Ok & Ha).
  apply bind_inv in Ha as (nl & _ & Ha). apply bind_inv in Ha as (al & _ & Ha).
  apply bind_inv in Ha as (dh & _ & Ha). apply bind_inv in Ha as (ws & _ & Ha).
  injection Ha as <-. cbn. split; [done|]. split; [done|].
  destruct (decide (j = 0)) as [->|Hj].
  - apply bind_inv in Hfirst as (er0 & _ & Hfirst).
    apply bind_inv in Hfirst as (dw0 & Hdw%idx_Ok & Hfirst).
    injection Hfirst as <- <- <- <- <- <- <-. split; [|done]. intros _.
    repeat split; try done. by exists dw0.
  - apply bind_inv in Hfirst as (he0 & Hhe%idx_Ok & Hfirst).
    apply bind_inv in Hfirst as (er0 & _ & Hfirst).
    apply bind_inv in Hfirst as (ck0 & Hck%idx_Ok & Hfirst).
    apply bind_inv in Hfirst as (cg0 & Hcg%idx_Ok & Hfirst).
    apply bind_inv in Hfirst as (dw0 & Hdw%idx_Ok & Hfirst).
    injection Hfirst as <- <- <- <- <- <- <-. split; [done|]. intros _. done.
Qed.

(** The inner loop, from any index on. *)
Lemma build_stage_fold a i n s l0 p0 l p' :
  foldM_result (fun '(layers, emb_dim_pre) j =>
           args ← block_args a i j emb_dim_pre;
           blk ← iiRMB_init args;
           embed_dim ← idx (e_embed_dims a) i;
           Ok (layers ++ [blk], embed_dim))
        (seq s n) (l0, p0) = Ok (l, p') →
  ∃ new, l = l0 ++ new ∧ length new = n
    ∧ (if decide (n = 0) then p' = p0 else e_embed_dims a !! i = Some p')
    ∧ ∀ j blk, new !! j = Some blk →
        ∃ args, block_args a i (s + j) (if decide (j = 0) then p0 else p') = Ok args
                ∧ iiRMB_init args = Ok blk.
Proof.
  revert s l0 p0. induction n as [|n IH]; intros s l0 p0 Hf; simpl in Hf.
  { injection Hf as <- <-. exists []. rewrite app_nil_r.
    repeat split; try done; intros j blk Hj; by rewrite lookup_nil in Hj. }
  apply bind_inv in Hf as ([l1 p1] & Hstep & Hf).
  apply bind_inv in Hstep as (args & Hargs & Hstep).
  apply bind_inv in Hstep as (blk & Hblk & Hstep).
  apply bind_inv in Hstep as (ed & Hed%idx_Ok & Hstep). injection Hstep as <- <-.
  apply IH in Hf as (new & -> & Hlen & Hp & Hnew).
  exists (blk :: new). split; [by rewrite <- app_assoc|]. split; [by rewrite <- Hlen|].
  assert (p' = ed) as ->.
  { destruct (decide (n = 0)); [done|congruence]. }
  split; [done|]. intros [|j] blk' Hj.
  - injection Hj as <-. exists args. by rewrite Nat.add_0_r.
  - simpl in Hj. destruct (Hnew j blk' Hj) as (args' & Ha' & Hb').
    exists args'. split; [|done]. rewrite <- Nat.add_succ_comm.
    by destruct (decide (j = 0)).
Qed.

Lemma build_stage_inv a i depth pre layers pre' :
  build_stage a i depth pre = Ok (layers, pre') →
  length layers = depth
  ∧ ∀ j blk, layers !! j = Some blk →
      ∃ args, block_args a i j (if decide (j = 0) then pre else arg_dim_out args) = Ok args
              ∧ iiRMB_init args = Ok blk.
Proof.
  unfold build_stage. intros Hb.
  apply build_stage_fold in Hb as (new & -> & Hlen & Hp & Hnew).
  split; [done|]. intros j blk Hj. destruct (Hnew j blk Hj) as (args & Ha & Hb).
  exists args. split; [|done]. simpl in Ha. destruct (decide (j = 0)); [done|].
  destruct (decide (depth = 0)) as [->|_].
  { by destruct new. }
  apply block_args_inv in Ha as Ha'. destruct Ha' as (_ & Hd & _). congruence.
Qed.

(** The outer loop, from any index on. *)
Lemma stages_fold a n s st0 p0 st p' :
  foldM_result (fun '(stages, emb_dim_pre) i =>
               depth ← idx (e_depths a) i;
               '(layers, emb_dim_pre) ← build_stage a i depth emb_dim_pre;
               Ok (stages ++ [layers], emb_dim_pre))
            (seq s n) (st0, p0) = Ok (st, p') →
  ∃ new, st = st0 ++ new ∧ length new = n
    ∧ ∀ k layers, new !! k = Some layers →
        ∃ depth pre pre', e_depths a !! (s + k) = Some depth
                          ∧ build_stage a (s + k) depth pre = Ok (layers, pre').
Proof.
  revert s st0 p0. induction n as [|n IH]; intros s st0 p0 Hf; simpl in Hf.
  { injection Hf as <- <-. exists []. rewrite app_nil_r.
    repeat split; try done; intros k layers Hk; by rewrite lookup_nil in Hk. }
  apply bind_inv in Hf as ([st1 p1] & Hstep & Hf).
  apply bind_inv in Hstep as (depth & Hd%idx_Ok & Hstep).
  apply bind_inv in Hstep as ([layers pre1] & Hl & Hstep). injection Hstep as <- <-.
  apply IH in Hf as (new & -> & Hlen & Hnew).
  exists (layers :: new). split; [by rewrite <- app_assoc|]. split; [by rewrite <- Hlen|].
  intros [|k] layers' Hk.
  - injection Hk as <-. exists depth, p0, pre1. by rewrite Nat.add_0_r.
  - simpl in Hk. destruct (Hnew k layers' Hk) as (d & pr & pr' & Hd' & Hb').
    exists d, pr, pr'. by rewrite <- Nat.add_succ_comm.
Qed.

Lemma get_stem_length dim_in dim_mid stem :
  get_stem dim_in dim_mid = Ok stem → length stem = 3.
Proof.
  unfold get_stem. intros Hs.
  apply bind_inv in Hs as (c1 & _ & Hs). apply bind_inv in Hs as (c2 & _ & Hs).
  apply bind_inv in Hs as (c3 & _ & Hs). by injection Hs as <-.
Qed.

Lemma EMO2_init_inv a m :
  EMO2_init a = Ok m →
  out_indices m = e_out_indices a ∧ length (stage0 m) = 3
  ∧ length (stages m) = length (e_depths a)
  ∧ ∀ i blks, stages m !! i = Some blks →
      ∃ pre pre', build_stage a i (length blks) pre = Ok (blks, pre')
                  ∧ e_depths a !! i = Some (length blks).
Proof.
  unfold EMO2_init. intros Hm. destruct (decide (e_num_classes a > 0)%Z); [|done].
  apply bind_inv in Hm as (d0 & _ & Hm). apply bind_inv in Hm as (stem & Hstem & Hm).
  apply bind_inv in Hm as ([sts p] & Hf & Hm). injection Hm as <-. cbn.
  apply stages_fold in Hf as (new & -> & Hlen & Hnew). simpl.
  split; [done|]. split; [by eapply get_stem_length|]. split; [done|].
  intros i blks Hi. destruct (Hnew i blks Hi) as (depth & pre & pre' & Hd & Hb).
  simpl in Hd, Hb. destruct (build_stage_inv _ _ _ _ _ _ Hb) as [<- _]. eauto.
Qed.

(** * The model the constructor builds *)

(** In every model the constructor returns, the stem has three layers,
    there is one stage per entry of [depths], and stage [i + 1] holds
    [depths[i]] blocks that all give [embed_dims[i]] channels. The first
    block of a stage has no residual skip, the single tag 0 - so one
    convolution operator with kernel 1, whatever [hybrid_eopss] says - and
    always a depthwise convolution of stride 2, with kernel [dw_kss[i]],
    or 5 when that is not positive. Every later block has the residual
    skip, keeps the tags [hybrid_eopss[i]] and has stride 1, with a
    depthwise convolution exactly when [dw_kss[i] > 0]. *)
Theorem EMO2_stage_structure (a : EMO2_args) (m : EMO2) :
  EMO2_init a = Ok m →
  out_indices m = e_out_indices a
  ∧ length (stage0 m) = 3
  ∧ length (stages m) = length (e_depths a)
  ∧ ∀ i blks, stages m !! i = Some blks →
      e_depths a !! i = Some (length blks)
      ∧ ∀ j blk, blks !! j = Some blk →
          e_embed_dims a !! i = Some (cna_dim_out (proj blk))
          ∧ has_skip blk = bool_decide (j ≠ 0)
          ∧ (j = 0 →
             hybrid_eops blk = [0%Z]
             ∧ (∃ net, eops blk = [Eop_Conv net] ∧ cna_kernel_size net = 1%Z
                       ∧ cna_stride net = 1)
             ∧ ∃ dw c, e_dw_kss a !! i = Some dw ∧ conv_local blk = Some c
                 ∧ cna_stride c = 2
                 ∧ cna_kernel_size c = (if decide (dw > 0)%Z then dw else 5%Z))
          ∧ (j ≠ 0 →
             e_hybrid_eopss a !! i = Some (hybrid_eops blk)
             ∧ ∃ dw, e_dw_kss a !! i = Some dw
                 ∧ match conv_local blk with
                   | Some c => (dw > 0)%Z ∧ cna_kernel_size c = dw ∧ cna_stride c = 1
                   | None => (dw ≤ 0)%Z
                   end).
Proof.
  intros Hm. destruct (EMO2_init_inv a m Hm) as (Ho & H0 & Hlen & Hst).
  split; [done|]. split; [done|]. split; [done|].
  intros i blks Hi. destruct (Hst i blks Hi) as (pre & pre' & Hb & Hd).
  split; [done|]. intros j blk Hj.
  destruct (build_stage_inv _ _ _ _ _ _ Hb) as [_ Hblk].
  destruct (Hblk j blk Hj) as (args & Ha & Hinit).
  destruct (block_args_inv _ _ _ _ _ Ha) as (Hin & Hout & Hfirst & Hlater).
  destruct (iiRMB_init_inv args blk Hinit)
    as (nm & es & cl & pj & Hes & Hcl & Pi & Po & Pk & Ps & ->).
  cbn [proj has_skip hybrid_eops eops conv_local] in *.
  split; [by rewrite Po|].
  destruct (decide (j = 0)) as [->|Hne].
  - destruct (Hfirst eq_refl) as (Es & Eh & Et & Ek & Eg & dw & Hdw & Edw).
    split; [by rewrite Eh, andb_false_r|].
    split; [|done]. intros _. split; [done|].
    destruct (make_eops_inv _ _ _ Hes) as [Htags Hbuilt]. rewrite Et in Htags.
    split.
    + destruct es as [|e [|e' es']]; [done| |done].
      apply Forall_inv in Hbuilt. apply make_eop_inv in Hbuilt as (_ & _ & Hbuilt).
      destruct e as [net|c|c|c]; try done.
      exists net. destruct Hbuilt as (_ & _ & Hk & Hs). by rewrite Hk, Ek.
    + exists dw. rewrite decide_True in Hcl by (rewrite Edw; destruct (decide (dw > 0)%Z); lia).
      destruct Hcl as (c & -> & _ & _ & Ck & Cs). exists c. by rewrite Ck, Cs, Es, Edw.
  - destruct (Hlater Hne) as (Es & Eh & Et & Ek & Eg & Hdw).
    split.
    { rewrite Eh, Es. by rewrite !bool_decide_eq_true_2 by done. }
    split; [done|]. intros _. split; [done|]. exists (arg_dw_ks args). split; [done|].
    destruct (decide (arg_dw_ks args > 0)%Z).
    + destruct Hcl as (c & -> & _ & _ & Ck & Cs). by rewrite Ck, Cs, Es.
    + rewrite Hcl. lia.
Qed.

(** ** A concrete run of the constructor *)

Lemma default_model_structure :
  ∃ m, EMO2_init (EMO2_default_args [1; 2; 3; 4]%Z) = Ok m
    ∧ length (stages m) = 4
    ∧ ∀ i blks, stages m !! i = Some blks →
        [1; 2; 4; 2] !! i = Some (length blks)
        ∧ ∀ j blk, blks !! j = Some blk → has_skip blk = bool_decide (j ≠ 0).
Proof.
  destruct (EMO2_init (EMO2_default_args [1; 2; 3; 4]%Z)) as [m|] eqn:Hm;
    [|by vm_compute in Hm].
  exists m. split; [reflexivity|].
  destruct (EMO2_stage_structure (EMO2_default_args [1; 2; 3; 4]%Z) m Hm)
    as (_ & _ & Hlen & Hst).
  split; [exact Hlen|]. intros i blks Hi. destruct (Hst i blks Hi) as [Hd Hblk].
  split; [exact Hd|]. intros j blk Hj. by destruct (Hblk j blk Hj) as (_ & ? & _).
Defined.


(** ** [forward] of the model *)









(** Indexing a Python list, and a list of such lookups. *)
Lemma py_getitem_Ok_iff {A} (l : list A) (i : Z) (x : A) :
  py_getitem l i = Ok x
  ↔ (- Z.of_nat (length l) ≤ i < Z.of_nat (length l))%Z
    ∧ l !! Z.to_nat (i `mod` Z.of_nat (length l)) = Some x.
Proof.
  unfold py_getitem. cbv zeta. set (n := Z.of_nat (length l)).
  destruct (decide (i < 0)%Z) as [Hneg|Hpos].
  - destruct (decide (0 ≤ i + n < n)%Z) as [Hr|Hr].
    + assert (i `mod` n = i + n)%Z as ->.
      { symmetry. apply (Z.mod_unique_pos i n (-1)); lia. }
      destruct (l !! Z.to_nat (i + n)); split; first [by intros [= ->] | by intros [_ [= ->]]
        | done | intros [_ ?]; done | intros; split; [lia|congruence]].
    + split; [done|]. intros [? _]. lia.
  - destruct (decide (0 ≤ i < n)%Z) as [Hr|Hr].
    + rewrite Z.mod_small by lia.
      destruct (l !! Z.to_nat i); split; first [by intros [= ->] | by intros [_ [= ->]]
        | done | intros [_ ?]; done | intros; split; [lia|congruence]].
    + split; [done|]. intros [? _]. lia.
Qed.

Lemma mapM_result_Ok_iff {A B} (f : A → result B) (l : list A) (ys : list B) :
  mapM_result f l = Ok ys ↔ Forall2 (fun a y => f a = Ok y) l ys.
Proof.
  revert ys. induction l as [|a l IH]; intros ys; simpl.
  - split; [intros [= <-]; constructor|by intros ->%Forall2_nil_inv_l].
  - split.
    + intros Hm. apply bind_inv in Hm as (b & Hb & Hm).
      apply bind_inv in Hm as (bs & Hbs & Hm). injection Hm as <-.
      constructor; [done|by apply IH].
    + intros (b & bs & Hb & Hbs & ->)%Forall2_cons_inv_l.
      rewrite Hb, bind_Ok. apply IH in Hbs. by rewrite Hbs.
Qed.

Lemma mapM_result_is_ok {A B} (f : A → result B) (l : list A) :
  is_ok (mapM_result f l) = true ↔ Forall (fun a => is_ok (f a) = true) l.
Proof.
  induction l as [|a l IH]; simpl.
  - split; [constructor|done].
  - destruct (f a) as [b|] eqn:Hb; simpl.
    + destruct (mapM_result f l) as [bs|]; simpl in *.
      * split; [intros _; constructor; [by rewrite Hb|by apply IH]|done].
      * split; [done|]. intros [_ Hl]%Forall_cons. by apply IH in Hl.
    + split; [done|]. intros [Ha _]%Forall_cons. by rewrite Hb in Ha.
Qed.

(** [forward] is the selection of the requested entries from the list
    of the five outputs. *)
Lemma EMO2_forward_shape_split cs m x :
  EMO2_forward_shape cs m x
  = (out ← EMO2_forward_shape cs (with_out_indices m [0; 1; 2; 3; 4]%Z) x;
     mapM_result (py_getitem out) (out_indices m))
  ∧ ∀ out, EMO2_forward_shape cs (with_out_indices m [0; 1; 2; 3; 4]%Z) x = Ok out →
      length out = 5.
Proof.
  unfold EMO2_forward_shape, with_out_indices, getattr_stage.
  cbn [stage0 stages out_indices].
  destruct (foldM_result _ (stage0 m) x) as [x0|]; [|done]. rewrite !bind_Ok.
  destruct (stages m !! (1 - 1)) as [b1|]; [|done]. rewrite !bind_Ok.
  destruct (run_stage cs b1 x0) as [x1|]; [|done]. rewrite !bind_Ok.
  destruct (stages m !! (2 - 1)) as [b2|]; [|done]. rewrite !bind_Ok.
  destruct (run_stage cs b2 x1) as [x2|]; [|done]. rewrite !bind_Ok.
  destruct (stages m !! (3 - 1)) as [b3|]; [|done]. rewrite !bind_Ok.
  destruct (run_stage cs b3 x2) as [x3|]; [|done]. rewrite !bind_Ok.
  destruct (stages m !! (4 - 1)) as [b4|]; [|done]. rewrite !bind_Ok.
  destruct (run_stage cs b4 x3) as [x4|]; [|done]. rewrite !bind_Ok.
  cbn [app].
  assert (mapM_result (fun i => py_getitem [x0; x1; x2; x3; x4] i) [0; 1; 2; 3; 4]%Z
          = Ok [x0; x1; x2; x3; x4]) as -> by reflexivity.
  split; [reflexivity|]. by intros out [= <-].
Qed.



(** [forward] collects five outputs (the stem's and the four stages')
    and returns the entries that [out_indices] names, in the order of
    [out_indices] and with repetitions; a negative index counts from the
    end. It returns exactly when the five outputs can be computed and
    every index lies in [-5, 5); an index outside is an [IndexError] that
    is raised only after all stages have run. *)
Theorem forward_selects_requested_outputs (cs : Z → nat → nat → nat) (m : EMO2)
    (x : shape4) :
  EMO2_forward_shape cs m x
  = (out ← EMO2_forward_shape cs (with_out_indices m [0; 1; 2; 3; 4]%Z) x;
     mapM_result (py_getitem out) (out_indices m))
  ∧ ∀ out, EMO2_forward_shape cs (with_out_indices m [0; 1; 2; 3; 4]%Z) x = Ok out →
      length out = 5
      ∧ (is_ok (EMO2_forward_shape cs m x) = true
         ↔ Forall (fun i => (-5 ≤ i < 5)%Z) (out_indices m))
      ∧ (¬ Forall (fun i => (-5 ≤ i < 5)%Z) (out_indices m) →
         EMO2_forward_shape cs m x = Raise IndexError)
      ∧ ∀ ys, EMO2_forward_shape cs m x = Ok ys →
          length ys = length (out_indices m)
          ∧ ∀ k i, out_indices m !! k = Some i →
              ys !! k = out !! Z.to_nat (i `mod` 5).
Proof.
  destruct (EMO2_forward_shape_split cs m x) as [Hsplit Hlen].
  split; [exact Hsplit|]. intros out Hout. specialize (Hlen out Hout).
  rewrite Hsplit, Hout, bind_Ok. split; [done|].
  assert (Hget : ∀ i y, py_getitem out i = Ok y
                   ↔ (-5 ≤ i < 5)%Z ∧ out !! Z.to_nat (i `mod` 5) = Some y).
  { intros i y. rewrite py_getitem_Ok_iff, Hlen. done. }
  assert (Hok : is_ok (mapM_result (py_getitem out) (out_indices m)) = true
                ↔ Forall (fun i => (-5 ≤ i < 5)%Z) (out_indices m)).
  { rewrite mapM_result_is_ok. apply Forall_iff. intros i. rewrite is_ok_true. split.
    - intros [y Hy]. by apply Hget in Hy as [? _].
    - intros Hi. destruct (lookup_lt_is_Some_2 out (Z.to_nat (i `mod` 5))) as [y Hy].
      { rewrite Hlen. pose proof (Z.mod_pos_bound i 5 ltac:(lia)). lia. }
      exists y. by apply Hget. }
  split; [exact Hok|]. split.
  - clear Hok. generalize (out_indices m). intros l.
    induction l as [|i l IH]; intros Hno; [by destruct Hno|].
    cbn [mapM_result]. destruct (py_getitem out i) as [y|e] eqn:Hy.
    + rewrite bind_Ok. apply Hget in Hy as [Hi _].
      rewrite IH; [done|]. intros Hl. apply Hno. by constructor.
    + unfold py_getitem in Hy. cbv zeta in Hy.
      destruct (decide (i < 0)%Z); destruct (decide _) as [Hr|Hr] in Hy;
        first [by injection Hy as <- | by destruct (out !! _) eqn:E in Hy;
          [|apply lookup_ge_None in E; rewrite Hlen in E; lia]].
  - intros ys Hys. apply mapM_result_Ok_iff in Hys. split.
    + symmetry. by eapply Forall2_length.
    + intros k i Hk. destruct (Forall2_lookup_l _ _ _ _ _ Hys Hk) as (y & Hy & Hi).
      apply Hget in Hi as [_ Hi]. by rewrite Hy, Hi.
Qed.

(** [forward] reads [stage1] to [stage4] and nothing else. A model
    built from fewer than four [depths] is constructed without complaint,
    yet its [forward] returns for no input; stages beyond the fourth are
    built and never run. *)
Theorem forward_runs_stages_1_to_4 (a : EMO2_args) (m : EMO2) :
  EMO2_init a = Ok m →
  length (stages m) = length (e_depths a)
  ∧ (length (e_depths a) < 4 → ∀ cs x, is_ok (EMO2_forward_shape cs m x) = false)
  ∧ ∀ cs x,
      EMO2_forward_shape cs m x
      = EMO2_forward_shape cs
          {| out_indices := out_indices m; stage0 := stage0 m;
             stages := take 4 (stages m) |} x.
Proof.
  intros Hm. destruct (EMO2_init_inv a m Hm) as (_ & _ & Hlen & _).
  split; [exact Hlen|]. split.
  - intros Hshort cs x. rewrite <- Hlen in Hshort.
    unfold EMO2_forward_shape, getattr_stage.
    destruct (foldM_result _ (stage0 m) x) as [x0|]; [|done]. rewrite !bind_Ok.
    destruct (stages m) as [|b1 [|b2 [|b3 [|b4 rest]]]]; simpl in Hshort; try lia; cbn [lookup list_lookup Nat.sub].
    + done.
    + rewrite bind_Ok. by destruct (run_stage cs b1 x0).
    + rewrite bind_Ok. destruct (run_stage cs b1 x0) as [x1|]; [|done]. rewrite !bind_Ok.
      by destruct (run_stage cs b2 x1).
    + rewrite bind_Ok. destruct (run_stage cs b1 x0) as [x1|]; [|done]. rewrite !bind_Ok.
      destruct (run_stage cs b2 x1) as [x2|]; [|done]. rewrite !bind_Ok.
      by destruct (run_stage cs b3 x2).
  - intros cs x. unfold EMO2_forward_shape, getattr_stage. cbn [stage0 stages out_indices].
    rewrite !lookup_take_lt by lia. done.
Qed.

(** ** Concrete runs of the model *)


Lemma three_stage_model_builds_but_never_runs :
  ∃ m, EMO2_init demo_three_stage_args = Ok m
       ∧ length (stages m) = 3
       ∧ ∀ cs x, is_ok (EMO2_forward_shape cs m x) = false.
Proof.
  destruct (EMO2_init demo_three_stage_args) as [m|] eqn:Hm; [|by vm_compute in Hm].
  exists m. split; [done|].
  destruct (forward_runs_stages_1_to_4 demo_three_stage_args m Hm) as (Hlen & Hno & _).
  split; [exact Hlen|]. apply Hno. simpl. lia.
Defined.


(** ** Loading a checkpoint *)

Lemma pair_eq_fields {A B} (x y : A * B) : x.1 = y.1 → x.2 = y.2 → x = y.
Proof. destruct x, y. simpl. by intros -> ->. Qed.

Lemma init_weights_lookup (params sd : gmap string array) (k : string) :
  (_init_weights params (Some sd)).1 !! k
  = match params !! k with
    | Some p =>
      match sd !! k with
      | Some t => if decide (arr_shape t = arr_shape p) then Some t else Some p
      | None => Some p
      end
    | None => None
    end.
Proof.
  rewrite init_weights_params. unfold merge_policy_spec. cbn [fst].
  rewrite map_lookup_imap. by destruct (params !! k).
Qed.

Lemma init_weights_result (params sd : gmap string array) :
  ((_init_weights params (Some sd)).2 = Ok () ∧ shapes_agree params sd)
  ∨ ((_init_weights params (Some sd)).2 = Raise RuntimeError ∧ ¬ shapes_agree params sd).
Proof.
  destruct (init_weights_outcome params sd) as [Hok Hraise].
  destruct ((_init_weights params (Some sd)).2) as [[]|e] eqn:E.
  - left. split; [done|]. by apply Hok.
  - right. assert (¬ shapes_agree params sd) as Hno.
    { intros Hag. by apply Hok in Hag. }
    split; [by apply Hraise|done].
Qed.

Lemma init_weights_result_eq (p1 p2 sd1 sd2 : gmap string array) :
  (shapes_agree p1 sd1 ↔ shapes_agree p2 sd2) →
  (_init_weights p1 (Some sd1)).2 = (_init_weights p2 (Some sd2)).2.
Proof.
  intros Hiff.
  destruct (init_weights_result p1 sd1) as [[-> H1]|[-> H1]],
    (init_weights_result p2 sd2) as [[-> H2]|[-> H2]]; tauto.
Qed.

(** Loading keeps the layout of the model: the names are those of the
    parameters before the call and every parameter keeps its shape,
    whether the call returns or raises; a parameter the checkpoint does
    not name keeps its value. Entries of the checkpoint under other names
    play no part: two checkpoints that agree on the names of the
    parameters give the same parameters and the same outcome, so neither a
    missing nor an unexpected name makes the strict load raise. *)
Theorem init_weights_keeps_names_and_shapes (params sd : gmap string array) :
  dom (_init_weights params (Some sd)).1 = dom params
  ∧ (∀ k p, params !! k = Some p →
       ∃ q, (_init_weights params (Some sd)).1 !! k = Some q
            ∧ arr_shape q = arr_shape p
            ∧ (sd !! k = None → q = p))
  ∧ ∀ sd', (∀ k, k ∈ dom params → sd' !! k = sd !! k) →
      _init_weights params (Some sd') = _init_weights params (Some sd).
Proof.
  split; [|split].
  - apply set_eq. intros k. rewrite !elem_of_dom, init_weights_lookup.
    destruct (params !! k) as [p|]; [|done].
    destruct (sd !! k) as [t|]; [destruct (decide _)|]; split; eauto.
  - intros k p Hp. rewrite init_weights_lookup, Hp.
    destruct (sd !! k) as [t|]; [destruct (decide _)|]; eauto.
    exists t. done.
  - intros sd' Hsame.
    apply pair_eq_fields.
    + apply map_eq. intros k. rewrite !init_weights_lookup.
      destruct (params !! k) as [p|] eqn:Hp; [|done].
      rewrite Hsame; [done|]. apply elem_of_dom. eauto.
    + apply init_weights_result_eq. unfold shapes_agree.
      split; intros Hag k p t Hp Ht; apply (Hag k p t Hp);
        [rewrite Hsame|rewrite <- Hsame]; try done; apply elem_of_dom; eauto.
Qed.

(** Loading the same checkpoint a second time changes no parameter and
    ends as the first call did: with a return if that returned, with
    [RuntimeError] if that raised. A failed load is not repaired by
    repeating it. *)
Theorem init_weights_again_changes_nothing (params sd : gmap string array) :
  _init_weights (_init_weights params (Some sd)).1 (Some sd)
  = _init_weights params (Some sd).
Proof.
  apply pair_eq_fields.
  - apply map_eq. intros k. rewrite !init_weights_lookup.
    destruct (params !! k) as [p|] eqn:Hp; [|done].
    destruct (sd !! k) as [t|] eqn:Ht; [|done].
    destruct (decide (arr_shape t = arr_shape p)) as [E|E].
    + by rewrite decide_True.
    + by rewrite decide_False.
  - apply init_weights_result_eq. unfold shapes_agree. split.
    + intros Hag k p t Hp Ht.
      destruct (decide (arr_shape t = arr_shape p)) as [E|E]; [done|].
      apply (Hag k p t); [|done]. by rewrite init_weights_lookup, Hp, Ht, decide_False.
    + intros Hag k q t Hq Ht. rewrite init_weights_lookup in Hq.
      destruct (params !! k) as [p|] eqn:Hp; [|done]. rewrite Ht in Hq.
      pose proof (Hag k p t Hp Ht) as E. rewrite decide_True in Hq by done.
      by injection Hq as <-.
Qed.


(** ** Freezing and the train-mode toggle *)

Lemma Module_train_train a b m : Module_train a (Module_train b m) = Module_train a m.
Proof.
  induction m as [k t ps cs IH] using module_ind'. simpl. f_equal.
  rewrite map_map. by apply map_ext_Forall.
Qed.

Lemma Module_train_eval_batchnorms a m :
  Module_train a (eval_batchnorms m) = Module_train a m.
Proof.
  induction m as [k t ps cs IH] using module_ind'.
  destruct k; simpl; f_equal; rewrite map_map; apply map_ext_Forall; try done.
  eapply Forall_impl; [exact IH|]. intros c _. apply Module_train_train.
Qed.

Lemma Module_train_freeze a m :
  Module_train a (freeze_parameters m) = freeze_parameters (Module_train a m).
Proof.
  induction m as [k t ps cs IH] using module_ind'. simpl. f_equal.
  rewrite !map_map. by apply map_ext_Forall.
Qed.

Lemma freeze_freeze m : freeze_parameters (freeze_parameters m) = freeze_parameters m.
Proof.
  induction m as [k t ps cs IH] using module_ind'. simpl. f_equal.
  - rewrite <- list_fmap_compose. by apply list_fmap_ext.
  - rewrite map_map. by apply map_ext_Forall.
Qed.

Lemma all_eval_child k t ps cs c : all_eval (Module k t ps cs) → c ∈ cs → all_eval c.
Proof.
  intros He Hc x Hx. apply He. simpl. apply list_elem_of_further.
  apply elem_of_concat_map. eauto.
Qed.

Lemma Module_eval_all_eval m : all_eval m → Module_train false m = m.
Proof.
  induction m as [k t ps cs IH] using module_ind'. intros He. simpl.
  assert (t = false) as -> by (apply (He (Module k t ps cs)); apply list_elem_of_here).
  f_equal. rewrite <- (map_id cs) at 2. apply map_ext_Forall.
  rewrite Forall_forall in IH |- *. intros c Hc. apply IH; [done|].
  by eapply all_eval_child.
Qed.

Lemma eval_batchnorms_all_eval m : all_eval m → eval_batchnorms m = m.
Proof.
  induction m as [k t ps cs IH] using module_ind'. intros He.
  assert (map eval_batchnorms cs = cs) as Hcs.
  { rewrite <- (map_id cs) at 2. apply map_ext_Forall.
    rewrite Forall_forall in IH |- *. intros c Hc. apply IH; [done|].
    by eapply all_eval_child. }
  destruct k; cbn [eval_batchnorms]; [|by rewrite Hcs..].
  by apply (Module_eval_all_eval (Module BatchNorm t ps cs)).
Qed.

Lemma fmap_concat_map {A B C} (f : B → C) (g : A → list B) (l : list A) :
  f <$> concat (map g l) = concat (map (fun a => f <$> g a) l).
Proof. induction l as [|a l IH]; [done|]. simpl. by rewrite fmap_app, IH. Qed.

Lemma parameters_freeze_eq m :
  parameters (freeze_parameters m)
  = (fun p => {| p_name := p_name p; requires_grad := false |}) <$> parameters m.
Proof.
  induction m as [k t ps cs IH] using module_ind'. simpl.
  rewrite fmap_app, fmap_concat_map, map_map. f_equal. f_equal.
  by apply map_ext_Forall.
Qed.

Lemma kinds_train a m : kind <$> modules (Module_train a m) = kind <$> modules m.
Proof.
  induction m as [k t ps cs IH] using module_ind'. simpl. f_equal.
  rewrite !fmap_concat_map, map_map. f_equal. by apply map_ext_Forall.
Qed.

Lemma kinds_eval_batchnorms m :
  kind <$> modules (eval_batchnorms m) = kind <$> modules m.
Proof.
  induction m as [k t ps cs IH] using module_ind'.
  destruct k; [apply (kinds_train false (Module BatchNorm t ps cs))|..];
    simpl; f_equal; rewrite !fmap_concat_map, map_map; f_equal; by apply map_ext_Forall.
Qed.

Lemma batchnorms_are_leaves_child k t ps cs c :
  batchnorms_are_leaves (Module k t ps cs) → c ∈ cs → batchnorms_are_leaves c.
Proof.
  intros Hl Hc x Hx. apply Hl. simpl. apply list_elem_of_further.
  apply elem_of_concat_map. eauto.
Qed.

(** In a subtree put in training mode and passed through the
    [norm_eval] loop, exactly the [_BatchNorm] modules are in evaluation
    mode, when these have no children. *)
Lemma modes_eval_batchnorms m x :
  batchnorms_are_leaves m →
  x ∈ modules (eval_batchnorms (Module_train true m)) →
  training x = bool_decide (kind x ≠ BatchNorm).
Proof.
  revert x. induction m as [k t ps cs IH] using module_ind'. intros x Hl.
  destruct (decide (k = BatchNorm)) as [->|Hk].
  - assert (cs = []) as ->.
    { apply (Hl (Module BatchNorm t ps cs)); [apply list_elem_of_here|done]. }
    simpl. intros ->%list_elem_of_singleton. done.
  - assert (eval_batchnorms (Module_train true (Module k t ps cs))
            = Module k true ps (map eval_batchnorms (map (Module_train true) cs))) as ->.
    { by destruct k. }
    simpl. rewrite elem_of_cons, elem_of_concat_map.
    intros [->|(c & Hc & Hx)]; [simpl; by rewrite bool_decide_eq_true_2|].
    rewrite map_map in Hc. apply elem_of_map in Hc as (c0 & -> & Hc0).
    rewrite Forall_forall in IH. apply (IH c0 Hc0); [|done].
    by eapply batchnorms_are_leaves_child.
Qed.

Lemma with_stages_same s : with_stages s (stage_modules s) = s.
Proof. by destruct s. Qed.

(** The loop of [_freeze_stages] over [range(a, a + n)]: the state it
    leaves, also when it raises, and whether it raises. *)
Lemma freeze_loop_seq n a s :
  freeze_loop (seq a n) s
  = (with_stages s
       (imap (fun i m => if decide (a ≤ i < a + n)
                         then freeze_parameters (Module_eval m) else m)
             (stage_modules s)),
     if decide (n = 0 ∨ a + n ≤ length (stage_modules s))
     then Ok () else Raise AttributeError).
Proof.
  revert a s. induction n as [|n IH]; intros a s.
  - cbn [seq freeze_loop]. rewrite decide_True by (by left). f_equal.
    rewrite <- (with_stages_same s) at 1. f_equal.
    apply list_eq. intros i. rewrite list_lookup_imap.
    destruct (stage_modules s !! i); [|done]. simpl. by rewrite decide_False by lia.
  - cbn [seq freeze_loop]. destruct (stage_modules s !! a) as [m|] eqn:Hm.
    + rewrite IH. cbn [stage_modules with_stages self_training frozen_stages norm_eval].
      apply lookup_lt_Some in Hm as Hlt. f_equal.
      * unfold with_stages. cbn. f_equal. apply list_eq. intros i.
        rewrite !list_lookup_imap. destruct (decide (i = a)) as [->|Hne].
        -- rewrite list_lookup_insert_eq, Hm by done. simpl.
           by rewrite decide_False, decide_True by lia.
        -- rewrite list_lookup_insert_ne by done.
           destruct (stage_modules s !! i); [|done]. simpl.
           repeat case_decide; done || lia.
      * rewrite length_insert.
        repeat case_decide; done || lia.
    + apply lookup_ge_None in Hm. rewrite decide_False by lia. f_equal.
      rewrite <- (with_stages_same s) at 1. f_equal.
      apply list_eq. intros i. rewrite list_lookup_imap.
      destruct (stage_modules s !! i) eqn:Hi; [|done]. simpl.
      apply lookup_lt_Some in Hi. by rewrite decide_False by lia.
Qed.

Lemma freeze_stages_closed s :
  _freeze_stages s
  = (with_stages s
       (imap (fun i m => if decide (Z.of_nat i ≤ frozen_stages s)%Z
                         then freeze_parameters (Module_eval m) else m)
             (stage_modules s)),
     if decide (stages_exist s) then Ok () else Raise AttributeError).
Proof.
  unfold _freeze_stages, frozen_range. rewrite freeze_loop_seq. f_equal.
  - f_equal. apply imap_ext. intros i m _.
    repeat case_decide; done || lia.
  - unfold stages_exist.
    repeat case_decide; done || lia.
Qed.

(** [train(mode)] in closed form: the state it leaves, also when it
    raises, and whether it raises. *)
Lemma train_closed mode s :
  train mode s
  = ({| self_training := mode;
        stage_modules := imap (stage_after_train mode s) (stage_modules s);
        frozen_stages := frozen_stages s; norm_eval := norm_eval s |},
     if decide (stages_exist s) then Ok () else Raise AttributeError).
Proof.
  unfold train. rewrite freeze_stages_closed.
  assert (Hex : stages_exist (super_train mode s) ↔ stages_exist s).
  { unfold stages_exist, super_train. cbn. by rewrite length_fmap. }
  rewrite (decide_ext _ _ _ _ Hex).
  cbn [super_train stage_modules frozen_stages norm_eval self_training with_stages].
  destruct (decide (stages_exist s)) as [He|He].
  - destruct (mode && norm_eval s) eqn:Hn; unfold with_stages;
      cbn [self_training stage_modules frozen_stages norm_eval];
      f_equal; f_equal; apply list_eq; intros i;
      rewrite ?list_lookup_fmap, !list_lookup_imap, ?list_lookup_fmap;
      destruct (stage_modules s !! i) as [m|]; try done; simpl; f_equal;
      unfold stage_after_train; rewrite ?Hn;
      destruct (decide (Z.of_nat i ≤ frozen_stages s)%Z); try done.
    + unfold Module_eval. rewrite Module_train_train.
      apply eval_batchnorms_all_eval. apply frozen_freeze.
    + unfold Module_eval. by rewrite Module_train_train.
  - unfold with_stages. cbn [self_training stage_modules frozen_stages norm_eval].
    f_equal. f_equal. apply list_eq. intros i.
    rewrite !list_lookup_imap, list_lookup_fmap.
    destruct (stage_modules s !! i) as [m|] eqn:Hi; [|done]. simpl. f_equal.
    apply lookup_lt_Some in Hi. unfold stages_exist in He.
    unfold stage_after_train. rewrite !decide_True by lia.
    unfold Module_eval. by rewrite Module_train_train.
Qed.


(** [_freeze_stages] raises [AttributeError] exactly when the frozen
    range asks for a stage the object does not have, and then only after
    freezing every stage it has. Returning or raising, it puts each
    existing stage of the range in evaluation mode with its parameters
    frozen, and leaves every other stage and the flags of the object as
    they were; with a negative [frozen_stages] it changes nothing. *)
Theorem freeze_stages_contract (s : EMO2_modes) :
  (_freeze_stages s).2 = (if decide (stages_exist s) then Ok () else Raise AttributeError)
  ∧ self_training (_freeze_stages s).1 = self_training s
  ∧ frozen_stages (_freeze_stages s).1 = frozen_stages s
  ∧ norm_eval (_freeze_stages s).1 = norm_eval s
  ∧ length (stage_modules (_freeze_stages s).1) = length (stage_modules s)
  ∧ (∀ i m, stage_modules s !! i = Some m →
       stage_modules (_freeze_stages s).1 !! i
       = Some (if decide (Z.of_nat i ≤ frozen_stages s)%Z
               then freeze_parameters (Module_eval m) else m))
  ∧ ((frozen_stages s < 0)%Z → _freeze_stages s = (s, Ok ())).
Proof.
  rewrite freeze_stages_closed. cbn [fst snd with_stages self_training frozen_stages
    norm_eval stage_modules].
  split; [done|]. split; [done|]. split; [done|]. split; [done|].
  split; [by rewrite length_imap|]. split.
  - intros i m Hi. by rewrite list_lookup_imap, Hi.
  - intros Hneg. unfold stages_exist. rewrite decide_True by lia. f_equal.
    destruct s as [t sts fs ne]. unfold with_stages.
    cbn [self_training stage_modules frozen_stages norm_eval] in *.
    f_equal. apply list_eq. intros i. rewrite list_lookup_imap.
    destruct (sts !! i); [|done]. simpl. by rewrite decide_False by lia.
Qed.

(** When the frozen range asks for a stage the object does not have,
    [train(mode)] raises [AttributeError], after the mode switch: the
    object is left with [training = mode], while every stage it has is in
    evaluation mode with its parameters frozen, whatever [mode] was. *)
Theorem train_with_missing_stage (mode : bool) (s : EMO2_modes) :
  ¬ stages_exist s →
  (train mode s).2 = Raise AttributeError
  ∧ self_training (train mode s).1 = mode
  ∧ ∀ i m, stage_modules s !! i = Some m →
      stage_modules (train mode s).1 !! i = Some (freeze_parameters (Module_eval m)).
Proof.
  intros Hno. rewrite train_closed. cbn [fst snd self_training stage_modules].
  rewrite decide_False by done. split; [done|]. split; [done|].
  intros i m Hi. rewrite list_lookup_imap, Hi. simpl. f_equal.
  apply lookup_lt_Some in Hi. unfold stages_exist in Hno.
  unfold stage_after_train. by rewrite decide_True by lia.
Qed.

(** The state after [train(mode)] keeps no trace of earlier calls:
    calling [train(m1)] and then [train(m2)] leaves the object as
    [train(m2)] alone does, and ends the same way. In particular a second
    [train(mode)] changes nothing. *)
Theorem train_last_call_wins (m1 m2 : bool) (s : EMO2_modes) :
  train m2 (train m1 s).1 = train m2 s.
Proof.
  rewrite (train_closed m1 s). cbn [fst]. rewrite !train_closed.
  cbn [self_training stage_modules frozen_stages norm_eval].
  assert (Hex : stages_exist
                  {| self_training := m1;
                     stage_modules := imap (stage_after_train m1 s) (stage_modules s);
                     frozen_stages := frozen_stages s; norm_eval := norm_eval s |}
                ↔ stages_exist s).
  { unfold stages_exist. cbn. by rewrite length_imap. }
  rewrite (decide_ext _ _ _ _ Hex). f_equal. f_equal.
  apply list_eq. intros i. rewrite !list_lookup_imap.
  destruct (stage_modules s !! i) as [m|]; [|done]. simpl. f_equal.
  unfold stage_after_train. cbn [frozen_stages norm_eval].
  destruct (decide (Z.of_nat i ≤ frozen_stages s)%Z).
  - unfold Module_eval. by rewrite Module_train_freeze, Module_train_train, freeze_freeze.
  - assert (H1 : ∀ y, Module_train m2
                        (if m1 && norm_eval s then eval_batchnorms (Module_train m1 y)
                         else Module_train m1 y) = Module_train m2 y).
    { intros y. destruct (m1 && norm_eval s);
        by rewrite ?Module_train_eval_batchnorms, Module_train_train. }
    by rewrite H1.
Qed.

(** A stage outside the frozen range, after [train(mode)]: it has the
    same modules, all in mode [mode], except that with [norm_eval] the
    [_BatchNorm] modules are in evaluation mode after [train(True)]. The
    other normalisation layers follow [mode]: [norm_eval] does not put a
    [LayerNorm] in evaluation mode. *)
Theorem norm_eval_switches_batchnorm_only (mode : bool) (s : EMO2_modes) (i : nat)
    (m : module) :
  stage_modules s !! i = Some m →
  (frozen_stages s < Z.of_nat i)%Z →
  batchnorms_are_leaves m →
  ∃ m', stage_modules (train mode s).1 !! i = Some m'
        ∧ kind <$> modules m' = kind <$> modules m
        ∧ ∀ x, x ∈ modules m' →
            training x
            = mode && (negb (norm_eval s) || bool_decide (kind x ≠ BatchNorm)).
Proof.
  intros Hi Hfr Hl. rewrite train_closed. cbn [fst stage_modules].
  rewrite list_lookup_imap, Hi. simpl. eexists. split; [done|].
  unfold stage_after_train. rewrite decide_False by lia.
  destruct mode; [destruct (norm_eval s)|]; simpl.
  - split; [by rewrite kinds_eval_batchnorms, kinds_train|].
    intros x Hx. by apply (modes_eval_batchnorms m).
  - split; [by rewrite kinds_train|]. intros x Hx. by apply modules_train in Hx.
  - split; [by rewrite kinds_train|]. intros x Hx. by apply modules_train in Hx.
Qed.

(** [train] never turns gradient tracking on. After [train(mode)] a
    stage has the parameters it had, under the same names and in the same
    order; none has [requires_grad] set that did not have it before, and
    outside the frozen range the parameters are unchanged. A parameter
    frozen once stays frozen through every later call. *)
Theorem train_never_enables_gradients (mode : bool) (s : EMO2_modes) (i : nat)
    (m : module) :
  stage_modules s !! i = Some m →
  ∃ m', stage_modules (train mode s).1 !! i = Some m'
        ∧ p_name <$> parameters m' = p_name <$> parameters m
        ∧ Forall2 (fun p p' => requires_grad p' = true → requires_grad p = true)
            (parameters m) (parameters m')
        ∧ ((frozen_stages s < Z.of_nat i)%Z → parameters m' = parameters m).
Proof.
  intros Hi. rewrite train_closed. cbn [fst stage_modules].
  rewrite list_lookup_imap, Hi. simpl. eexists. split; [done|].
  unfold stage_after_train. destruct (decide (Z.of_nat i ≤ frozen_stages s)%Z).
  - unfold Module_eval. rewrite parameters_freeze_eq, parameters_train.
    split; [|split; [|lia]].
    + rewrite <- list_fmap_compose. by apply list_fmap_ext.
    + apply Forall2_fmap_r, Forall_Forall2_diag, Forall_forall. by intros p _.
  - assert (parameters (if mode && norm_eval s then eval_batchnorms (Module_train mode m)
                        else Module_train mode m) = parameters m) as ->.
    { destruct (mode && norm_eval s);
        by rewrite ?parameters_eval_batchnorms, parameters_train. }
    split; [done|]. split; [|done].
    apply Forall_Forall2_diag, Forall_forall. by intros p _.
Qed.

(** ** Concrete runs of the mode methods *)

Lemma train_raises_on_missing_stage :
  (train true demo_modes_missing_stage).2 = Raise AttributeError
  ∧ self_training (train true demo_modes_missing_stage).1 = true
  ∧ ∀ i m, stage_modules demo_modes_missing_stage !! i = Some m →
      stage_modules (train true demo_modes_missing_stage).1 !! i
      = Some (freeze_parameters (Module_eval m)).
Proof.
  apply (train_with_missing_stage true demo_modes_missing_stage).
  unfold stages_exist. simpl. lia.
Defined.

Lemma layer_norm_of_unfrozen_stage_keeps_training :
  ∃ m', stage_modules (train true demo_modes).1 !! 2 = Some m'
        ∧ kind <$> modules m' = kind <$> modules (demo_stage "c")
        ∧ ∀ x, x ∈ modules m' →
            training x
            = true && (negb (norm_eval demo_modes) || bool_decide (kind x ≠ BatchNorm)).
Proof.
  apply (norm_eval_switches_batchnorm_only true demo_modes 2 (demo_stage "c")).
  - reflexivity.
  - simpl. lia.
  - intros x Hx Hk. simpl in Hx.
    repeat (apply elem_of_cons in Hx as [->|Hx]; [done|]). by apply elem_of_nil in Hx.
Defined.

Lemma frozen_demo_stage_keeps_its_parameter_names :
  ∃ m', stage_modules (train true demo_modes).1 !! 0 = Some m'
        ∧ p_name <$> parameters m' = p_name <$> parameters (demo_stage "a")
        ∧ Forall2 (fun p p' => requires_grad p' = true → requires_grad p = true)
            (parameters (demo_stage "a")) (parameters m')
        ∧ ((frozen_stages demo_modes < Z.of_nat 0)%Z
           → parameters m' = parameters (demo_stage "a")).
Proof.
  apply (train_never_enables_gradients true demo_modes 0 (demo_stage "a")).
  reflexivity.
Defined.


(** ** The drop-path rates *)

Lemma sum_list_take_le (l : list nat) (i : nat) : sum_list (take i l) ≤ sum_list l.
Proof. rewrite <- (take_drop i l) at 2. rewrite sum_list_with_app. lia. Qed.

Lemma sum_list_take_S (l : list nat) (i d : nat) :
  l !! i = Some d → sum_list (take (i + 1) l) = sum_list (take i l) + d.
Proof.
  intros Hi. rewrite Nat.add_1_r, (take_S_r _ _ _ Hi), sum_list_with_app. simpl. lia.
Qed.

(** The slices of the stages, one after the other, are the first
    [sum(depths)] rates. *)
Lemma dpr_concat {A} (dprs : list A) (depths : list nat) :
  concat (dpr dprs depths <$> seq 0 (length depths)) = take (sum_list depths) dprs.
Proof.
  induction depths as [|d depths IH] using rev_ind; [by rewrite take_0|].
  rewrite length_app, Nat.add_1_r, seq_S, fmap_app, concat_app. simpl.
  rewrite app_nil_r.
  assert (dpr dprs (depths ++ [d]) <$> seq 0 (length depths)
          = dpr dprs depths <$> seq 0 (length depths)) as ->.
  { apply list_fmap_ext. intros k i Hi. apply lookup_seq in Hi as [-> Hi].
    unfold dpr. by rewrite !take_app_le by lia. }
  rewrite IH. unfold dpr, py_slice.
  rewrite take_app_length.
  rewrite (take_ge (depths ++ [d])) by (rewrite length_app; simpl; lia).
  rewrite sum_list_with_app. simpl.
  replace (sum_list depths + (d + 0) - sum_list depths) with d by lia.
  rewrite take_take_drop. f_equal. lia.
Qed.

(** The drop-path rates are dealt out to the blocks in order, one
    each: the slices [dpr] of the stages partition [dprs], and for every
    block the constructor builds, [dpr[j]] is in range - it is the entry
    of [dprs] whose index is the number of the blocks built before. The
    length of [dprs] is that of [torch.linspace(0, drop_path,
    sum(depths))]. *)
Theorem drop_path_rates_are_dealt_in_order {A} (dprs : list A) (depths : list nat) :
  length dprs = sum_list depths →
  concat (dpr dprs depths <$> seq 0 (length depths)) = dprs
  ∧ ∀ i depth j, depths !! i = Some depth → j < depth →
      length (dpr dprs depths i) = depth
      ∧ ∃ r, py_getitem (dpr dprs depths i) (Z.of_nat j) = Ok r
             ∧ dprs !! (sum_list (take i depths) + j) = Some r.
Proof.
  intros Hlen. split; [by rewrite dpr_concat, take_ge by lia|].
  intros i depth j Hi Hj.
  pose proof (sum_list_take_S depths i depth Hi) as HS.
  pose proof (sum_list_take_le depths (i + 1)) as Hle.
  unfold dpr, py_slice. rewrite HS.
  replace (sum_list (take i depths) + depth - sum_list (take i depths)) with depth by lia.
  split; [rewrite length_take, length_drop; lia|].
  destruct (lookup_lt_is_Some_2 dprs (sum_list (take i depths) + j)) as [r Hr]; [lia|].
  exists r. split; [|done].
  rewrite py_getitem_nat, lookup_take_lt, lookup_drop by done. by rewrite Hr.
Qed.

(** ** A concrete run of the drop-path rule *)

Lemma default_depths_deal_nine_rates :
  concat (dpr [0; 1; 2; 3; 4; 5; 6; 7; 8] [1; 2; 4; 2] <$> seq 0 (length [1; 2; 4; 2]))
  = [0; 1; 2; 3; 4; 5; 6; 7; 8]
  ∧ ∀ i depth j, [1; 2; 4; 2] !! i = Some depth → j < depth →
      length (dpr [0; 1; 2; 3; 4; 5; 6; 7; 8] [1; 2; 4; 2] i) = depth
      ∧ ∃ r, py_getitem (dpr [0; 1; 2; 3; 4; 5; 6; 7; 8] [1; 2; 4; 2] i) (Z.of_nat j) = Ok r
             ∧ [0; 1; 2; 3; 4; 5; 6; 7; 8] !! (sum_list (take i [1; 2; 4; 2]) + j) = Some r.
Proof.
  apply (drop_path_rates_are_dealt_in_order [0; 1; 2; 3; 4; 5; 6; 7; 8] [1; 2; 4; 2]).
  reflexivity.
Defined.
